(** * Relevance scoring and ranking of [src/utils/productMatcher.ts]

    A shallow embedding of the product matcher: the tokenizer
    [tokenizeClassName], the scorer [calculateSimilarity], the ranking
    function [findMatchingProducts], the filters [filterProducts] and
    [filterByCategory] and the category list [getCategories]; of the
    classifier module [src/utils/imageClassifier.ts] ([loadModel],
    [classifyImage], [extractTags], [disposeModel]); and of the handlers
    of the page component that call them.  The properties the
    specification states about the matcher come first, further properties
    of the code after them.

    Conventions.
    - A JavaScript string is the sequence of its code units; the code units
      modelled are U+0000..U+00FF, one [ascii] each.
    - A JavaScript [number] is kept behind the interface [Number], which has
      two instances: IEEE 754 binary64 ([float], what the engine computes
      with) and exact rationals ([Q], the same program without rounding).
      The functions are written once, over the interface.  Properties of
      the structure of the computation are proved for every instance;
      rank sensitivity and the monotonicity of the score are proved on
      binary64, through the rounding of [SpecFloat].
    - An array index, a rank or a length is a [nat]; the [limit] argument
      is an integer-valued number, a [Z]. *)

From Stdlib Require Import Bool Arith ZArith Lia List Ascii String QArith Lqa
  Floats Sorted Permutation.
Import ListNotations.

Close Scope Q_scope.
Close Scope float_scope.
Open Scope string_scope.
Open Scope list_scope.
Open Scope nat_scope.

(** ** Strings *)

Module JSString.

(** [\s] of a regular expression and the characters [String.prototype.trim]
    strips: WhiteSpace and LineTerminator, here TAB, LF, VT, FF, CR, SP and
    NBSP. *)
Definition isWhiteSpace (c : ascii) : bool :=
  let n := nat_of_ascii c in
  ((9 <=? n) && (n <=? 13)) || (n =? 32) || (n =? 160).

(** The character class [[\s,]] of the separator expression. *)
Definition isSeparator (c : ascii) : bool :=
  isWhiteSpace c || (nat_of_ascii c =? 44).

(** [toLowerCase] on one code unit: A..Z and the upper-case letters of
    U+00C0..U+00DE (all but the multiplication sign U+00D7). *)
Definition lowerChar (c : ascii) : ascii :=
  let n := nat_of_ascii c in
  if ((65 <=? n) && (n <=? 90))
     || ((192 <=? n) && (n <=? 222) && negb (n =? 215))
  then ascii_of_nat (n + 32) else c.

Fixpoint toLowerCase (s : string) : string :=
  match s with
  | EmptyString => EmptyString
  | String c s' => String (lowerChar c) (toLowerCase s')
  end.

Definition isEmpty (s : string) : bool :=
  match s with EmptyString => true | String _ _ => false end.

Fixpoint trimStart (s : string) : string :=
  match s with
  | EmptyString => EmptyString
  | String c s' => if isWhiteSpace c then trimStart s' else s
  end.

Fixpoint trimEnd (s : string) : string :=
  match s with
  | EmptyString => EmptyString
  | String c s' =>
      let r := trimEnd s' in
      if isWhiteSpace c && isEmpty r then EmptyString else String c r
  end.

Definition trim (s : string) : string := trimEnd (trimStart s).

(** [s.startsWith(p)] *)
Fixpoint startsWith (p s : string) : bool :=
  match p, s with
  | EmptyString, _ => true
  | String _ _, EmptyString => false
  | String a p', String b s' => Ascii.eqb a b && startsWith p' s'
  end.

(** [s.includes(sub)]: [sub] occurs in [s] at some position. *)
Fixpoint includes (s sub : string) : bool :=
  startsWith sub s ||
  match s with
  | EmptyString => false
  | String _ s' => includes s' sub
  end.

(** [s.split(/[\s,]+/)]: the pieces between the maximal runs of separators.
    [cur] is the piece being read, [inSep] tells whether the previous
    character was a separator.  A separator at the start or at the end
    leaves an empty piece there, and the empty string splits to [[""]]. *)
Fixpoint splitAux (s cur : string) (inSep : bool) : list string :=
  match s with
  | EmptyString => [cur]
  | String c s' =>
      if isSeparator c then
        if inSep then splitAux s' EmptyString true
        else cur :: splitAux s' EmptyString true
      else splitAux s' (cur ++ String c EmptyString) false
  end.

Definition split (s : string) : list string := splitAux s EmptyString false.

End JSString.

Import JSString.

(** ** Tokenizer *)

(** [tokenizeClassName], lines 10-22: the trimmed, lower-cased input
    followed by its lower-cased words. *)
Definition tokenizeClassName (className : string) : list string :=
  let original := trim className in
  let parts :=
    filter (fun s => negb (isEmpty s))
           (map trim (split (toLowerCase className))) in
  toLowerCase original :: parts.

(** ** Numbers *)

(** The operations of JavaScript numbers the matcher uses: literals, [+],
    [-], [*] and the comparisons [>=], [>] and [<]. *)
Class Number (N : Type) : Type := {
  lit : Z -> N;
  nadd : N -> N -> N;
  nsub : N -> N -> N;
  nmul : N -> N -> N;
  ngeb : N -> N -> bool;
  ngtb : N -> N -> bool;
  nltb : N -> N -> bool
}.

(** The integer [z] as a binary64 number (exact for the literals of the
    program). *)
Definition float_of_Z (z : Z) : float :=
  SF2Prim (binary_normalize prec emax z 0 false).

(** IEEE 754 binary64, the numbers of the engine. *)
#[export] Instance Float64 : Number float := {
  lit := float_of_Z;
  nadd := PrimFloat.add;
  nsub := PrimFloat.sub;
  nmul := PrimFloat.mul;
  ngeb := fun x y => PrimFloat.leb y x;
  ngtb := fun x y => PrimFloat.ltb y x;
  nltb := fun x y => PrimFloat.ltb x y
}.

(** Exact rational arithmetic: the same operations without rounding. *)
#[export] Instance Exact : Number Q := {
  lit := inject_Z;
  nadd := Qplus;
  nsub := Qminus;
  nmul := Qmult;
  ngeb := fun x y => Qle_bool y x;
  ngtb := fun x y => negb (Qle_bool x y);
  nltb := fun x y => negb (Qle_bool y x)
}.

(** What the ranking needs of the comparisons: [0 >= 100] fails, and a
    number below [y] is not at least [y]. *)
Class NumberLaws (N : Type) `{Number N} : Prop := {
  geb_0_100 : ngeb (lit 0) (lit 100) = false;
  ltb_not_geb : forall x y : N, nltb x y = true -> ngeb x y = false
}.

(** ** Data model *)

Section Matcher.

Context {N : Type} `{Number N}.

(** [Prediction] of [imageClassifier.ts], lines 10-13. *)
Record Prediction : Type := {
  className : string;
  probability : N
}.

(** Modelled from the spec: the [Product] type of [@/data/products], which
    the matcher imports and whose declaration is not among the sources.
    The matcher reads [name], [category] and [tags]; the page component
    also reads [id], [price] and [image]. *)
Record Product : Type := {
  id : Z;
  name : string;
  category : string;
  tags : list string;
  description : string;
  price : N;
  image : string
}.

(** [MatchScore], lines 4-8. *)
Record MatchScore : Type := {
  product : Product;
  score : N;
  matchedTags : list string
}.

(** An entry of the local array [predictionWords], lines 36-37. *)
Record PredictionWord : Type := {
  word : string;
  wprobability : N;
  rank : nat
}.

(** ** Array helpers *)

(** [l.forEach((x, index) => ...)] run on a state, the indices starting at
    [i]. *)
Fixpoint forEachFrom {A St : Type} (f : A -> nat -> St -> St) (l : list A)
    (i : nat) (st : St) : St :=
  match l with
  | [] => st
  | x :: l' => forEachFrom f l' (S i) (f x i st)
  end.

(** [l.forEach(x => ...)] run on a state. *)
Definition forEach {A St : Type} (f : A -> St -> St) (l : list A) (st : St)
  : St :=
  fold_left (fun s x => f x s) l st.

(** [l.slice(0, end)] for an integer [end]: a negative [end] counts from
    the end of the array. *)
Definition slice0 {A : Type} (l : list A) (e : Z) : list A :=
  let len := Z.of_nat (List.length l) in
  let final := if (e <? 0)%Z then Z.max (len + e) 0 else Z.min e len in
  firstn (Z.to_nat final) l.

(** [matchedTags.includes(tag)] *)
Definition arrayIncludes (l : list string) (s : string) : bool :=
  existsb (String.eqb s) l.

(** [[...new Set(l)]]: the first occurrence of every element, in order. *)
Fixpoint dedupFrom (seen l : list string) : list string :=
  match l with
  | [] => []
  | x :: l' =>
      if arrayIncludes seen x then dedupFrom seen l'
      else x :: dedupFrom (seen ++ [x]) l'
  end.

Definition dedup (l : list string) : list string := dedupFrom [] l.

(** ** calculateSimilarity *)

(** Lines 38-50: the prediction index.  Every word of a tokenized label
    longer than 2 characters is pushed with the probability and the index of
    its prediction. *)
Definition pushWords (pred : Prediction) (index : nat)
    (predictionWords : list PredictionWord) : list PredictionWord :=
  forEach
    (fun w acc =>
       if 2 <? String.length w then
         acc ++ [{| word := w; wprobability := probability pred; rank := index |}]
       else acc)
    (tokenizeClassName (className pred)) predictionWords.

Definition buildPredictionWords (predictions : list Prediction)
  : list PredictionWord :=
  forEachFrom pushWords predictions 0 [].

(** Lines 63-64, 93-94 and 119: [rank === 0 ? 5 : rank === 1 ? 4 :
    rank === 2 ? 3 : 2]. *)
Definition rankMultiplier (rank : nat) : N :=
  if rank =? 0 then lit 5
  else if rank =? 1 then lit 4
  else if rank =? 2 then lit 3
  else lit 2.

(** The test of lines 67-78 and of lines 97-108, which are the same
    [if ... else if ...] on a word of the field and a word of a prediction. *)
Inductive MatchKind : Type := ExactMatch | PartialMatch | NoMatch.

Definition matchKind (fieldWord predWord : string) : MatchKind :=
  if String.eqb fieldWord predWord then ExactMatch
  else if (includes fieldWord predWord || includes predWord fieldWord)
          && (3 <? String.length fieldWord)
          && (3 <? String.length predWord)
  then PartialMatch
  else NoMatch.

(** The running [score] and [matchedTags] of lines 32-33. *)
Record Acc : Type := {
  accScore : N;
  accMatched : list string
}.

(** Lines 57-85: one word of a tag against one entry of the index. *)
Definition tagStep (tag tagWord : string) (pw : PredictionWord) (st : Acc)
  : Acc :=
  match matchKind tagWord (word pw) with
  | ExactMatch =>
      {| accScore :=
           nadd (accScore st)
                (nmul (nmul (lit 100) (wprobability pw)) (rankMultiplier (rank pw)));
         accMatched := accMatched st ++ [tag] |}
  | PartialMatch =>
      {| accScore :=
           nadd (accScore st)
                (nmul (nmul (lit 10) (wprobability pw)) (rankMultiplier (rank pw)));
         accMatched :=
           if arrayIncludes (accMatched st) tag then accMatched st
           else accMatched st ++ [tag] |}
  | NoMatch => st
  end.

(** Lines 53-87: every word of every tag against the whole index. *)
Definition scoreTags (predictionWords : list PredictionWord)
    (productTags : list string) (st : Acc) : Acc :=
  forEach
    (fun tag =>
       forEach
         (fun tagWord => forEach (tagStep tag tagWord) predictionWords)
         (tokenizeClassName tag))
    productTags st.

(** Lines 92-114: one word of the name against one entry of the index. *)
Definition nameStep (nameWord : string) (pw : PredictionWord) (st : Acc)
  : Acc :=
  let label := ("name:" ++ nameWord)%string in
  match matchKind nameWord (word pw) with
  | ExactMatch =>
      {| accScore :=
           nadd (accScore st)
                (nmul (nmul (lit 150) (wprobability pw)) (rankMultiplier (rank pw)));
         accMatched := accMatched st ++ [label] |}
  | PartialMatch =>
      {| accScore :=
           nadd (accScore st)
                (nmul (nmul (lit 15) (wprobability pw)) (rankMultiplier (rank pw)));
         accMatched :=
           if arrayIncludes (accMatched st) label then accMatched st
           else accMatched st ++ [label] |}
  | NoMatch => st
  end.

(** Lines 90-115. *)
Definition scoreName (predictionWords : list PredictionWord)
    (productName : string) (st : Acc) : Acc :=
  forEach
    (fun nameWord => forEach (nameStep nameWord) predictionWords)
    (tokenizeClassName productName) st.

(** Lines 118-126: the category against one entry of the index. *)
Definition categoryStep (productCategory : string) (pw : PredictionWord)
    (st : Acc) : Acc :=
  if includes (toLowerCase productCategory) (word pw)
     || includes (word pw) (toLowerCase productCategory)
  then
    {| accScore :=
         nadd (accScore st)
              (nmul (nmul (lit 5) (wprobability pw)) (rankMultiplier (rank pw)));
       accMatched := accMatched st |}
  else st.

Definition scoreCategory (predictionWords : list PredictionWord)
    (productCategory : string) (st : Acc) : Acc :=
  forEach (categoryStep productCategory) predictionWords st.

(** Lines 28-135. *)
Definition calculateSimilarity (predictions : list Prediction)
    (p : Product) : MatchScore :=
  let predictionWords := buildPredictionWords predictions in
  let st0 := {| accScore := lit 0; accMatched := [] |} in
  let st1 := scoreTags predictionWords (tags p) st0 in
  let st2 := scoreName predictionWords (name p) st1 in
  let st3 := scoreCategory predictionWords (category p) st2 in
  {| product := p;
     score := accScore st3;
     matchedTags := dedup (accMatched st3) |}.

(** ** findMatchingProducts *)

(** The comparison function of lines 164 and 177, [(a, b) => b.score -
    a.score]. *)
Definition byScoreDesc (a b : MatchScore) : N := nsub (score b) (score a).

(** [Array.prototype.sort] with a comparison function: a stable sort, in
    which [x] moves behind [y] only when the comparison of [x] with [y] is
    positive. *)
Fixpoint sortInsert (cmp : MatchScore -> MatchScore -> N) (x : MatchScore)
    (l : list MatchScore) : list MatchScore :=
  match l with
  | [] => [x]
  | y :: l' =>
      if ngtb (cmp x y) (lit 0) then y :: sortInsert cmp x l'
      else x :: l
  end.

Definition sortBy (cmp : MatchScore -> MatchScore -> N)
    (l : list MatchScore) : list MatchScore :=
  fold_right (sortInsert cmp) [] l.

(** Lines 153-179: the ranked products, before the fallback.  The sort of
    line 164 is in place, so the filter of line 176 reads the sorted
    array. *)
Definition rankedProducts (predictions : list Prediction)
    (allProducts : list Product) (limit : Z) : list Product :=
  let scoredProducts :=
    filter (fun item => ngeb (score item) (lit 100))
           (map (calculateSimilarity predictions) allProducts) in
  let scoredProducts := sortBy byScoreDesc scoredProducts in
  map product
      (slice0
         (sortBy byScoreDesc
            (filter (fun item => ngtb (score item) (lit 0)) scoredProducts))
         limit).

(** Lines 140-195. *)
Definition findMatchingProducts (predictions : list Prediction)
    (allProducts : list Product) (limit : Z) : list Product :=
  let sortedProducts := rankedProducts predictions allProducts limit in
  if List.length sortedProducts =? 0 then slice0 allProducts limit
  else sortedProducts.

(** The default value of [limit], line 143. *)
Definition defaultLimit : Z := 50.

(** ** filterByCategory *)

(** Lines 238-247.  [!category] holds of the empty string. *)
Definition filterByCategory (products : list Product) (cat : string)
  : list Product :=
  if isEmpty cat || String.eqb cat "all" then products
  else filter (fun p => String.eqb (category p) cat) products.

End Matcher.

Arguments Prediction N : clear implicits.
Arguments Product N : clear implicits.
Arguments MatchScore N : clear implicits.
Arguments PredictionWord N : clear implicits.
Arguments Acc N : clear implicits.

(** ** Specification-side definitions *)

Section SpecSide.

Context {N : Type} `{Number N}.

(** The entries of the index that come from the prediction [pred] at
    position [r], as the specification words them: one per token of the
    tokenized label longer than 2 characters. *)
Definition specEntries (r : nat) (pred : Prediction N)
  : list (PredictionWord N) :=
  map (fun w => {| word := w; wprobability := probability pred; rank := r |})
      (filter (fun w => 2 <? String.length w)
              (tokenizeClassName (className pred))).

(** The prediction index of the specification (4.2), in input order. *)
Definition specIndex (predictions : list (Prediction N))
  : list (PredictionWord N) :=
  flat_map (fun rp => specEntries (fst rp) (snd rp))
           (combine (seq 0 (List.length predictions)) predictions).

(** [rankWeight] of the specification (4.3). *)
Definition rankWeight (r : nat) : Z :=
  match r with
  | 0 => 5
  | 1 => 4
  | 2 => 3
  | _ => 2
  end.

(** The contribution of one matching pair, [base * confidence *
    rankWeight(rank)]. *)
Definition contribution (base : Z) (pw : PredictionWord N) : N :=
  nmul (nmul (lit base) (wprobability pw)) (lit (rankWeight (rank pw))).

(** The contributions of one word of a field against one entry of the
    index. *)
Definition pairContributions (baseExact basePartial : Z) (fieldWord : string)
    (pw : PredictionWord N) : list N :=
  match matchKind fieldWord (word pw) with
  | ExactMatch => [contribution baseExact pw]
  | PartialMatch => [contribution basePartial pw]
  | NoMatch => []
  end.

Definition categoryContributions (productCategory : string)
    (pw : PredictionWord N) : list N :=
  if includes (toLowerCase productCategory) (word pw)
     || includes (word pw) (toLowerCase productCategory)
  then [contribution 5 pw] else [].

(** All the contributions to the score of a product, in the order in which
    the scorer adds them. *)
Definition contributions (index : list (PredictionWord N)) (p : Product N)
  : list N :=
  flat_map
    (fun tag =>
       flat_map (fun tagWord => flat_map (pairContributions 100 10 tagWord) index)
                (tokenizeClassName tag))
    (tags p)
  ++ flat_map (fun nameWord => flat_map (pairContributions 150 15 nameWord) index)
              (tokenizeClassName (name p))
  ++ flat_map (categoryContributions (category p)) index.

(** [s] contains [sub]: [sub] sits between a prefix and a suffix of [s]. *)
Definition contains (s sub : string) : Prop :=
  exists l r : string, s = (l ++ sub ++ r)%string.

(** No character of the string is a separator of the tokenizer. *)
Fixpoint noSeparator (s : string) : bool :=
  match s with
  | EmptyString => true
  | String c s' => negb (isSeparator c) && noSeparator s'
  end.

(** Every character of the string is white space. *)
Fixpoint allWhiteSpace (s : string) : bool :=
  match s with
  | EmptyString => true
  | String c s' => isWhiteSpace c && allWhiteSpace s'
  end.

(** The string starts with a separator of the tokenizer. *)
Definition startsWithSeparator (s : string) : bool :=
  match s with
  | EmptyString => false
  | String c _ => isSeparator c
  end.

(** The string ends with a separator of the tokenizer. *)
Fixpoint endsWithSeparator (s : string) : bool :=
  match s with
  | EmptyString => false
  | String c EmptyString => isSeparator c
  | String _ s' => endsWithSeparator s'
  end.

End SpecSide.

(** The sum of a list of exact numbers. *)
Definition total (l : list Q) : Q := fold_right Qplus 0%Q l.

(** ** Binary64 values *)

(** The value of the positive float of mantissa [m] and exponent [e], in
    units of [2^-1200]: an integer for every exponent the scorer meets. *)
Definition val (m : positive) (e : Z) : Z := (Zpos m * 2 ^ (e + 1200))%Z.

(** What [n >= 1] right shifts of [SpecFloat.shr_1] keep of the number [M]:
    the quotient by [2^n], the last bit shifted out (the round bit) and
    whether a lower bit was set (the sticky bit). *)
Definition shr_inv (n : Z) (M : Z) (mrs : shr_record) : Prop :=
  (0 <= shr_m mrs
   /\ exists low,
       M = shr_m mrs * 2 ^ n + (if shr_r mrs then 2 ^ (n - 1) else 0) + low
       /\ 0 <= low < 2 ^ (n - 1) /\ (shr_s mrs = true <-> 0 < low))%Z.

(** The place of a binary64 number that is at least 100 in the order of
    the numbers: its value, and a number above every value for
    [Infinity]. *)
Definition orderKey (x : spec_float) : Z :=
  match x with
  | S754_finite false m e => val m e
  | S754_infinity false => 2 ^ 3000
  | _ => 0
  end%Z.

(** [W] is [v] rounded to the nearest binary64 number, ties to even, before
    overflow, both in units of [2^-1200]: with [2^(P-1) <= v < 2^P] the unit
    in the last place is [2^h] for [h = max (P - 53) 126]; [W] is a multiple
    [k * 2^h] at most half a unit from [v], and [k] is even when [W] is
    exactly half a unit away. *)
Definition nearest (v W : Z) : Prop :=
  (exists P k : Z,
    127 <= P /\ 2 ^ (P - 1) <= v < 2 ^ P
    /\ W = k * 2 ^ Z.max (P - 53) 126
    /\ 2 * v - 2 ^ Z.max (P - 53) 126 <= 2 * W
       <= 2 * v + 2 ^ Z.max (P - 53) 126
    /\ (2 * W = 2 * v + 2 ^ Z.max (P - 53) 126
        \/ 2 * W = 2 * v - 2 ^ Z.max (P - 53) 126 -> Z.even k = true))%Z.

(** [K] is the [orderKey] of the binary64 sum of two numbers that are at
    least 0 and whose [orderKey]s add up to [v]: 0 for 0, the rounding of
    [v] below [2^1024] (here [2^2224]), and that of [Infinity] from there
    on. *)
Definition roundedSum (v K : Z) : Prop :=
  ((v = 0 /\ K = 0)
   \/ (2 ^ 2224 <= v /\ K = 2 ^ 3000)
   \/ exists W, nearest v W
                /\ K = if W <? 2 ^ 2224 then W else 2 ^ 3000)%Z.

(** [l'] is [l] with further elements inserted. *)
Inductive Subsequence {A : Type} : list A -> list A -> Prop :=
| Subsequence_nil : forall l', Subsequence [] l'
| Subsequence_cons :
    forall x l l', Subsequence l l' -> Subsequence (x :: l) (x :: l')
| Subsequence_skip :
    forall y l l', Subsequence l l' -> Subsequence l (y :: l').

(** ** Sample data *)

Module Sample.

Definition mkProduct {N : Type} `{Number N} (nm cat : string)
    (tgs : list string) : Product N :=
  {| id := 1; name := nm; category := cat; tags := tgs;
     description := ""; price := lit 0; image := "" |}.

Definition mkPrediction {N : Type} (label : string) (p : N) : Prediction N :=
  {| className := label; probability := p |}.

Definition mug : Product float :=
  mkProduct "Item A" "kitchen" ["coffee"; "mug"; "kitchen"].
Definition kettle : Product float :=
  mkProduct "Item B" "drinks" ["tea"; "kettle"].
Definition television : Product float :=
  mkProduct "Item C" "media" ["tv"].
Definition shoe : Product float :=
  mkProduct "Item D" "footwear" ["shoe"].

Definition travelMug : Product float :=
  mkProduct "Item F" "misc" ["coffeemug"].

Definition half : float := 0.5%float.

Definition cup : Product Q := mkProduct "Item E" "kitchen" ["coffee"].

(** The accumulator at the start of [calculateSimilarity]. *)
Definition start {N : Type} `{Number N} : Acc N :=
  {| accScore := lit 0; accMatched := [] |}.

Definition entry {N : Type} (w : string) (p : N) (r : nat) : PredictionWord N :=
  {| word := w; wprobability := p; rank := r |}.

(** The prediction of the example of the specification, of confidence
    0.92 (the nearest binary64 number). *)
Definition coffeeMug : Prediction float :=
  mkPrediction "coffee mug" 0x1.d70a3d70a3d71p-1%float.

Definition plainMug : Product float :=
  mkProduct "Item G" "kitchen" ["mug"].
Definition otherMug : Product float :=
  mkProduct "Item H" "kitchen" ["mug"].

End Sample.

(** What the order of the ranked result needs of the numbers that are at
    least 100, the scores that pass the filter of line 155: they are
    positive, the comparison function of the sort agrees with [>=], and
    [>=] is a total preorder on them. *)
Class RankingLaws (N : Type) `{Number N} : Prop := {
  geb_100_gtb_0 :
    forall x : N, ngeb x (lit 100) = true -> ngtb x (lit 0) = true;
  sub_not_gtb :
    forall x y : N,
      ngeb x (lit 100) = true -> ngeb y (lit 100) = true ->
      (ngtb (nsub y x) (lit 0) = false <-> ngeb x y = true);
  geb_total :
    forall x y : N,
      ngeb x (lit 100) = true -> ngeb y (lit 100) = true ->
      ngeb x y = true \/ ngeb y x = true;
  geb_trans :
    forall x y z : N,
      ngeb x (lit 100) = true -> ngeb y (lit 100) = true ->
      ngeb z (lit 100) = true ->
      ngeb x y = true -> ngeb y z = true -> ngeb x z = true
}.

(** ** The other functions of the matcher *)

Section OtherFunctions.

Context {N : Type} `{Number N}.

(** The test of lines 210-232 on one product. *)
Definition matchesQuery (query : string) (p : Product N) : bool :=
  if includes (toLowerCase (name p)) query then true
  else if includes (toLowerCase (category p)) query then true
  else if existsb (fun tag => includes (toLowerCase tag) query) (tags p)
  then true
  else if includes (toLowerCase (description p)) query then true
  else false.

(** [filterProducts], lines 200-233.  [!searchQuery] holds of the empty
    string. *)
Definition filterProducts (products : list (Product N))
    (searchQuery : string) : list (Product N) :=
  if isEmpty searchQuery || String.eqb (trim searchQuery) "" then products
  else
    let query := trim (toLowerCase searchQuery) in
    filter (matchesQuery query) products.

(** [Array.prototype.sort] without a comparison function, on strings: a
    stable sort by code units, in which [x] moves behind [y] only when [y]
    is smaller than [x]. *)
Fixpoint insertString (x : string) (l : list string) : list string :=
  match l with
  | [] => [x]
  | y :: l' =>
      match String.compare x y with
      | Gt => y :: insertString x l'
      | _ => x :: l
      end
  end.

Definition sortStrings (l : list string) : list string :=
  fold_right insertString [] l.

(** [getCategories], lines 252-255. *)
Definition getCategories (products : list (Product N)) : list string :=
  "all" :: sortStrings (dedup (map category products)).

(** [extractTags] of [imageClassifier.ts], lines 91-102.  The pieces of the
    split are pushed as they are: an empty piece is kept. *)
Definition extractTags (predictions : list (Prediction N)) : list string :=
  dedup
    (forEach
       (fun prediction tags =>
          tags ++ split (toLowerCase (className prediction)))
       predictions []).

End OtherFunctions.

(** ** The classifier module *)

Module Classifier.

(** What [loadModel] and [classifyImage] can throw: the two errors of the
    module, and a rejection of one of the calls into the libraries. *)
Inductive Error : Type :=
| NotLoadedFromCDN
| ModelFailedToLoad
| Rejected (reason : string).

Section WithModel.

Context {N : Type} {Model Image : Type}.

(** The surroundings of one call: whether [window] is defined, whether
    [window.tf] and [window.mobilenet] are there, how [tf.ready()] and
    [mobilenet.load(...)] settle ([None] for a model is [null]), and how
    [model.classify(image, 10)] settles. *)
Record Env : Type := {
  windowDefined : bool;
  tfAvailable : bool;
  mobilenetAvailable : bool;
  tfReady : option string;
  load : string + option Model;
  classify : Model -> Image -> string + list (Prediction N)
}.

(** The outcome of a call: what it returns or throws, and the module
    variable [model] (line 15) afterwards. *)
Definition Outcome (A : Type) : Type := (Error + A) * option Model.

(** [loadModel], lines 20-49, run to completion. *)
Definition loadModel (env : Env) (model : option Model) : Outcome unit :=
  match model with
  | None =>
      if windowDefined env then
        if negb (tfAvailable env) || negb (mobilenetAvailable env) then
          (inl NotLoadedFromCDN, model)
        else
          match tfReady env with
          | Some reason => (inl (Rejected reason), model)
          | None =>
              match load env with
              | inl reason => (inl (Rejected reason), model)
              | inr loaded => (inr tt, loaded)
              end
          end
      else (inr tt, model)
  | Some _ => (inr tt, model)
  end.

(** Lines 78-81: the formatted predictions. *)
Definition formatPredictions (predictions : list (Prediction N))
  : list (Prediction N) :=
  map (fun pred =>
         {| className := toLowerCase (className pred);
            probability := probability pred |})
      predictions.

(** [classifyImage], lines 54-86, run to completion. *)
Definition classifyImage (env : Env) (imageElement : Image)
    (model : option Model) : Outcome (list (Prediction N)) :=
  let '(loaded, model) :=
    match model with
    | None => loadModel env model
    | Some _ => (inr tt, model)
    end in
  match loaded with
  | inl e => (inl e, model)
  | inr _ =>
      match model with
      | None => (inl ModelFailedToLoad, model)
      | Some m =>
          match classify env m imageElement with
          | inl reason => (inl (Rejected reason), model)
          | inr predictions => (inr (formatPredictions predictions), model)
          end
      end
  end.

(** [disposeModel], lines 107-112. *)
Definition disposeModel (model : option Model) : option Model :=
  match model with
  | Some _ => None
  | None => model
  end.

End WithModel.

End Classifier.

(** ** The page component *)

Module Page.

Section WithCatalog.

Context {N : Type} `{Number N}.

(** The catalog [products] imported from [@/data/products]. *)
Variable products : list (Product N).

(** The state of the component that the handlers below read and write.
    The flags [isProcessing] and [modelLoaded], which only the rendering
    reads, are left out. *)
Record State : Type := {
  selectedImage : option string;
  predictions : list (Prediction N);
  displayedProducts : list (Product N);
  searchQuery : string;
  selectedCategory : string
}.

(** The state of the first render. *)
Definition initial : State :=
  {| selectedImage := None;
     predictions := [];
     displayedProducts := slice0 products 50;
     searchQuery := "";
     selectedCategory := "all" |}.

(** The three steps shared by [handleSearch] and [handleCategoryChange]:
    the prediction filter when there are predictions, the search filter
    when the query is not empty, the category filter when the category is
    not "all". *)
Definition applyFilters (preds : list (Prediction N)) (query cat : string)
  : list (Product N) :=
  let filtered := products in
  let filtered :=
    if 0 <? List.length preds then findMatchingProducts preds products 50
    else filtered in
  let filtered :=
    if negb (isEmpty query) then filterProducts filtered query
    else filtered in
  let filtered :=
    if negb (String.eqb cat "all") then filterByCategory filtered cat
    else filtered in
  filtered.

(** [handleSearch]: the new query, with the predictions and the category of
    the state. *)
Definition handleSearch (query : string) (st : State) : State :=
  {| selectedImage := selectedImage st;
     predictions := predictions st;
     displayedProducts :=
       applyFilters (predictions st) query (selectedCategory st);
     searchQuery := query;
     selectedCategory := selectedCategory st |}.

(** [handleCategoryChange]: the new category, with the predictions and the
    query of the state. *)
Definition handleCategoryChange (cat : string) (st : State) : State :=
  {| selectedImage := selectedImage st;
     predictions := predictions st;
     displayedProducts := applyFilters (predictions st) (searchQuery st) cat;
     searchQuery := searchQuery st;
     selectedCategory := cat |}.

(** The first update of [handleImageUpload], when the file is read: the
    image is shown. *)
Definition imageLoaded (imageUrl : string) (st : State) : State :=
  {| selectedImage := Some imageUrl;
     predictions := predictions st;
     displayedProducts := displayedProducts st;
     searchQuery := searchQuery st;
     selectedCategory := selectedCategory st |}.

(** The updates of [handleImageUpload] once the image is classified: the
    predictions are stored and the matched products are shown.  When the
    classification throws, nothing is updated. *)
Definition classified (preds : list (Prediction N)) (st : State) : State :=
  {| selectedImage := selectedImage st;
     predictions := preds;
     displayedProducts := findMatchingProducts preds products 50;
     searchQuery := searchQuery st;
     selectedCategory := selectedCategory st |}.

(** [handleReset]. *)
Definition handleReset (st : State) : State :=
  {| selectedImage := None;
     predictions := [];
     displayedProducts := slice0 products 50;
     searchQuery := "";
     selectedCategory := "all" |}.

(** The events of the page, and the state after a sequence of them. *)
Inductive Event : Type :=
| Search (query : string)
| CategoryChange (cat : string)
| ImageLoaded (imageUrl : string)
| Classified (preds : list (Prediction N))
| Reset.

Definition step (st : State) (ev : Event) : State :=
  match ev with
  | Search query => handleSearch query st
  | CategoryChange cat => handleCategoryChange cat st
  | ImageLoaded imageUrl => imageLoaded imageUrl st
  | Classified preds => classified preds st
  | Reset => handleReset st
  end.

Definition run (events : list Event) : State := fold_left step events initial.

End WithCatalog.

End Page.

(** ** Sample surroundings of the classifier *)

Module SampleEnv.

Import Sample.

(** A browser in which both libraries are loaded, and a model that finds
    the name of the image as its only label. *)
Definition browser : Classifier.Env (N := float) (Model := nat)
                       (Image := string) :=
  {| Classifier.windowDefined := true;
     Classifier.tfAvailable := true;
     Classifier.mobilenetAvailable := true;
     Classifier.tfReady := None;
     Classifier.load := inr (Some 0);
     Classifier.classify := fun _ img => inr [mkPrediction img half] |}.

(** The server, where [window] is not defined. *)
Definition server : Classifier.Env (N := float) (Model := nat)
                      (Image := string) :=
  {| Classifier.windowDefined := false;
     Classifier.tfAvailable := false;
     Classifier.mobilenetAvailable := false;
     Classifier.tfReady := None;
     Classifier.load := inr None;
     Classifier.classify := fun _ _ => inl "no model" |}.

End SampleEnv.

(** * Properties *)

(** ** The comparisons of the two number instances *)

Lemma compare_cont_swap (p q : positive) :
  PosDef.Pos.compare_cont Eq q p = CompOpp (PosDef.Pos.compare_cont Eq p q).
Proof. exact (Pos.compare_antisym p q). Qed.

Lemma SFcompare_Lt_Gt (a b : spec_float) :
  SFcompare a b = Some Lt -> SFcompare b a = Some Gt.
Proof.
  destruct a as [[|]|[|]| |[|] ma ea]; destruct b as [[|]|[|]| |[|] mb eb];
    simpl; try congruence;
    rewrite (Z.compare_antisym ea eb);
    destruct (ea ?= eb)%Z eqn:E; simpl; try congruence;
    rewrite (compare_cont_swap ma mb);
    destruct (PosDef.Pos.compare_cont Eq ma mb); simpl; congruence.
Qed.

Lemma float_ltb_not_leb (x y : float) :
  PrimFloat.ltb x y = true -> PrimFloat.leb y x = false.
Proof.
  rewrite ltb_spec, leb_spec. unfold SFltb, SFleb.
  destruct (SFcompare (Prim2SF x) (Prim2SF y)) as [[| |]|] eqn:E; try discriminate.
  intros _. now rewrite (SFcompare_Lt_Gt _ _ E).
Qed.

#[export] Instance Float64Laws : NumberLaws float.
Proof.
  split.
  - vm_compute. reflexivity.
  - intros x y. simpl. apply float_ltb_not_leb.
Qed.

#[export] Instance ExactLaws : NumberLaws Q.
Proof.
  split.
  - reflexivity.
  - intros x y. simpl. now destruct (Qle_bool y x).
Qed.

(** ** Arrays *)

Section ArrayFacts.

Context {A St : Type}.

Lemma forEach_nil (f : A -> St -> St) (st : St) : forEach f [] st = st.
Proof. reflexivity. Qed.

Lemma forEach_cons (f : A -> St -> St) (x : A) (l : list A) (st : St) :
  forEach f (x :: l) st = forEach f l (f x st).
Proof. reflexivity. Qed.

Lemma forEach_app (f : A -> St -> St) (l1 l2 : list A) (st : St) :
  forEach f (l1 ++ l2) st = forEach f l2 (forEach f l1 st).
Proof. unfold forEach. apply fold_left_app. Qed.

(** A loop whose body changes nothing changes nothing. *)
Lemma forEach_id (f : A -> St -> St) (l : list A) (st : St) :
  (forall x s, f x s = s) -> forEach f l st = st.
Proof.
  intros Hf. revert st. induction l as [|x l IH]; intros st.
  - reflexivity.
  - rewrite forEach_cons, Hf. apply IH.
Qed.

Lemma slice0_nonneg (l : list A) (e : Z) :
  (0 <= e)%Z ->
  slice0 l e = firstn (Z.to_nat (Z.min e (Z.of_nat (List.length l)))) l.
Proof.
  intros He. unfold slice0.
  destruct (e <? 0)%Z eqn:E; [apply Z.ltb_lt in E; lia | reflexivity].
Qed.

Lemma slice0_length_le (l : list A) (e : Z) :
  (0 <= e)%Z -> (Z.of_nat (List.length (slice0 l e)) <= e)%Z.
Proof.
  intros He. rewrite slice0_nonneg by assumption.
  rewrite length_firstn. lia.
Qed.

Lemma In_firstn (n : nat) (l : list A) (x : A) :
  In x (firstn n l) -> In x l.
Proof.
  revert l. induction n as [|n IH]; intros [|y l]; simpl; try tauto.
  intros [E|Hin]; [now left | right; now apply IH].
Qed.

Lemma slice0_In (l : list A) (e : Z) (x : A) :
  In x (slice0 l e) -> In x l.
Proof. unfold slice0. apply In_firstn. Qed.

End ArrayFacts.

Section SortFacts.

Context {N : Type} `{Number N}.

Lemma sortInsert_In (cmp : MatchScore N -> MatchScore N -> N)
    (x y : MatchScore N) (l : list (MatchScore N)) :
  In y (sortInsert cmp x l) <-> y = x \/ In y l.
Proof.
  induction l as [|z l IH]; simpl.
  - intuition congruence.
  - destruct (ngtb (cmp x z) (lit 0)); simpl; rewrite ?IH; intuition congruence.
Qed.

(** Sorting keeps the elements. *)
Lemma sortBy_In (cmp : MatchScore N -> MatchScore N -> N) (y : MatchScore N)
    (l : list (MatchScore N)) :
  In y (sortBy cmp l) <-> In y l.
Proof.
  induction l as [|x l IH]; simpl.
  - tauto.
  - rewrite sortInsert_In, IH. intuition congruence.
Qed.

Lemma sortInsert_length (cmp : MatchScore N -> MatchScore N -> N)
    (x : MatchScore N) (l : list (MatchScore N)) :
  List.length (sortInsert cmp x l) = S (List.length l).
Proof.
  induction l as [|z l IH]; simpl; [reflexivity|].
  destruct (ngtb (cmp x z) (lit 0)); simpl; congruence.
Qed.

Lemma sortBy_length (cmp : MatchScore N -> MatchScore N -> N)
    (l : list (MatchScore N)) :
  List.length (sortBy cmp l) = List.length l.
Proof.
  induction l as [|x l IH]; simpl; [reflexivity|].
  now rewrite sortInsert_length, IH.
Qed.

End SortFacts.

(** ** The score as a sum of contributions *)

Section ScoreFacts.

Context {N : Type} `{Number N}.

Lemma rankMultiplier_rankWeight (r : nat) :
  rankMultiplier r = lit (rankWeight r).
Proof. destruct r as [|[|[|r]]]; reflexivity. Qed.

(** A loop whose body adds the numbers [c x] to the score adds them all, in
    order. *)
Lemma forEach_adds {A : Type} (f : A -> Acc N -> Acc N) (c : A -> list N)
    (l : list A) (st : Acc N) :
  (forall x s, accScore (f x s) = fold_left nadd (c x) (accScore s)) ->
  accScore (forEach f l st) = fold_left nadd (flat_map c l) (accScore st).
Proof.
  intros Hf. revert st. induction l as [|x l IH]; intros st.
  - reflexivity.
  - rewrite forEach_cons, IH, Hf. simpl. now rewrite fold_left_app.
Qed.

Lemma tagStep_adds (tag tagWord : string) (pw : PredictionWord N)
    (st : Acc N) :
  accScore (tagStep tag tagWord pw st)
  = fold_left nadd (pairContributions 100 10 tagWord pw) (accScore st).
Proof.
  unfold tagStep, pairContributions, contribution.
  rewrite rankMultiplier_rankWeight.
  destruct (matchKind tagWord (word pw)); reflexivity.
Qed.

Lemma nameStep_adds (nameWord : string) (pw : PredictionWord N)
    (st : Acc N) :
  accScore (nameStep nameWord pw st)
  = fold_left nadd (pairContributions 150 15 nameWord pw) (accScore st).
Proof.
  unfold nameStep, pairContributions, contribution.
  rewrite rankMultiplier_rankWeight.
  destruct (matchKind nameWord (word pw)); reflexivity.
Qed.

Lemma categoryStep_adds (cat : string) (pw : PredictionWord N) (st : Acc N) :
  accScore (categoryStep cat pw st)
  = fold_left nadd (categoryContributions cat pw) (accScore st).
Proof.
  unfold categoryStep, categoryContributions, contribution.
  rewrite rankMultiplier_rankWeight.
  destruct (includes (toLowerCase cat) (word pw)
            || includes (word pw) (toLowerCase cat)); reflexivity.
Qed.

Lemma scoreTags_adds (index : list (PredictionWord N)) (tgs : list string)
    (st : Acc N) :
  accScore (scoreTags index tgs st)
  = fold_left nadd
      (flat_map
         (fun tag =>
            flat_map (fun tw => flat_map (pairContributions 100 10 tw) index)
                     (tokenizeClassName tag)) tgs)
      (accScore st).
Proof.
  unfold scoreTags. apply forEach_adds. intros tag s.
  apply forEach_adds. intros tw s'.
  apply forEach_adds. intros pw s''. apply tagStep_adds.
Qed.

Lemma scoreName_adds (index : list (PredictionWord N)) (nm : string)
    (st : Acc N) :
  accScore (scoreName index nm st)
  = fold_left nadd
      (flat_map (fun nw => flat_map (pairContributions 150 15 nw) index)
                (tokenizeClassName nm))
      (accScore st).
Proof.
  unfold scoreName. apply forEach_adds. intros nw s.
  apply forEach_adds. intros pw s'. apply nameStep_adds.
Qed.

Lemma scoreCategory_adds (index : list (PredictionWord N)) (cat : string)
    (st : Acc N) :
  accScore (scoreCategory index cat st)
  = fold_left nadd (flat_map (categoryContributions cat) index) (accScore st).
Proof.
  unfold scoreCategory. apply forEach_adds. intros pw s.
  apply categoryStep_adds.
Qed.

(** The score of a product is the sum, from left to right and starting at
    0, of its contributions. *)
Lemma score_is_sum (predictions : list (Prediction N)) (p : Product N) :
  score (calculateSimilarity predictions p)
  = fold_left nadd (contributions (buildPredictionWords predictions) p) (lit 0).
Proof.
  unfold calculateSimilarity, contributions. cbn [score].
  rewrite scoreCategory_adds, scoreName_adds, scoreTags_adds.
  rewrite !fold_left_app. reflexivity.
Qed.

Lemma product_calculateSimilarity (predictions : list (Prediction N))
    (p : Product N) :
  product (calculateSimilarity predictions p) = p.
Proof. reflexivity. Qed.

Lemma flat_map_all_nil {A B : Type} (f : A -> list B) (l : list A) :
  (forall x, f x = []) -> flat_map f l = [].
Proof.
  intros Hf. induction l as [|x l IH]; simpl; [reflexivity|].
  now rewrite Hf, IH.
Qed.

Lemma contributions_empty_index (p : Product N) : contributions [] p = [].
Proof.
  unfold contributions. simpl.
  rewrite !flat_map_all_nil; try reflexivity.
  intros tag. now apply flat_map_all_nil.
Qed.

(** Without predictions every product scores 0. *)
Lemma score_no_predictions (p : Product N) :
  score (calculateSimilarity [] p) = lit 0.
Proof.
  rewrite score_is_sum.
  change (buildPredictionWords []) with (@nil (PredictionWord N)).
  now rewrite contributions_empty_index.
Qed.

End ScoreFacts.

(** ** Ranking: fallback, threshold and limit *)

Section RankingFacts.

Context {N : Type} `{NumberLaws N}.

Lemma rankedProducts_no_predictions (catalog : list (Product N)) (limit : Z) :
  rankedProducts [] catalog limit = [].
Proof.
  unfold rankedProducts.
  replace (filter (fun item => ngeb (score item) (lit 100))
                  (map (calculateSimilarity []) catalog))
    with (@nil (MatchScore N)).
  { unfold slice0. simpl. now rewrite firstn_nil. }
  induction catalog as [|p catalog IH]; cbn [map filter]; [reflexivity|].
  rewrite score_no_predictions, geb_0_100. exact IH.
Qed.

(** C1, as amended: for every catalog and every integer limit that is not
    negative, [findMatchingProducts] with an empty prediction list returns
    the first [min(limit, |catalog|)] items of the catalog in their original
    order. *)
Theorem fallback_on_no_predictions (catalog : list (Product N)) (limit : Z) :
  (0 <= limit)%Z ->
  findMatchingProducts [] catalog limit
  = firstn (Z.to_nat (Z.min limit (Z.of_nat (List.length catalog)))) catalog.
Proof.
  intros Hlimit. unfold findMatchingProducts.
  rewrite rankedProducts_no_predictions. simpl.
  now apply slice0_nonneg.
Qed.

Lemma rankedProducts_In (predictions : list (Prediction N))
    (catalog : list (Product N)) (limit : Z) (p : Product N) :
  In p (rankedProducts predictions catalog limit) ->
  In p catalog /\ ngeb (score (calculateSimilarity predictions p)) (lit 100) = true.
Proof.
  unfold rankedProducts. intros Hin.
  apply in_map_iff in Hin. destruct Hin as [item [Hp Hin]].
  apply slice0_In, sortBy_In, filter_In in Hin. destruct Hin as [Hin _].
  apply sortBy_In, filter_In in Hin. destruct Hin as [Hin Hge].
  apply in_map_iff in Hin. destruct Hin as [q [Hq Hcat]].
  subst item. rewrite product_calculateSimilarity in Hp. subst q.
  now split.
Qed.

(** C2: whenever [findMatchingProducts] returns a ranked (non-fallback)
    result, every returned item has a similarity score of at least 100, and
    an item whose score is below 100 does not appear in it. *)
Theorem ranked_results_score_at_least_100
    (predictions : list (Prediction N)) (catalog : list (Product N))
    (limit : Z) :
  rankedProducts predictions catalog limit <> [] ->
  (forall p, In p (findMatchingProducts predictions catalog limit) ->
             ngeb (score (calculateSimilarity predictions p)) (lit 100) = true)
  /\ (forall p, nltb (score (calculateSimilarity predictions p)) (lit 100) = true ->
                ~ In p (findMatchingProducts predictions catalog limit)).
Proof.
  intros Hranked.
  assert (Hres : findMatchingProducts predictions catalog limit
                 = rankedProducts predictions catalog limit).
  { unfold findMatchingProducts.
    destruct (rankedProducts predictions catalog limit) as [|q l];
      [congruence | reflexivity]. }
  rewrite Hres. split.
  - intros p Hin. now apply rankedProducts_In in Hin.
  - intros p Hlt Hin. apply rankedProducts_In in Hin. destruct Hin as [_ Hge].
    apply ltb_not_geb in Hlt. congruence.
Qed.

End RankingFacts.

Section LimitFacts.

Context {N : Type} `{Number N}.

(** C9, as amended: for every prediction list, every catalog and every
    integer limit that is not negative, [findMatchingProducts] returns at
    most [limit] items, on the ranked path and on the fallback path. *)
Theorem result_length_at_most_limit (predictions : list (Prediction N))
    (catalog : list (Product N)) (limit : Z) :
  (0 <= limit)%Z ->
  (Z.of_nat (List.length (findMatchingProducts predictions catalog limit))
   <= limit)%Z.
Proof.
  intros Hlimit. unfold findMatchingProducts.
  destruct (List.length (rankedProducts predictions catalog limit) =? 0).
  - now apply slice0_length_le.
  - unfold rankedProducts. rewrite length_map. now apply slice0_length_le.
Qed.

(** C8, as amended: [filterByCategory] returns its input unchanged when the
    category is the sentinel "all" or the empty string, and otherwise
    exactly the products whose category equals the given one, in order. *)
Theorem filterByCategory_spec (products : list (Product N)) (cat : string) :
  (cat = "all" \/ cat = "" -> filterByCategory products cat = products)
  /\ (cat <> "all" -> cat <> "" ->
      filterByCategory products cat
      = filter (fun p => String.eqb (category p) cat) products
      /\ forall p, In p (filterByCategory products cat)
                   <-> In p products /\ category p = cat).
Proof.
  unfold filterByCategory. split.
  - intros [E|E]; subst cat; reflexivity.
  - intros Hall Hempty.
    destruct cat as [|c cat']; [congruence|]. cbn [isEmpty orb].
    destruct (String.eqb (String c cat') "all") eqn:E;
      [apply String.eqb_eq in E; congruence|].
    split; [reflexivity|].
    intros p. rewrite filter_In, String.eqb_eq. tauto.
Qed.

End LimitFacts.

(** ** The prediction index *)

Section IndexFacts.

Context {N : Type} `{Number N}.

Lemma pushWords_spec (pred : Prediction N) (index : nat)
    (acc : list (PredictionWord N)) :
  pushWords pred index acc = acc ++ specEntries index pred.
Proof.
  unfold pushWords, specEntries.
  generalize (tokenizeClassName (className pred)) as ws.
  intros ws. revert acc. induction ws as [|w ws IH]; intros acc.
  - simpl. now rewrite app_nil_r.
  - rewrite forEach_cons, IH. cbn [filter].
    destruct (2 <? String.length w); cbn [map].
    + now rewrite <- app_assoc.
    + reflexivity.
Qed.

Lemma forEachFrom_pushWords (predictions : list (Prediction N)) (i : nat)
    (acc : list (PredictionWord N)) :
  forEachFrom pushWords predictions i acc
  = acc ++ flat_map (fun rp => specEntries (fst rp) (snd rp))
                    (combine (seq i (List.length predictions)) predictions).
Proof.
  revert i acc. induction predictions as [|pred predictions IH]; intros i acc.
  - simpl. now rewrite app_nil_r.
  - cbn [forEachFrom List.length seq combine flat_map fst snd].
    rewrite IH, pushWords_spec. now rewrite <- app_assoc.
Qed.

Lemma buildPredictionWords_specIndex (predictions : list (Prediction N)) :
  buildPredictionWords predictions = specIndex predictions.
Proof. unfold buildPredictionWords. now rewrite forEachFrom_pushWords. Qed.

Lemma specEntries_same_rank (r : nat) (pred : Prediction N) :
  filter (fun e => rank e =? r) (specEntries r pred) = specEntries r pred.
Proof.
  unfold specEntries.
  induction (filter (fun w => 2 <? String.length w)
                    (tokenizeClassName (className pred))) as [|w ws IH].
  - reflexivity.
  - cbn [map filter rank]. rewrite Nat.eqb_refl. now f_equal.
Qed.

Lemma specEntries_other_rank (r i : nat) (pred : Prediction N) :
  i <> r -> filter (fun e => rank e =? r) (specEntries i pred) = [].
Proof.
  intros Hne. unfold specEntries.
  induction (filter (fun w => 2 <? String.length w)
                    (tokenizeClassName (className pred))) as [|w ws IH].
  - reflexivity.
  - cbn [map filter rank].
    destruct (i =? r) eqn:E; [apply Nat.eqb_eq in E; contradiction | exact IH].
Qed.

Lemma filter_rank_from (predictions : list (Prediction N)) (i r : nat) :
  filter (fun e => rank e =? r)
         (flat_map (fun rp => specEntries (fst rp) (snd rp))
                   (combine (seq i (List.length predictions)) predictions))
  = if i <=? r then
      match nth_error predictions (r - i) with
      | Some pred => specEntries r pred
      | None => []
      end
    else [].
Proof.
  revert i. induction predictions as [|pred predictions IH]; intros i.
  - simpl. destruct (i <=? r); [|reflexivity].
    now destruct (r - i).
  - cbn [List.length seq combine flat_map fst snd].
    rewrite filter_app, IH.
    destruct (Nat.eq_dec i r) as [E|E].
    + subst i. rewrite specEntries_same_rank, Nat.leb_refl, Nat.sub_diag.
      cbn [nth_error].
      destruct (S r <=? r) eqn:E; [apply Nat.leb_le in E; lia|].
      now rewrite app_nil_r.
    + rewrite specEntries_other_rank by assumption. cbn [app].
      destruct (i <=? r) eqn:Eir.
      * apply Nat.leb_le in Eir.
        assert (Hs : (S i <=? r) = true) by (apply Nat.leb_le; lia).
        rewrite Hs. replace (r - i) with (S (r - S i)) by lia. reflexivity.
      * apply Nat.leb_gt in Eir.
        assert (Hs : (S i <=? r) = false) by (apply Nat.leb_gt; lia).
        now rewrite Hs.
Qed.

Lemma specEntries_long (r : nat) (pred : Prediction N) :
  forallb (fun e => 2 <? String.length (word e)) (specEntries r pred) = true.
Proof.
  unfold specEntries.
  induction (tokenizeClassName (className pred)) as [|w ws IH].
  - reflexivity.
  - cbn [filter]. destruct (2 <? String.length w) eqn:E; [|exact IH].
    cbn [map forallb word]. now rewrite E, IH.
Qed.

(** C7: the prediction index holds, for each prediction at 0-based position
    [r] of the input, exactly one entry per token of its tokenized label
    longer than 2 characters, in order, with that prediction's probability
    and the rank [r]; no entry has a token of 2 characters or less. *)
Theorem prediction_index_spec (predictions : list (Prediction N)) :
  buildPredictionWords predictions = specIndex predictions
  /\ (forall r,
        filter (fun e => rank e =? r) (buildPredictionWords predictions)
        = match nth_error predictions r with
          | Some pred =>
              map (fun w => {| word := w; wprobability := probability pred;
                               rank := r |})
                  (filter (fun w => 2 <? String.length w)
                          (tokenizeClassName (className pred)))
          | None => []
          end)
  /\ forallb (fun e => 2 <? String.length (word e))
             (buildPredictionWords predictions) = true.
Proof.
  split; [apply buildPredictionWords_specIndex|]. split.
  - intros r. rewrite buildPredictionWords_specIndex. unfold specIndex.
    rewrite filter_rank_from. cbn [Nat.leb]. now rewrite Nat.sub_0_r.
  - rewrite buildPredictionWords_specIndex. unfold specIndex.
    apply forallb_forall. intros e He.
    apply in_flat_map in He. destruct He as [[r pred] [_ He]].
    exact (proj1 (forallb_forall _ _) (specEntries_long r pred) e He).
Qed.

(** C3: in [calculateSimilarity] a matching pair of a field word and an
    index entry adds [base * confidence * rankWeight(rank)] to the score,
    where [rankWeight] is 5, 4, 3 for the ranks 0, 1, 2 and 2 otherwise, and
    [base] is 100 (tag, exact), 10 (tag, partial), 150 (name, exact), 15
    (name, partial) and 5 (category, by containment only); the score is the
    sum of these contributions. *)
Theorem pair_contribution_formula (tag fieldWord cat : string)
    (pw : PredictionWord N) (st : Acc N) :
  let c := fun base : Z =>
             nmul (nmul (lit base) (wprobability pw))
                  (lit (match rank pw with
                        | 0 => 5%Z | 1 => 4%Z | 2 => 3%Z | _ => 2%Z
                        end)) in
  accScore (tagStep tag fieldWord pw st)
  = match matchKind fieldWord (word pw) with
    | ExactMatch => nadd (accScore st) (c 100%Z)
    | PartialMatch => nadd (accScore st) (c 10%Z)
    | NoMatch => accScore st
    end
  /\ accScore (nameStep fieldWord pw st)
     = match matchKind fieldWord (word pw) with
       | ExactMatch => nadd (accScore st) (c 150%Z)
       | PartialMatch => nadd (accScore st) (c 15%Z)
       | NoMatch => accScore st
       end
  /\ accScore (categoryStep cat pw st)
     = (if includes (toLowerCase cat) (word pw)
           || includes (word pw) (toLowerCase cat)
        then nadd (accScore st) (c 5%Z) else accScore st)
  /\ forall predictions p,
       score (calculateSimilarity predictions p)
       = fold_left nadd (contributions (buildPredictionWords predictions) p)
                   (lit 0).
Proof.
  intros c. subst c. cbv beta.
  change (match rank pw with 0 => 5%Z | 1 => 4%Z | 2 => 3%Z | _ => 2%Z end)
    with (rankWeight (rank pw)).
  rewrite tagStep_adds, nameStep_adds, categoryStep_adds.
  unfold pairContributions, categoryContributions, contribution.
  repeat split.
  - destruct (matchKind fieldWord (word pw)); reflexivity.
  - destruct (matchKind fieldWord (word pw)); reflexivity.
  - destruct (includes (toLowerCase cat) (word pw)
              || includes (word pw) (toLowerCase cat)); reflexivity.
  - apply score_is_sum.
Qed.

End IndexFacts.

(** ** Strings *)

Section StringFacts.

Local Open Scope string_scope.

Lemma append_nil_r (s : string) : s ++ "" = s.
Proof. induction s as [|c s IH]; simpl; congruence. Qed.

Lemma append_assoc (a b c : string) : (a ++ b) ++ c = a ++ b ++ c.
Proof. induction a as [|x a IH]; simpl; congruence. Qed.

Lemma startsWith_spec (p s : string) :
  startsWith p s = true <-> exists r, s = p ++ r.
Proof.
  revert s. induction p as [|a p IH]; intros s.
  - simpl. split; [intros _; now exists s | reflexivity].
  - destruct s as [|b s]; simpl.
    + split; [discriminate | intros [r Hr]; discriminate].
    + rewrite andb_true_iff, Ascii.eqb_eq, IH. split.
      * intros [-> [r ->]]. now exists r.
      * intros [r Hr]. injection Hr as -> ->. split; [reflexivity | now exists r].
Qed.

Lemma includes_unfold (s sub : string) :
  includes s sub
  = startsWith sub s
    || match s with
       | EmptyString => false
       | String _ s' => includes s' sub
       end.
Proof. now destruct s. Qed.

(** [includes] decides containment. *)
Lemma includes_spec (s sub : string) :
  includes s sub = true <-> contains s sub.
Proof.
  unfold contains. split.
  - induction s as [|c s IH]; simpl; rewrite orb_true_iff.
    + intros [Hp|Hf]; [|discriminate].
      apply startsWith_spec in Hp. destruct Hp as [r Hr]. now exists "", r.
    + intros [Hp|Hi].
      * apply startsWith_spec in Hp. destruct Hp as [r Hr]. now exists "", r.
      * destruct (IH Hi) as [l [r Hr]]. exists (String c l), r.
        simpl. now rewrite Hr.
  - intros [l [r Hs]]. subst s. induction l as [|c l IH].
    + assert (Hp : startsWith sub (sub ++ r) = true)
        by (apply startsWith_spec; now exists r).
      change ("" ++ sub ++ r) with (sub ++ r).
      rewrite includes_unfold. now rewrite Hp.
    + simpl. rewrite IH. apply orb_true_r.
Qed.

Lemma isWhiteSpace_isSeparator (c : ascii) :
  isWhiteSpace c = true -> isSeparator c = true.
Proof. unfold isSeparator. now intros ->. Qed.

Lemma isWhiteSpace_lowerChar (c : ascii) :
  isWhiteSpace (lowerChar c) = isWhiteSpace c.
Proof. destruct c as [[] [] [] [] [] [] [] []]; reflexivity. Qed.

Lemma isSeparator_lowerChar (c : ascii) :
  isSeparator (lowerChar c) = isSeparator c.
Proof. destruct c as [[] [] [] [] [] [] [] []]; reflexivity. Qed.

Lemma toLowerCase_append (a b : string) :
  toLowerCase (a ++ b) = toLowerCase a ++ toLowerCase b.
Proof. induction a as [|c a IH]; simpl; congruence. Qed.

Lemma allWhiteSpace_toLowerCase (s : string) :
  allWhiteSpace (toLowerCase s) = allWhiteSpace s.
Proof.
  induction s as [|c s IH]; simpl; [reflexivity|].
  now rewrite isWhiteSpace_lowerChar, IH.
Qed.

Lemma noSeparator_toLowerCase (s : string) :
  noSeparator (toLowerCase s) = noSeparator s.
Proof.
  induction s as [|c s IH]; simpl; [reflexivity|].
  now rewrite isSeparator_lowerChar, IH.
Qed.

Lemma toLowerCase_isEmpty (s : string) :
  isEmpty (toLowerCase s) = isEmpty s.
Proof. now destruct s. Qed.

(** A string is white space, then its trimmed part, then white space. *)
Lemma trimStart_decomp (s : string) :
  exists ws, allWhiteSpace ws = true /\ s = ws ++ trimStart s.
Proof.
  induction s as [|c s [ws [Hws Hs]]].
  - now exists "".
  - simpl. destruct (isWhiteSpace c) eqn:E.
    + exists (String c ws). simpl. rewrite E, Hws. split; [reflexivity|].
      now rewrite <- Hs.
    + now exists "".
Qed.

Lemma trimEnd_decomp (s : string) :
  exists ws, allWhiteSpace ws = true /\ s = trimEnd s ++ ws.
Proof.
  induction s as [|c s [ws [Hws Hs]]].
  - now exists "".
  - simpl. destruct (isWhiteSpace c && isEmpty (trimEnd s)) eqn:E.
    + apply andb_true_iff in E. destruct E as [Ec Ee].
      exists (String c ws). simpl. rewrite Ec, Hws. split; [reflexivity|].
      destruct (trimEnd s); [|discriminate]. simpl in Hs. now rewrite <- Hs.
    + exists ws. split; [assumption|]. simpl. now rewrite <- Hs.
Qed.

Lemma trim_decomp (s : string) :
  exists ws1 ws2,
    allWhiteSpace ws1 = true /\ allWhiteSpace ws2 = true
    /\ s = ws1 ++ trim s ++ ws2.
Proof.
  destruct (trimStart_decomp s) as [ws1 [H1 Hs]].
  destruct (trimEnd_decomp (trimStart s)) as [ws2 [H2 Ht]].
  exists ws1, ws2. unfold trim. repeat split; try assumption.
  now rewrite <- Ht.
Qed.

Lemma trim_noSeparator (t : string) : noSeparator t = true -> trim t = t.
Proof.
  intros Ht. unfold trim.
  assert (Hs : trimStart t = t).
  { destruct t as [|c t]; [reflexivity|]. simpl in *.
    apply andb_true_iff in Ht. destruct Ht as [Hc _].
    unfold isSeparator in Hc. apply negb_true_iff, orb_false_iff in Hc.
    now rewrite (proj1 Hc). }
  rewrite Hs. clear Hs. induction t as [|c t IH]; [reflexivity|].
  simpl in *. apply andb_true_iff in Ht. destruct Ht as [Hc Ht].
  unfold isSeparator in Hc. apply negb_true_iff, orb_false_iff in Hc.
  rewrite (proj1 Hc), IH by assumption. reflexivity.
Qed.

End StringFacts.

(** ** The tokenizer on a single word *)

Section TokenizerFacts.

Local Open Scope string_scope.

Lemma splitAux_white_inside (ws rest : string) :
  allWhiteSpace ws = true ->
  splitAux (ws ++ rest) "" true = splitAux rest "" true.
Proof.
  induction ws as [|c ws IH]; simpl; [reflexivity|].
  intros Hws. apply andb_true_iff in Hws. destruct Hws as [Hc Hws].
  rewrite (isWhiteSpace_isSeparator c Hc). now apply IH.
Qed.

Lemma splitAux_white_first (c : ascii) (ws rest cur : string) :
  allWhiteSpace (String c ws) = true ->
  splitAux (String c ws ++ rest) cur false = cur :: splitAux rest "" true.
Proof.
  simpl. intros Hws. apply andb_true_iff in Hws. destruct Hws as [Hc Hws].
  rewrite (isWhiteSpace_isSeparator c Hc). f_equal.
  now apply splitAux_white_inside.
Qed.

Lemma splitAux_word (t rest cur : string) (b : bool) :
  noSeparator t = true -> t <> "" ->
  splitAux (t ++ rest) cur b = splitAux rest (cur ++ t) false.
Proof.
  revert cur b. induction t as [|c t IH]; intros cur b Ht Hne; [congruence|].
  simpl in Ht. apply andb_true_iff in Ht. destruct Ht as [Hc Ht].
  apply negb_true_iff in Hc. simpl. rewrite Hc.
  destruct t as [|d t].
  - reflexivity.
  - rewrite IH by (assumption || discriminate).
    now rewrite append_assoc.
Qed.

Lemma splitAux_white_last (ws cur : string) :
  allWhiteSpace ws = true ->
  splitAux ws cur false = if isEmpty ws then [cur] else [cur; ""].
Proof.
  destruct ws as [|c ws]; [reflexivity|]. intros Hws.
  rewrite <- (append_nil_r (String c ws)).
  now rewrite splitAux_white_first.
Qed.

(** The words of a string that is one word between white space. *)
Lemma parts_single_word (ws1 t ws2 : string) :
  allWhiteSpace ws1 = true -> allWhiteSpace ws2 = true ->
  noSeparator t = true -> t <> "" ->
  filter (fun s => negb (isEmpty s)) (map trim (split (ws1 ++ t ++ ws2)))
  = [t].
Proof.
  intros H1 H2 Ht Hne. unfold split.
  assert (Hkeep : negb (isEmpty t) = true) by (destruct t; [congruence | reflexivity]).
  assert (Htail : forall b,
             filter (fun s => negb (isEmpty s))
                    (map trim (splitAux (t ++ ws2) "" b)) = [t]).
  { intros b. rewrite splitAux_word by assumption. cbn [append].
    rewrite splitAux_white_last by assumption.
    destruct (isEmpty ws2); cbn [map filter];
      rewrite (trim_noSeparator t Ht), Hkeep; reflexivity. }
  destruct ws1 as [|c ws1].
  - apply Htail.
  - rewrite splitAux_white_first by assumption.
    cbn [map filter]. change (trim "") with "". cbn [isEmpty negb].
    apply Htail.
Qed.

Lemma tokenize_single_word (s : string) :
  trim s <> "" -> noSeparator (trim s) = true ->
  tokenizeClassName s = [toLowerCase (trim s); toLowerCase (trim s)].
Proof.
  intros Hne Hsep. unfold tokenizeClassName. f_equal.
  destruct (trim_decomp s) as [ws1 [ws2 [H1 [H2 Hs]]]].
  rewrite Hs at 1. rewrite !toLowerCase_append.
  apply parts_single_word.
  - now rewrite allWhiteSpace_toLowerCase.
  - now rewrite allWhiteSpace_toLowerCase.
  - now rewrite noSeparator_toLowerCase.
  - destruct (trim s); [congruence | discriminate].
Qed.

Lemma matchKind_refl (w : string) : matchKind w w = ExactMatch.
Proof. unfold matchKind. now rewrite String.eqb_refl. Qed.

End TokenizerFacts.

Section GateFacts.

Context {N : Type} `{Number N}.

Lemma matchKind_partial_iff (fieldWord predWord : string) :
  matchKind fieldWord predWord = PartialMatch
  <-> (contains fieldWord predWord \/ contains predWord fieldWord)
      /\ fieldWord <> predWord
      /\ 3 < String.length fieldWord /\ 3 < String.length predWord.
Proof.
  unfold matchKind. rewrite <- !includes_spec.
  destruct (String.eqb_spec fieldWord predWord) as [E|E].
  - split; [discriminate | tauto].
  - destruct (includes fieldWord predWord || includes predWord fieldWord) eqn:Ei;
      destruct (3 <? String.length fieldWord) eqn:E1;
      destruct (3 <? String.length predWord) eqn:E2; simpl;
      rewrite ?Nat.ltb_lt, ?Nat.ltb_ge in *;
      apply orb_prop in Ei || apply orb_false_elim in Ei;
      (split; [try discriminate; intros _ | try reflexivity; intros [Hc [_ [Ha Hb]]]]);
      try lia; try (repeat split; tauto); try (destruct Ei; destruct Hc; congruence).
Qed.

(** C6: a partial match between a word of a field and a word of a prediction
    adds its contribution exactly when one word contains the other, the two
    words differ and both are longer than 3 characters; the gate is the same
    for the tags (base 10) and for the name (base 15), and a pair that is
    neither equal nor through the gate leaves the score unchanged. *)
Theorem partial_match_gate (tag fieldWord : string) (pw : PredictionWord N)
    (st : Acc N) :
  let gate := (contains fieldWord (word pw) \/ contains (word pw) fieldWord)
              /\ fieldWord <> word pw
              /\ 3 < String.length fieldWord /\ 3 < String.length (word pw) in
  (matchKind fieldWord (word pw) = PartialMatch <-> gate)
  /\ (gate ->
      accScore (tagStep tag fieldWord pw st)
      = nadd (accScore st) (contribution 10 pw)
      /\ accScore (nameStep fieldWord pw st)
         = nadd (accScore st) (contribution 15 pw))
  /\ (~ gate -> fieldWord <> word pw ->
      tagStep tag fieldWord pw st = st /\ nameStep fieldWord pw st = st).
Proof.
  intros gate. subst gate. split; [apply matchKind_partial_iff|]. split.
  - intros Hgate. apply matchKind_partial_iff in Hgate.
    rewrite tagStep_adds, nameStep_adds. unfold pairContributions.
    now rewrite Hgate.
  - intros Hgate Hne. rewrite <- matchKind_partial_iff in Hgate.
    unfold tagStep, nameStep.
    destruct (matchKind fieldWord (word pw)) eqn:E; try tauto.
    unfold matchKind in E.
    destruct (String.eqb_spec fieldWord (word pw)); [contradiction|].
    destruct ((includes fieldWord (word pw) || includes (word pw) fieldWord)
              && (3 <? String.length fieldWord)
              && (3 <? String.length (word pw))); discriminate.
Qed.

(** C10, as amended: when the trimmed input is not empty and has no white
    space and no comma, [tokenizeClassName] returns the lower-cased word
    twice; so an exact match of such a tag with an entry of the index adds
    the contribution [100 * confidence * rankWeight(rank)] twice. *)
Theorem single_word_tokenized_twice (s : string) :
  trim s <> "" -> noSeparator (trim s) = true ->
  tokenizeClassName s = [toLowerCase (trim s); toLowerCase (trim s)]
  /\ forall (pw : PredictionWord N) (st : Acc N),
       word pw = toLowerCase (trim s) ->
       accScore (scoreTags [pw] [s] st)
       = nadd (nadd (accScore st) (contribution 100 pw)) (contribution 100 pw).
Proof.
  intros Hne Hsep. split; [now apply tokenize_single_word|].
  intros pw st Hw. rewrite scoreTags_adds. cbn [flat_map].
  rewrite (tokenize_single_word s Hne Hsep). cbn [flat_map app].
  unfold pairContributions. rewrite Hw, matchKind_refl. reflexivity.
Qed.

End GateFacts.

(** ** Exact arithmetic: rank sensitivity and monotonicity *)

Section ExactFacts.

Local Open Scope Q_scope.

Lemma total_nil : total [] = 0.
Proof. reflexivity. Qed.

Lemma total_cons (x : Q) (l : list Q) : total (x :: l) = x + total l.
Proof. reflexivity. Qed.

Lemma fold_left_total (l : list Q) (s : Q) :
  fold_left Qplus l s == s + total l.
Proof.
  revert s. induction l as [|x l IH]; intros s; cbn [fold_left].
  - rewrite total_nil. lra.
  - rewrite IH, total_cons. lra.
Qed.

Lemma total_app (a b : list Q) : total (a ++ b) == total a + total b.
Proof.
  induction a as [|x a IH]; cbn [app].
  - rewrite total_nil. lra.
  - rewrite !total_cons, IH. lra.
Qed.

Lemma total_flat_map_split {A : Type} (F G K : A -> list Q) (l : list A) :
  (forall x, total (F x) == total (G x) + total (K x)) ->
  total (flat_map F l) == total (flat_map G l) + total (flat_map K l).
Proof.
  intros HF. induction l as [|x l IH]; cbn [flat_map].
  - rewrite total_nil. lra.
  - rewrite !total_app, IH, HF. lra.
Qed.

Lemma total_flat_map_app {A : Type} (g : A -> list Q) (l1 l2 : list A) :
  total (flat_map g (l1 ++ l2))
  == total (flat_map g l1) + total (flat_map g l2).
Proof. rewrite flat_map_app. apply total_app. Qed.

(** The contributions of two parts of an index add up. *)
Lemma contributions_app_total (i1 i2 : list (PredictionWord Q))
    (p : Product Q) :
  total (contributions (i1 ++ i2) p)
  == total (contributions i1 p) + total (contributions i2 p).
Proof.
  unfold contributions. rewrite !total_app.
  rewrite (total_flat_map_split
             (fun tag => flat_map (fun tw => flat_map (pairContributions 100 10 tw) (i1 ++ i2))
                                  (tokenizeClassName tag))
             (fun tag => flat_map (fun tw => flat_map (pairContributions 100 10 tw) i1)
                                  (tokenizeClassName tag))
             (fun tag => flat_map (fun tw => flat_map (pairContributions 100 10 tw) i2)
                                  (tokenizeClassName tag))).
  2: { intros tag. apply total_flat_map_split. intros tw.
       apply total_flat_map_app. }
  rewrite (total_flat_map_split
             (fun nw => flat_map (pairContributions 150 15 nw) (i1 ++ i2))
             (fun nw => flat_map (pairContributions 150 15 nw) i1)
             (fun nw => flat_map (pairContributions 150 15 nw) i2)).
  2: { intros nw. apply total_flat_map_app. }
  rewrite total_flat_map_app. lra.
Qed.

Lemma total_pos (l : list Q) :
  Forall (Qlt 0) l -> l <> [] -> 0 < total l.
Proof.
  intros Hall Hne. destruct l as [|x l]; [congruence|].
  inversion Hall as [|? ? Hx Hl]; subst. clear Hall Hne.
  revert x Hx. induction l as [|y l IH]; intros x Hx.
  - rewrite total_cons, total_nil. lra.
  - inversion Hl as [|? ? Hy Hl']; subst.
    specialize (IH Hl' y Hy). rewrite total_cons. lra.
Qed.

Lemma rankWeight_pos (r : nat) : (0 < rankWeight r)%Z.
Proof. destruct r as [|[|[|r]]]; simpl; lia. Qed.

Lemma rankWeight_decreasing (r1 r2 : nat) :
  (r1 < r2)%nat -> (r1 < 3)%nat -> (rankWeight r2 < rankWeight r1)%Z.
Proof.
  intros H12 H1.
  destruct r1 as [|[|[|r1]]]; destruct r2 as [|[|[|r2]]]; simpl; lia.
Qed.

Lemma rankWeight_flat (r1 r2 : nat) :
  (3 <= r1)%nat -> (r1 < r2)%nat -> rankWeight r1 = rankWeight r2.
Proof.
  intros H1 H12.
  destruct r1 as [|[|[|r1]]]; destruct r2 as [|[|[|r2]]]; simpl; lia.
Qed.

Lemma inject_Z_pos (z : Z) : (0 < z)%Z -> 0 < inject_Z z.
Proof. intros Hz. unfold Qlt. simpl. lia. Qed.

Lemma contribution_exact (base : Z) (pw : PredictionWord Q) :
  contribution base pw
  = inject_Z base * wprobability pw * inject_Z (rankWeight (rank pw)).
Proof. reflexivity. Qed.

Lemma contribution_pos (base : Z) (pw : PredictionWord Q) :
  (0 < base)%Z -> 0 < wprobability pw -> 0 < contribution base pw.
Proof.
  intros Hb Hp. rewrite contribution_exact.
  apply Qmult_lt_0_compat; [apply Qmult_lt_0_compat|]; try assumption.
  - now apply inject_Z_pos.
  - apply inject_Z_pos, rankWeight_pos.
Qed.

(** With the same word and the same positive confidence, the contribution
    of a rank below 3 is larger than that of any later rank. *)
Lemma contribution_rank_lt (base : Z) (w : string) (p : Q) (r1 r2 : nat) :
  (0 < base)%Z -> 0 < p -> (r1 < r2)%nat -> (r1 < 3)%nat ->
  contribution base {| word := w; wprobability := p; rank := r2 |}
  < contribution base {| word := w; wprobability := p; rank := r1 |}.
Proof.
  intros Hb Hp H12 H1. rewrite !contribution_exact. cbn [wprobability rank].
  apply Qmult_lt_l.
  - apply Qmult_lt_0_compat; [now apply inject_Z_pos | assumption].
  - rewrite <- Zlt_Qlt. now apply rankWeight_decreasing.
Qed.

(** In exact arithmetic the same holds of the score after the step, from
    any accumulator: of two predictions with the same positive confidence
    and the same matching token, the one of lower rank leaves a strictly
    larger score when its rank is 0, 1 or 2; two ranks of 3 or more leave
    the same score. *)
Theorem lower_rank_scores_more_exact (tag fieldWord cat w : string) (p : Q)
    (r1 r2 : nat) (st : Acc Q) :
  let pw1 := {| word := w; wprobability := p; rank := r1 |} in
  let pw2 := {| word := w; wprobability := p; rank := r2 |} in
  0 < p -> (r1 < r2)%nat ->
  ((r1 < 3)%nat ->
   (matchKind fieldWord w <> NoMatch ->
    accScore (tagStep tag fieldWord pw2 st) < accScore (tagStep tag fieldWord pw1 st)
    /\ accScore (nameStep fieldWord pw2 st) < accScore (nameStep fieldWord pw1 st))
   /\ (includes (toLowerCase cat) w || includes w (toLowerCase cat) = true ->
       accScore (categoryStep cat pw2 st) < accScore (categoryStep cat pw1 st)))
  /\ ((3 <= r1)%nat ->
      accScore (tagStep tag fieldWord pw1 st) = accScore (tagStep tag fieldWord pw2 st)
      /\ accScore (nameStep fieldWord pw1 st) = accScore (nameStep fieldWord pw2 st)
      /\ accScore (categoryStep cat pw1 st) = accScore (categoryStep cat pw2 st)).
Proof.
  intros pw1 pw2 Hp H12.
  rewrite !tagStep_adds, !nameStep_adds, !categoryStep_adds.
  unfold pairContributions, categoryContributions. subst pw1 pw2.
  cbn [word]. split.
  - intros H1. split.
    + intros Hm.
      destruct (matchKind fieldWord w); [| |congruence]; cbn [fold_left];
        (split; apply Qplus_lt_r; apply contribution_rank_lt;
         (assumption || lia)).
    + intros Hc. rewrite Hc. cbn [fold_left].
      apply Qplus_lt_r. apply contribution_rank_lt; (assumption || lia).
  - intros H3. unfold contribution. cbn [rank wprobability].
    now rewrite (rankWeight_flat r1 r2 H3 H12).
Qed.

Lemma forEachFrom_app {A St : Type} (f : A -> nat -> St -> St)
    (l1 l2 : list A) (i : nat) (st : St) :
  forEachFrom f (l1 ++ l2) i st
  = forEachFrom f l2 (i + List.length l1) (forEachFrom f l1 i st).
Proof.
  revert i st. induction l1 as [|x l1 IH]; intros i st; cbn [app forEachFrom].
  - now rewrite Nat.add_0_r.
  - rewrite IH. cbn [List.length]. now rewrite Nat.add_succ_comm.
Qed.

(** The index of a list with one more prediction at its end. *)
Lemma buildPredictionWords_append {N : Type} `{Number N}
    (predictions : list (Prediction N)) (new : Prediction N) :
  buildPredictionWords (predictions ++ [new])
  = buildPredictionWords predictions
    ++ specEntries (List.length predictions) new.
Proof.
  unfold buildPredictionWords. rewrite forEachFrom_app.
  cbn [forEachFrom Nat.add]. apply pushWords_spec.
Qed.

Lemma pairContributions_pos (baseExact basePartial : Z) (fieldWord : string)
    (pw : PredictionWord Q) :
  (0 < baseExact)%Z -> (0 < basePartial)%Z -> 0 < wprobability pw ->
  Forall (Qlt 0) (pairContributions baseExact basePartial fieldWord pw).
Proof.
  intros He Hpa Hp. unfold pairContributions.
  destruct (matchKind fieldWord (word pw)); repeat constructor;
    now apply contribution_pos.
Qed.

Lemma Forall_flat_map_intro {A B : Type} (P : B -> Prop) (f : A -> list B)
    (l : list A) :
  (forall x, In x l -> Forall P (f x)) -> Forall P (flat_map f l).
Proof.
  intros Hf. apply Forall_flat_map. apply Forall_forall. exact Hf.
Qed.

(** Entries of positive confidence contribute positive numbers only. *)
Lemma contributions_pos (index : list (PredictionWord Q)) (p : Product Q) :
  Forall (fun pw => 0 < wprobability pw) index ->
  Forall (Qlt 0) (contributions index p).
Proof.
  intros Hidx. rewrite Forall_forall in Hidx.
  unfold contributions.
  apply Forall_app; split; [|apply Forall_app; split].
  - apply Forall_flat_map_intro. intros tag _.
    apply Forall_flat_map_intro. intros tw _.
    apply Forall_flat_map_intro. intros pw Hpw.
    apply pairContributions_pos; try lia. now apply Hidx.
  - apply Forall_flat_map_intro. intros nw _.
    apply Forall_flat_map_intro. intros pw Hpw.
    apply pairContributions_pos; try lia. now apply Hidx.
  - apply Forall_flat_map_intro. intros pw Hpw.
    unfold categoryContributions.
    destruct (includes (toLowerCase (category p)) (word pw)
              || includes (word pw) (toLowerCase (category p)));
      repeat constructor.
    apply contribution_pos; [lia | now apply Hidx].
Qed.

(** An entry whose word is a word of a tag contributes to the product. *)
Lemma contributions_exact_tag (index : list (PredictionWord Q))
    (p : Product Q) (tag : string) (pw : PredictionWord Q) :
  In tag (tags p) -> In (word pw) (tokenizeClassName tag) -> In pw index ->
  In (contribution 100 pw) (contributions index p).
Proof.
  intros Htag Hw Hpw. unfold contributions. apply in_or_app. left.
  apply in_flat_map. exists tag. split; [assumption|].
  apply in_flat_map. exists (word pw). split; [assumption|].
  apply in_flat_map. exists pw. split; [assumption|].
  unfold pairContributions. rewrite matchKind_refl. now left.
Qed.

(** Without rounding no contribution is absorbed: in exact arithmetic,
    appending at the end of the prediction list a prediction of positive
    confidence whose tokenized label has a token longer than 2 characters
    that is a token of one of the item's tags strictly increases the
    score of the item. *)
Theorem appended_match_increases_score_exact
    (predictions : list (Prediction Q))
    (new : Prediction Q) (item : Product Q) (tag w : string) :
  0 < probability new ->
  In w (tokenizeClassName (className new)) -> (2 < String.length w)%nat ->
  In tag (tags item) -> In w (tokenizeClassName tag) ->
  score (calculateSimilarity predictions item)
  < score (calculateSimilarity (predictions ++ [new]) item).
Proof.
  intros Hp Hw Hlen Htag Htw.
  set (extra := specEntries (List.length predictions) new).
  set (pw := {| word := w; wprobability := probability new;
                rank := List.length predictions |}).
  assert (Hin : In pw extra).
  { unfold extra, specEntries. apply in_map_iff. exists w.
    split; [reflexivity|]. apply filter_In. split; [assumption|].
    now apply Nat.ltb_lt. }
  assert (Hall : Forall (fun e => 0 < wprobability e) extra).
  { apply Forall_forall. intros e He. unfold extra, specEntries in He.
    apply in_map_iff in He. destruct He as [v [<- _]]. exact Hp. }
  assert (Hgain : 0 < total (contributions extra item)).
  { apply total_pos; [now apply contributions_pos|].
    intros Hnil.
    pose proof (contributions_exact_tag extra item tag pw Htag Htw Hin) as Hc.
    now rewrite Hnil in Hc. }
  rewrite !score_is_sum, buildPredictionWords_append. fold extra.
  change (@nadd Q Exact) with Qplus. change (@lit Q Exact 0%Z) with 0.
  rewrite !fold_left_total, contributions_app_total. lra.
Qed.

End ExactFacts.

(** ** Binary64: rank sensitivity *)

Section Binary64Facts.

Local Open Scope Z_scope.

Lemma pow2_pos (k : Z) : 0 <= k -> 0 < 2 ^ k.
Proof. intros. apply Z.pow_pos_nonneg; lia. Qed.

Lemma pow2_succ (k : Z) : 0 <= k -> 2 ^ (k + 1) = 2 * 2 ^ k.
Proof. intros. rewrite Z.pow_add_r by lia. lia. Qed.

Lemma digits_bounds (p : positive) :
  2 ^ (Zpos (digits2_pos p) - 1) <= Zpos p < 2 ^ Zpos (digits2_pos p).
Proof.
  induction p as [p IH|p IH|]; simpl digits2_pos.
  - rewrite Pos2Z.inj_succ. unfold Z.succ.
    replace (Zpos (digits2_pos p) + 1 - 1) with (Zpos (digits2_pos p) - 1 + 1) by lia.
    rewrite !pow2_succ by lia. lia.
  - rewrite Pos2Z.inj_succ. unfold Z.succ.
    replace (Zpos (digits2_pos p) + 1 - 1) with (Zpos (digits2_pos p) - 1 + 1) by lia.
    rewrite !pow2_succ by lia. lia.
  - simpl. lia.
Qed.

(** [iter_pos] is the iteration of [Nat.iter]. *)
Lemma iter_pos_nat {A} (f : A -> A) (p : positive) (x : A) :
  iter_pos f p x = Nat.iter (Pos.to_nat p) f x.
Proof.
  revert x. induction p as [p IH|p IH|]; intros x; cbn [iter_pos].
  - rewrite !IH. rewrite Pos2Nat.inj_xI.
    replace (S (2 * Pos.to_nat p))%nat with (Pos.to_nat p + (Pos.to_nat p + 1))%nat by lia.
    rewrite !Nat.iter_add. simpl. reflexivity.
  - rewrite !IH. rewrite Pos2Nat.inj_xO.
    replace (2 * Pos.to_nat p)%nat with (Pos.to_nat p + Pos.to_nat p)%nat by lia.
    now rewrite Nat.iter_add.
  - reflexivity.
Qed.

Lemma shr_1_nonneg (m : Z) (r s : bool) :
  0 <= m ->
  exists m', shr_1 (Build_shr_record m r s) = Build_shr_record m' (Z.odd m) (r || s)
             /\ 0 <= m' /\ m = 2 * m' + (if Z.odd m then 1 else 0).
Proof.
  intros Hm. destruct m as [|[p|p|]|p]; try lia.
  - exists 0. repeat split; lia.
  - exists (Zpos p). repeat split; lia.
  - exists (Zpos p). repeat split; lia.
  - exists 0. repeat split; lia.
Qed.

Lemma shr_1_first (M : Z) : 0 <= M -> shr_inv 1 M (shr_1 (Build_shr_record M false false)).
Proof.
  intros HM. destruct (shr_1_nonneg M false false HM) as [m' [E [Hm' HMm]]].
  rewrite E. unfold shr_inv. cbn [shr_m shr_r shr_s orb].
  split; [assumption|]. exists 0. change (2 ^ (1 - 1)) with 1. change (2 ^ 1) with 2.
  repeat split; try lia; discriminate.
Qed.

Lemma shr_1_next (n M : Z) (mrs : shr_record) :
  1 <= n -> shr_inv n M mrs -> shr_inv (n + 1) M (shr_1 mrs).
Proof.
  intros Hn [Hm [low [HM [Hlow Hs]]]].
  destruct mrs as [m r s]. cbn [shr_m shr_r shr_s] in *.
  destruct (shr_1_nonneg m r s Hm) as [m' [E [Hm' Hmm]]].
  rewrite E. unfold shr_inv. cbn [shr_m shr_r shr_s].
  assert (Hp : 2 ^ n = 2 * 2 ^ (n - 1)).
  { replace n with (n - 1 + 1) at 1 by lia. apply pow2_succ. lia. }
  assert (Hp1 : 2 ^ (n + 1) = 2 * 2 ^ n) by (apply pow2_succ; lia).
  replace (n + 1 - 1) with n by lia.
  assert (Hpp : 0 < 2 ^ (n - 1)) by (apply pow2_pos; lia).
  split; [assumption|].
  exists ((if r then 2 ^ (n - 1) else 0) + low).
  split; [|split].
  - rewrite HM, Hp1. rewrite Hmm at 1. destruct (Z.odd m); lia.
  - destruct r; lia.
  - destruct r; cbn [orb].
    + split; [lia | reflexivity].
    + rewrite Hs. lia.
Qed.

Lemma shr_iter (n : nat) (M : Z) :
  0 <= M ->
  shr_inv (Z.of_nat (S n)) M (Nat.iter (S n) shr_1 (Build_shr_record M false false)).
Proof.
  intros HM. induction n as [|n IH].
  - simpl Nat.iter. now apply shr_1_first.
  - replace (Z.of_nat (S (S n))) with (Z.of_nat (S n) + 1) by lia.
    change (Nat.iter (S (S n)) shr_1 (Build_shr_record M false false))
      with (shr_1 (Nat.iter (S n) shr_1 (Build_shr_record M false false))).
    apply shr_1_next; [lia | exact IH].
Qed.

(** Rounding to nearest even after a shift by [n >= 1] bits: the result is
    within half a unit of [M / 2^n], and exact when [2^n] divides [M]. *)
Lemma round_after_shift (n M : Z) (mrs : shr_record) :
  1 <= n -> shr_inv n M mrs ->
  let q := round_nearest_even (shr_m mrs) (loc_of_shr_record mrs) in
  0 <= q /\ 2 * M - 2 ^ n <= 2 * (q * 2 ^ n) <= 2 * M + 2 ^ n
  /\ (M mod 2 ^ n = 0 -> q * 2 ^ n = M)
  /\ q * 2 ^ n <= M + 2 ^ n.
Proof.
  intros Hn [Hm [low [HM [Hlow Hs]]]] q. subst q.
  destruct mrs as [m r s]. cbn [shr_m shr_r shr_s] in *.
  assert (Hp : 2 ^ n = 2 * 2 ^ (n - 1)).
  { replace n with (n - 1 + 1) at 1 by lia. apply pow2_succ. lia. }
  assert (Hpp : 0 < 2 ^ (n - 1)) by (apply pow2_pos; lia).
  assert (Hdiv : M mod 2 ^ n = 0 -> r = false /\ low = 0).
  { intros Hmod.
    assert (Hrem : M mod 2 ^ n = (if r then 2 ^ (n - 1) else 0) + low).
    { rewrite HM. rewrite <- Z.add_assoc, Z.add_comm, Z.mod_add by lia.
      apply Z.mod_small. destruct r; lia. }
    rewrite Hmod in Hrem. destruct r; lia. }
  assert (Hs' : s = false -> low = 0).
  { intros ->. destruct Hs as [_ Hs2]. destruct (Z.eq_dec low 0); [assumption|].
    assert (H0 : 0 < low) by lia. specialize (Hs2 H0). discriminate. }
  assert (Hs'' : s = true -> 0 < low) by (intros ->; now apply Hs).
  destruct r, s; cbn [loc_of_shr_record round_nearest_even];
    try (specialize (Hs'' eq_refl)); try (specialize (Hs' eq_refl); subst low);
    try destruct (Z.even m);
    repeat split; try nia;
    intros Hmod; destruct (Hdiv Hmod); try discriminate; nia.
Qed.

Lemma fexp_value (e : Z) : fexp prec emax e = Z.max (e - 53) (-1074).
Proof. reflexivity. Qed.

Lemma pow2_le (a b : Z) : 0 <= a <= b -> 2 ^ a <= 2 ^ b.
Proof. intros. apply Z.pow_le_mono_r; lia. Qed.

Lemma pow2_split (a b : Z) : 0 <= a -> 0 <= b -> 2 ^ (a + b) = 2 ^ a * 2 ^ b.
Proof. intros. apply Z.pow_add_r; lia. Qed.

(** The result of rounding the positive number [M * 2^E] to binary64. *)
Lemma round_aux_spec (pM : positive) (E : Z) :
  let d := Zpos (digits2_pos pM) in
  let e1 := Z.max E (fexp prec emax (d + E)) in
  let n := e1 - E in
  let r := binary_round_aux prec emax false (Zpos pM) E loc_Exact in
  exists q : Z,
    0 <= q
    /\ 2 * Zpos pM - 2 ^ n <= 2 * (q * 2 ^ n) <= 2 * Zpos pM + 2 ^ n
    /\ (Zpos pM mod 2 ^ n = 0 -> q * 2 ^ n = Zpos pM)
    /\ ((q = 0 /\ r = S754_zero false)
        \/ (r = S754_infinity false /\ 971 <= e1)
        \/ exists m e, r = S754_finite false m e /\ e1 <= e <= e1 + 1
                       /\ Zpos m * 2 ^ (e - e1) = q /\ e <= 971).
Proof.
  intros d e1 n r.
  pose proof (digits_bounds pM) as Hd. fold d in Hd.
  assert (Hdpos : 1 <= d) by (unfold d; lia).
  unfold r, binary_round_aux, shr_fexp.
  change (Zdigits2 (Zpos pM)) with d.
  destruct (fexp prec emax (d + E) - E) as [|pn|pn] eqn:En0.
  - (* no shift *)
    assert (He1 : e1 = E) by (unfold e1; lia).
    assert (Hn : n = 0) by (unfold n; lia).
    cbn [shr shr_record_of_loc shr_m loc_of_shr_record round_nearest_even].
    change (Zdigits2 (Zpos pM)) with d. rewrite En0.
    cbn [shr shr_record_of_loc shr_m].
    exists (Zpos pM). rewrite Hn. change (2 ^ 0) with 1.
    repeat split; try lia.
    right. change (emax - prec) with 971.
    destruct (E <=? 971) eqn:Ee; [right | left; split; [reflexivity | apply Z.leb_gt in Ee; lia]].
    exists pM, E. apply Z.leb_le in Ee. rewrite He1, Z.sub_diag.
    repeat split; lia.
  - (* a shift by pn bits *)
    assert (He1 : e1 = E + Zpos pn) by (unfold e1; lia).
    assert (Hn : n = Zpos pn) by (unfold n; lia).
    cbn [shr shr_record_of_loc].
    rewrite iter_pos_nat.
    destruct (Pos.to_nat pn) as [|k] eqn:Ek; [lia|].
    pose proof (shr_iter k (Zpos pM) ltac:(lia)) as Hinv.
    replace (Z.of_nat (S k)) with n in Hinv by lia.
    set (mrs := Nat.iter (S k) shr_1 (Build_shr_record (Zpos pM) false false)) in *.
    pose proof (round_after_shift n (Zpos pM) mrs ltac:(lia) Hinv) as Hq.
    cbv zeta in Hq.
    set (q := round_nearest_even (shr_m mrs) (loc_of_shr_record mrs)) in *.
    destruct Hq as [Hq0 [Hq1 [Hq2 Hq3]]].
    exists q. split; [assumption|]. split; [assumption|]. split; [assumption|].
    replace (E + Zpos pn) with e1 by lia.
    assert (Hemin : -1074 <= e1) by (unfold e1; rewrite fexp_value; lia).
    assert (Hdn : d <= n + 53) by (unfold n, e1; rewrite fexp_value; lia).
    assert (Hpn : 0 < 2 ^ n) by (apply pow2_pos; lia).
    assert (Hq53 : q <= 2 ^ 53).
    { assert (H1 : 2 ^ d <= 2 ^ (n + 53)) by (apply pow2_le; lia).
      rewrite pow2_split in H1 by lia. nia. }
    destruct q as [|pq|pq] eqn:Eq; [| |lia].
    + left. split; [reflexivity|].
      cbn [Zdigits2]. rewrite fexp_value.
      destruct (Z.max (0 + e1 - 53) (-1074) - e1) eqn:E2; try lia;
        reflexivity.
    + right. change (emax - prec) with 971.
      pose proof (digits_bounds pq) as Hdq.
      cbn [Zdigits2]. rewrite fexp_value.
      destruct (Z.max (Zpos (digits2_pos pq) + e1 - 53) (-1074) - e1)
        as [|p2|p2] eqn:E2.
      * cbn [shr shr_record_of_loc shr_m].
        destruct (e1 <=? 971) eqn:Ee; [right | left; split; [reflexivity | apply Z.leb_gt in Ee; lia]].
        exists pq, e1. apply Z.leb_le in Ee. rewrite Z.sub_diag.
        repeat split; lia.
      * (* the rounding carried to 2^53 *)
        assert (Hdq54 : 54 <= Zpos (digits2_pos pq)) by lia.
        assert (Hq' : Zpos pq = 2 ^ 53).
        { assert (H1 : 2 ^ 53 <= 2 ^ (Zpos (digits2_pos pq) - 1))
            by (apply pow2_le; lia).
          lia. }
        assert (Epq : pq = 9007199254740992%positive) by lia.
        subst pq.
        assert (Hd54 : digits2_pos 9007199254740992 = 54%positive) by reflexivity.
        rewrite Hd54 in E2.
        assert (Ep2 : p2 = 1%positive) by lia.
        subst p2. cbn [shr shr_record_of_loc iter_pos shr_1 shr_m].
        destruct (e1 + 1 <=? 971) eqn:Ee; [right | left; split; [reflexivity | apply Z.leb_gt in Ee; lia]].
        exists 4503599627370496%positive, (e1 + 1). apply Z.leb_le in Ee.
        replace (e1 + 1 - e1) with 1 by lia.
        repeat split; lia.
      * cbn [shr shr_record_of_loc shr_m].
        destruct (e1 <=? 971) eqn:Ee; [right | left; split; [reflexivity | apply Z.leb_gt in Ee; lia]].
        exists pq, e1. apply Z.leb_le in Ee. rewrite Z.sub_diag.
        repeat split; lia.
  - (* no shift *)
    assert (He1 : e1 = E) by (unfold e1; lia).
    assert (Hn : n = 0) by (unfold n; lia).
    cbn [shr shr_record_of_loc shr_m loc_of_shr_record round_nearest_even].
    change (Zdigits2 (Zpos pM)) with d. rewrite En0.
    cbn [shr shr_record_of_loc shr_m].
    exists (Zpos pM). rewrite Hn. change (2 ^ 0) with 1.
    repeat split; try lia.
    right. change (emax - prec) with 971.
    destruct (E <=? 971) eqn:Ee; [right | left; split; [reflexivity | apply Z.leb_gt in Ee; lia]].
    exists pM, E. apply Z.leb_le in Ee. rewrite He1, Z.sub_diag.
    repeat split; lia.
Qed.

Lemma bounded_facts (m : positive) (e : Z) :
  bounded prec emax m e = true ->
  -1074 <= e <= 971 /\ Zpos m < 2 ^ 53 /\ (-1074 < e -> 2 ^ 52 <= Zpos m).
Proof.
  unfold bounded, canonical_mantissa. rewrite fexp_value.
  change (emax - prec) with 971.
  intros H. apply andb_true_iff in H. destruct H as [Hc He].
  apply Z.eqb_eq in Hc. apply Z.leb_le in He.
  pose proof (digits_bounds m) as Hd.
  set (d := Zpos (digits2_pos m)) in *.
  assert (Hd1 : 1 <= d) by (unfold d; lia).
  split; [lia|]. split.
  - assert (H1 : 2 ^ d <= 2 ^ 53) by (apply pow2_le; lia). lia.
  - intros Hn. assert (E : d = 53) by lia. rewrite E in Hd.
    change (53 - 1) with 52 in Hd. lia.
Qed.

(** On valid positive floats [<] is the order of the values. *)
Lemma SFltb_val (m1 : positive) (e1 : Z) (m2 : positive) (e2 : Z) :
  bounded prec emax m1 e1 = true -> bounded prec emax m2 e2 = true ->
  val m1 e1 < val m2 e2 ->
  SFltb (S754_finite false m1 e1) (S754_finite false m2 e2) = true.
Proof.
  intros H1 H2 Hv.
  destruct (bounded_facts m1 e1 H1) as [He1 [Hm1 Hn1]].
  destruct (bounded_facts m2 e2 H2) as [He2 [Hm2 Hn2]].
  unfold SFltb, SFcompare. unfold val in Hv.
  destruct (Z.compare_spec e1 e2) as [E|E|E]; [| reflexivity |].
  - subst e2.
    assert (Hp : 0 < 2 ^ (e1 + 1200)) by (apply pow2_pos; lia).
    assert (Hm : Zpos m1 < Zpos m2) by nia.
    change (PosDef.Pos.compare_cont Eq m1 m2) with (Pos.compare m1 m2).
    now rewrite (proj2 (Pos.compare_lt_iff m1 m2) Hm).
  - exfalso.
    assert (Hm : 2 ^ 52 <= Zpos m1) by (apply Hn1; lia).
    assert (Hs : 2 ^ (e1 + 1200) = 2 ^ (e1 - e2) * 2 ^ (e2 + 1200)).
    { rewrite <- pow2_split by lia. f_equal. lia. }
    assert (Hp : 0 < 2 ^ (e2 + 1200)) by (apply pow2_pos; lia).
    assert (H2' : 2 ^ 1 <= 2 ^ (e1 - e2)) by (apply pow2_le; lia).
    change (2 ^ 1) with 2 in H2'. change (2 ^ 53) with (2 * 2 ^ 52) in Hm2.
    rewrite Hs in Hv. nia.
Qed.

(** The product of a valid positive float and an integer constant
    [cz = mc * 2^-k] is finite, positive and within a relative error of
    [2^-53] of the exact product. *)
Lemma mul_const_spec (mx : positive) (ex : Z) (mc : positive) (cz k : Z) :
  bounded prec emax mx ex = true ->
  Zpos mc = cz * 2 ^ k -> 0 < cz -> 0 <= k <= 52 -> Zpos mc < 2 ^ 53 ->
  ex - k <= 900 ->
  exists m e,
    binary_round_aux prec emax false (Zpos (mx * mc)) (ex + - k) loc_Exact
    = S754_finite false m e
    /\ (2 ^ 53 - 1) * (cz * val mx ex) <= 2 ^ 53 * val m e
       <= (2 ^ 53 + 1) * (cz * val mx ex)
    /\ e <= Z.max (ex - k + 54) (-1073).
Proof.
  intros Hb Hmc Hcz Hk Hmc53 Hex.
  destruct (bounded_facts mx ex Hb) as [Hex' [Hmx _]].
  pose proof (round_aux_spec (mx * mc) (ex + - k)) as K. cbv zeta in K.
  pose proof (digits_bounds (mx * mc)) as Hd.
  set (P := Zpos (mx * mc)) in *.
  set (d := Zpos (digits2_pos (mx * mc))) in *.
  set (E := ex + - k) in *.
  set (e1 := Z.max E (fexp prec emax (d + E))) in *.
  set (n := e1 - E) in *.
  assert (HP : P = Zpos mx * cz * 2 ^ k) by (unfold P; rewrite Pos2Z.inj_mul; lia).
  assert (Hd1 : 1 <= d) by (unfold d; lia).
  assert (Hpk : 0 < 2 ^ k) by (apply pow2_pos; lia).
  assert (Hd106 : d <= 106).
  { destruct (Z_le_gt_dec d 106) as [|Hgt]; [assumption|exfalso].
    assert (H1 : 2 ^ 106 <= 2 ^ (d - 1)) by (apply pow2_le; lia).
    assert (H2 : P < 2 ^ 53 * 2 ^ 53) by (unfold P; rewrite Pos2Z.inj_mul; nia).
    change (2 ^ 53 * 2 ^ 53) with (2 ^ 106) in H2. lia. }
  assert (He1 : e1 = Z.max E (Z.max (d + E - 53) (-1074)))
    by (unfold e1; now rewrite fexp_value).
  assert (Hn0 : 0 <= n) by (unfold n; lia).
  assert (Hpn : 0 < 2 ^ n) by (apply pow2_pos; lia).
  destruct K as [q [Hq0 [Hq1 [Hq2 Hr]]]].
  assert (B : (2 ^ 53 - 1) * P <= 2 ^ 53 * (q * 2 ^ n) <= (2 ^ 53 + 1) * P).
  { destruct (Z_le_gt_dec n k) as [Hnk|Hnk].
    - assert (Hmod : P mod 2 ^ n = 0).
      { rewrite HP. replace k with ((k - n) + n) by lia.
        rewrite pow2_split by lia. rewrite Z.mul_assoc. apply Z.mod_mul. lia. }
      rewrite (Hq2 Hmod). lia.
    - assert (En : n = d - 53) by (unfold n, E in *; lia).
      assert (H52 : 2 ^ 52 * 2 ^ n = 2 ^ (d - 1)).
      { rewrite <- pow2_split by lia. f_equal. lia. }
      change (2 ^ 53) with (2 * 2 ^ 52). nia. }
  assert (HS : 0 < 2 ^ (E + 1200)) by (apply pow2_pos; unfold E; lia).
  assert (HX : cz * val mx ex = P * 2 ^ (E + 1200)).
  { unfold val. rewrite HP. replace (ex + 1200) with (k + (E + 1200)) by (unfold E; lia).
    rewrite pow2_split by (unfold E; lia). lia. }
  destruct Hr as [[Hz _]|[[_ Hinf]|[m [e [Hr [He [Hm He971]]]]]]].
  - exfalso. subst q. nia.
  - exfalso. unfold E in *. lia.
  - exists m, e. split; [exact Hr|]. split.
    + assert (HV : val m e = (q * 2 ^ n) * 2 ^ (E + 1200)).
      { unfold val. rewrite <- Hm.
        replace (e + 1200) with ((e - e1) + (n + (E + 1200))) by (unfold n; lia).
        rewrite !pow2_split by (unfold E in *; lia). lia. }
      rewrite HX, HV. nia.
    + unfold E in *. lia.
Qed.

(** A valid positive float times a constant, on primitive floats. *)
Lemma prim_mul_const (x c : float) (mx : positive) (ex : Z) (mc : positive)
    (cz k : Z) :
  Prim2SF x = S754_finite false mx ex ->
  Prim2SF c = S754_finite false mc (- k) ->
  Zpos mc = cz * 2 ^ k -> 0 < cz -> 0 <= k <= 52 -> Zpos mc < 2 ^ 53 ->
  ex - k <= 900 ->
  exists m e,
    Prim2SF (x * c)%float = S754_finite false m e
    /\ (2 ^ 53 - 1) * (cz * val mx ex) <= 2 ^ 53 * val m e
       <= (2 ^ 53 + 1) * (cz * val mx ex)
    /\ e <= Z.max (ex - k + 54) (-1073).
Proof.
  intros Hx Hc Hmc Hcz Hk Hmc53 Hex.
  assert (Hb : bounded prec emax mx ex = true).
  { pose proof (Prim2SF_valid x) as Hv. now rewrite Hx in Hv. }
  destruct (mul_const_spec mx ex mc cz k Hb Hmc Hcz Hk Hmc53 Hex)
    as [m [e [Hr [Hv He]]]].
  exists m, e. split; [|now split].
  rewrite mul_spec, Hx, Hc. exact Hr.
Qed.

Lemma prim_const_mul (x c : float) (mx : positive) (ex : Z) (mc : positive)
    (cz k : Z) :
  Prim2SF x = S754_finite false mx ex ->
  Prim2SF c = S754_finite false mc (- k) ->
  Zpos mc = cz * 2 ^ k -> 0 < cz -> 0 <= k <= 52 -> Zpos mc < 2 ^ 53 ->
  ex - k <= 900 ->
  exists m e,
    Prim2SF (c * x)%float = S754_finite false m e
    /\ e <= Z.max (ex - k + 54) (-1073).
Proof.
  intros Hx Hc Hmc Hcz Hk Hmc53 Hex.
  assert (Hb : bounded prec emax mx ex = true).
  { pose proof (Prim2SF_valid x) as Hv. now rewrite Hx in Hv. }
  destruct (mul_const_spec mx ex mc cz k Hb Hmc Hcz Hk Hmc53 Hex)
    as [m [e [Hr [Hv He]]]].
  exists m, e. split; [|assumption].
  rewrite mul_spec, Hx, Hc. unfold SF64mul, SFmul. cbn [xorb].
  rewrite Pos.mul_comm, Z.add_comm. exact Hr.
Qed.

Lemma Prim2SF_zero : Prim2SF 0 = S754_zero false.
Proof. reflexivity. Qed.

Lemma Prim2SF_one : Prim2SF 1 = S754_finite false 4503599627370496 (-52).
Proof. reflexivity. Qed.

(** A probability in (0, 1] is a finite positive float of exponent at most
    -52. *)
Lemma probability_facts (p : float) :
  (0 <? p)%float = true -> (p <=? 1)%float = true ->
  exists mp ep, Prim2SF p = S754_finite false mp ep /\ ep <= -52.
Proof.
  rewrite ltb_spec, leb_spec, Prim2SF_zero, Prim2SF_one.
  destruct (Prim2SF p) as [[|]|[|]| |[|] mp ep].
  all: cbn [SFltb SFleb SFcompare].
  all: try discriminate.
  intros _ Hle. exists mp, ep. split; [reflexivity|]. revert Hle.
  destruct (Z.compare_spec ep (-52)) as [E|E|E]; intros Hle;
    [lia | lia | discriminate].
Qed.

Lemma const_100 : Prim2SF (float_of_Z 100) = S754_finite false 7036874417766400 (- 46).
Proof. vm_compute. reflexivity. Qed.
Lemma const_10 : Prim2SF (float_of_Z 10) = S754_finite false 5629499534213120 (- 49).
Proof. vm_compute. reflexivity. Qed.
Lemma const_150 : Prim2SF (float_of_Z 150) = S754_finite false 5277655813324800 (- 45).
Proof. vm_compute. reflexivity. Qed.
Lemma const_15 : Prim2SF (float_of_Z 15) = S754_finite false 8444249301319680 (- 49).
Proof. vm_compute. reflexivity. Qed.
Lemma const_5 : Prim2SF (float_of_Z 5) = S754_finite false 5629499534213120 (- 50).
Proof. vm_compute. reflexivity. Qed.
Lemma const_4 : Prim2SF (float_of_Z 4) = S754_finite false 4503599627370496 (- 50).
Proof. vm_compute. reflexivity. Qed.
Lemma const_3 : Prim2SF (float_of_Z 3) = S754_finite false 6755399441055744 (- 51).
Proof. vm_compute. reflexivity. Qed.
Lemma const_2 : Prim2SF (float_of_Z 2) = S754_finite false 4503599627370496 (- 51).
Proof. vm_compute. reflexivity. Qed.

(** The literals of the scorer, as [mantissa * 2^-k]. *)
Lemma base_constant (base : Z) :
  In base [100; 10; 150; 15; 5] ->
  exists mc k, Prim2SF (float_of_Z base) = S754_finite false mc (- k)
               /\ Zpos mc = base * 2 ^ k /\ 0 < base /\ 0 <= k <= 52
               /\ Zpos mc < 2 ^ 53.
Proof.
  intros Hbase. cbn [In] in Hbase.
  destruct Hbase as [<-|[<-|[<-|[<-|[<-|[]]]]]].
  - exists 7036874417766400%positive, 46. split; [exact const_100|]. vm_compute. intuition congruence.
  - exists 5629499534213120%positive, 49. split; [exact const_10|]. vm_compute. intuition congruence.
  - exists 5277655813324800%positive, 45. split; [exact const_150|]. vm_compute. intuition congruence.
  - exists 8444249301319680%positive, 49. split; [exact const_15|]. vm_compute. intuition congruence.
  - exists 5629499534213120%positive, 50. split; [exact const_5|]. vm_compute. intuition congruence.
Qed.

Lemma weight_constant (r : nat) :
  exists mc k, Prim2SF (float_of_Z (rankWeight r)) = S754_finite false mc (- k)
               /\ Zpos mc = rankWeight r * 2 ^ k /\ 0 < rankWeight r
               /\ 0 <= k <= 52 /\ Zpos mc < 2 ^ 53.
Proof.
  destruct r as [|[|[|r]]]; cbn [rankWeight].
  - exists 5629499534213120%positive, 50. split; [exact const_5|]. vm_compute. intuition congruence.
  - exists 4503599627370496%positive, 50. split; [exact const_4|]. vm_compute. intuition congruence.
  - exists 6755399441055744%positive, 51. split; [exact const_3|]. vm_compute. intuition congruence.
  - exists 4503599627370496%positive, 51. split; [exact const_2|]. vm_compute. intuition congruence.
Qed.

Lemma base_mul_probability (base : Z) (p : float) :
  In base [100; 10; 150; 15; 5] ->
  (0 <? p)%float = true -> (p <=? 1)%float = true ->
  exists mx ex,
    Prim2SF (float_of_Z base * p)%float = S754_finite false mx ex /\ ex <= 100.
Proof.
  intros Hbase H0 H1.
  destruct (probability_facts p H0 H1) as [mp [ep [Hp Hep]]].
  destruct (base_constant base Hbase) as [mc [k [Hc [Hmc [Hcz [Hk Hmc53]]]]]].
  assert (Hex : ep - k <= 900) by (clear - Hk Hep; lia).
  destruct (prim_const_mul p (float_of_Z base) mp ep mc base k Hp Hc Hmc Hcz Hk
              Hmc53 Hex) as [m [e [Hr He]]].
  exists m, e. split; [exact Hr | ]. (clear - He Hep Hk; lia).
Qed.

Lemma weight_mul (x : float) (mx : positive) (ex : Z) (r : nat) :
  Prim2SF x = S754_finite false mx ex -> ex <= 100 ->
  exists m e,
    Prim2SF (x * float_of_Z (rankWeight r))%float = S754_finite false m e
    /\ (2 ^ 53 - 1) * (rankWeight r * val mx ex) <= 2 ^ 53 * val m e
       <= (2 ^ 53 + 1) * (rankWeight r * val mx ex).
Proof.
  intros Hx Hex.
  destruct (weight_constant r) as [mc [k [Hc [Hmc [Hw [Hk Hmc53]]]]]].
  assert (Hex' : ex - k <= 900) by (clear - Hex Hk; lia).
  destruct (prim_mul_const x (float_of_Z (rankWeight r)) mx ex mc
              (rankWeight r) k Hx Hc Hmc Hw Hk Hmc53 Hex')
    as [m [e [Hr [Hv _]]]].
  exists m, e. split; assumption.
Qed.

Lemma rankMultiplier_flat {N : Type} `{Number N} (r1 r2 : nat) :
  (3 <= r1)%nat -> (r1 < r2)%nat -> rankMultiplier r1 = rankMultiplier r2.
Proof.
  intros H1 H12.
  destruct r1 as [|[|[|r1]]]; try (exfalso; lia).
  destruct r2 as [|[|[|r2]]]; try (exfalso; lia). reflexivity.
Qed.

Lemma contribution_rank_lt_binary64 (base : Z) (p : float) (r1 r2 : nat) :
  In base [100; 10; 150; 15; 5] ->
  (0 <? p)%float = true -> (p <=? 1)%float = true ->
  (r1 < r2)%nat -> (r1 < 3)%nat ->
  (float_of_Z base * p * float_of_Z (rankWeight r2)
   <? float_of_Z base * p * float_of_Z (rankWeight r1))%float = true.
Proof.
  intros Hbase H0 H1 H12 H3.
  destruct (base_mul_probability base p Hbase H0 H1) as [mx [ex [Hx Hex]]].
  destruct (weight_mul _ mx ex r1 Hx Hex) as [m1 [e1 [Hy1 Hv1]]].
  destruct (weight_mul _ mx ex r2 Hx Hex) as [m2 [e2 [Hy2 Hv2]]].
  rewrite ltb_spec, Hy1, Hy2.
  apply SFltb_val.
  - pose proof (Prim2SF_valid (float_of_Z base * p * float_of_Z (rankWeight r2))) as Hv.
    rewrite Hy2 in Hv. exact Hv.
  - pose proof (Prim2SF_valid (float_of_Z base * p * float_of_Z (rankWeight r1))) as Hv.
    rewrite Hy1 in Hv. exact Hv.
  - assert (HX : 0 < val mx ex).
    { unfold val. apply Z.mul_pos_pos; [reflexivity|].
      apply pow2_pos.
      pose proof (Prim2SF_valid (float_of_Z base * p)) as Hv. rewrite Hx in Hv.
      destruct (bounded_facts mx ex Hv) as [He _]. clear - He. lia. }
    change (2 ^ 53) with 9007199254740992 in Hv1, Hv2.
    clear - Hv1 Hv2 HX H12 H3.
    generalize dependent (val mx ex). generalize (val m1 e1) (val m2 e2).
    intros Y1 Y2 X Hv1 Hv2 HX.
    destruct r1 as [|[|[|r1]]]; try (exfalso; clear - H3; lia);
      destruct r2 as [|[|[|r2]]]; try (exfalso; clear - H12; lia);
      cbn [rankWeight] in *; lia.
Qed.

End Binary64Facts.

(** * The engine on concrete inputs *)

Section Concrete.

Import Sample.

(** The example of the specification: the mug is returned, the kettle is
    not. *)
Example coffee_mug_example :
  map name (findMatchingProducts [coffeeMug] [kettle; mug] 50) = ["Item A"]
  /\ score (calculateSimilarity [coffeeMug] kettle) = 0%float.
Proof. split; vm_compute; reflexivity. Qed.

(** A product whose only matches are partial ones, of the tag "coffeemug"
    with "coffee", scores below 100 and is left out of the ranked result. *)
Example weak_partial_match_excluded :
  nltb (score (calculateSimilarity [coffeeMug] travelMug)) (lit 100) = true
  /\ map name (findMatchingProducts [coffeeMug] [travelMug; mug] 50)
     = ["Item A"].
Proof. split; vm_compute; reflexivity. Qed.

Example tokenize_label :
  tokenizeClassName "Coffee Mug, cup"
  = ["coffee mug, cup"; "coffee"; "mug"; "cup"].
Proof. reflexivity. Qed.

(** C1 fails for a negative limit: [slice(0, -1)] keeps all but the last
    item, where the claim has no item at all. *)
Lemma fallback_negative_limit :
  findMatchingProducts [] [mug; kettle] (-1)
  <> firstn (Z.to_nat (Z.min (-1) (Z.of_nat (List.length [mug; kettle]))))
            [mug; kettle].
Proof. vm_compute. discriminate. Qed.

Lemma fallback_on_no_predictions_witness :
  findMatchingProducts [] [mug; kettle] 1
  = firstn (Z.to_nat (Z.min 1 (Z.of_nat (List.length [mug; kettle]))))
           [mug; kettle].
Proof. apply (fallback_on_no_predictions [mug; kettle] 1). lia. Defined.

(** C9 fails for a negative limit: one item is returned for the limit -1. *)
Lemma length_exceeds_negative_limit :
  ~ (Z.of_nat (List.length (findMatchingProducts [] [mug; kettle] (-1)))
     <= -1)%Z.
Proof.
  assert (E : List.length (findMatchingProducts [] [mug; kettle] (-1)) = 1)
    by (vm_compute; reflexivity).
  rewrite E. lia.
Qed.

Lemma result_length_at_most_limit_witness :
  (Z.of_nat (List.length (findMatchingProducts [coffeeMug] [kettle; mug] 1))
   <= 1)%Z.
Proof. apply (result_length_at_most_limit [coffeeMug] [kettle; mug] 1). lia. Defined.

Lemma ranked_results_score_at_least_100_witness :
  (forall p, In p (findMatchingProducts [coffeeMug] [kettle; mug] 50) ->
             ngeb (score (calculateSimilarity [coffeeMug] p)) (lit 100) = true)
  /\ (forall p, nltb (score (calculateSimilarity [coffeeMug] p)) (lit 100) = true ->
                ~ In p (findMatchingProducts [coffeeMug] [kettle; mug] 50)).
Proof.
  apply (ranked_results_score_at_least_100 [coffeeMug] [kettle; mug] 50).
  vm_compute. discriminate.
Defined.

(** C8 fails for the empty category: the input is returned unchanged,
    although no product has the empty category. *)
Lemma filterByCategory_empty_category :
  "" <> "all"
  /\ filterByCategory [shoe] ""
     <> filter (fun p => String.eqb (category p) "") [shoe].
Proof. split; [discriminate | vm_compute; discriminate]. Qed.

Lemma filterByCategory_spec_witness :
  filterByCategory [mug; kettle] "all" = [mug; kettle]
  /\ filterByCategory [mug; kettle] "drinks"
     = filter (fun p => String.eqb (category p) "drinks") [mug; kettle].
Proof.
  split.
  - apply (proj1 (filterByCategory_spec [mug; kettle] "all")). now left.
  - apply (proj2 (filterByCategory_spec [mug; kettle] "drinks"));
      discriminate.
Defined.

(** C10 fails for the empty string: it has no separator, and its only token
    is the empty string, once. *)
Lemma tokenize_empty_once :
  noSeparator (trim "") = true
  /\ tokenizeClassName "" = [""]
  /\ tokenizeClassName "" <> [toLowerCase (trim ""); toLowerCase (trim "")].
Proof. repeat split; try reflexivity. vm_compute. discriminate. Qed.

Lemma single_word_tokenized_twice_witness :
  tokenizeClassName "  Cat " = ["cat"; "cat"]
  /\ forall (pw : PredictionWord float) (st : Acc float),
       word pw = "cat" ->
       accScore (scoreTags [pw] ["  Cat "] st)
       = nadd (nadd (accScore st) (contribution 100 pw)) (contribution 100 pw).
Proof.
  apply (single_word_tokenized_twice (N := float) "  Cat ").
  - vm_compute. discriminate.
  - reflexivity.
Defined.

Lemma partial_match_gate_witness :
  accScore (tagStep "coffeemug" "coffeemug" (entry "coffee" half 0) start)
  = nadd (accScore start) (contribution 10 (entry "coffee" half 0))
  /\ accScore (nameStep "coffeemug" (entry "coffee" half 0) start)
     = nadd (accScore start) (contribution 15 (entry "coffee" half 0)).
Proof.
  apply (proj1 (proj2 (partial_match_gate "coffeemug" "coffeemug"
                         (entry "coffee" half 0) start))).
  split; [left; exists "", "mug"; reflexivity|].
  split; [discriminate|]. split; simpl; lia.
Defined.

(** C4 fails for the ranks 3 and 4, which have the same weight, for the
    confidence 0, which contributes 0 at every rank, and for a confidence
    so large that both contributions are infinite. *)
Lemma rank_3_and_4_equal_contribution :
  matchKind "shoe" "shoe" = ExactMatch
  /\ accScore (tagStep "shoe" "shoe" (entry "shoe" half 3) start) = 100%float
  /\ accScore (tagStep "shoe" "shoe" (entry "shoe" half 4) start) = 100%float
  /\ ngtb (accScore (tagStep "shoe" "shoe" (entry "shoe" half 3) start))
          (accScore (tagStep "shoe" "shoe" (entry "shoe" half 4) start))
     = false
  /\ ngtb (accScore (tagStep "shoe" "shoe" (entry "shoe" 0%float 0) start))
          (accScore (tagStep "shoe" "shoe" (entry "shoe" 0%float 1) start))
     = false
  /\ ngtb (accScore (tagStep "shoe" "shoe" (entry "shoe" 0x1p1020%float 0) start))
          (accScore (tagStep "shoe" "shoe" (entry "shoe" 0x1p1020%float 1) start))
     = false.
Proof. repeat split; vm_compute; reflexivity. Qed.

(** C5 fails when the matching token has 2 characters or less (it is not in
    the index), when the confidence is 0, when the prediction is added in
    front (the earlier predictions lose rank), and, in binary64, when the
    contribution is absorbed by the rounding of the sum. *)
Lemma matching_prediction_without_gain :
  (In "tv" (tokenizeClassName "tv") /\ In "tv" (tags television)
   /\ score (calculateSimilarity [] television) = 0%float
   /\ score (calculateSimilarity ([] ++ [mkPrediction "tv" half]) television)
      = 0%float)
  /\ (In "shoe" (tokenizeClassName "shoe") /\ In "shoe" (tags shoe)
      /\ score (calculateSimilarity ([] ++ [mkPrediction "shoe" 0%float]) shoe)
         = 0%float)
  /\ (score (calculateSimilarity [mkPrediction "shoe" 1%float] shoe)
      = 2000%float
      /\ score (calculateSimilarity
                  (mkPrediction "shoe" 0.125%float :: [mkPrediction "shoe" 1%float])
                  shoe)
         = 1850%float)
  /\ score (calculateSimilarity
              ([mkPrediction "shoe" 1%float] ++ [mkPrediction "shoe" 0x1p-60%float])
              shoe)
     = 2000%float.
Proof.
  repeat split; try (vm_compute; reflexivity); simpl; auto.
Qed.

End Concrete.

(** * Further properties of the tokenizer *)

Section MoreStringFacts.

Local Open Scope string_scope.

Lemma lowerChar_idempotent (c : ascii) : lowerChar (lowerChar c) = lowerChar c.
Proof. destruct c as [[] [] [] [] [] [] [] []]; reflexivity. Qed.

Lemma toLowerCase_idempotent (s : string) :
  toLowerCase (toLowerCase s) = toLowerCase s.
Proof.
  induction s as [|c s IH]; simpl; [reflexivity|].
  now rewrite lowerChar_idempotent, IH.
Qed.

Lemma trimStart_toLowerCase (s : string) :
  trimStart (toLowerCase s) = toLowerCase (trimStart s).
Proof.
  induction s as [|c s IH]; simpl; [reflexivity|].
  rewrite isWhiteSpace_lowerChar. now destruct (isWhiteSpace c).
Qed.

Lemma trimEnd_toLowerCase (s : string) :
  trimEnd (toLowerCase s) = toLowerCase (trimEnd s).
Proof.
  induction s as [|c s IH]; simpl; [reflexivity|].
  rewrite IH, isWhiteSpace_lowerChar, toLowerCase_isEmpty.
  now destruct (isWhiteSpace c && isEmpty (trimEnd s)).
Qed.

(** Trimming and lower-casing commute. *)
Lemma trim_toLowerCase (s : string) :
  trim (toLowerCase s) = toLowerCase (trim s).
Proof. unfold trim. now rewrite trimStart_toLowerCase, trimEnd_toLowerCase. Qed.

Lemma trimEnd_idempotent (s : string) : trimEnd (trimEnd s) = trimEnd s.
Proof.
  induction s as [|c s IH]; simpl; [reflexivity|].
  destruct (isWhiteSpace c && isEmpty (trimEnd s)) eqn:E; [reflexivity|].
  simpl. now rewrite IH, E.
Qed.

(** A string that is empty or starts with a character other than white
    space. *)
Lemma trimStart_fixed (s : string) :
  match s with
  | EmptyString => True
  | String c _ => isWhiteSpace c = false
  end ->
  trimStart s = s.
Proof. destruct s as [|c s]; simpl; [reflexivity|]. now intros ->. Qed.

Lemma trimStart_head (s : string) :
  match trimStart s with
  | EmptyString => True
  | String c _ => isWhiteSpace c = false
  end.
Proof.
  induction s as [|c s IH]; simpl; [exact I|].
  destruct (isWhiteSpace c) eqn:E; [exact IH | exact E].
Qed.

Lemma trimEnd_head (s : string) :
  match s with
  | EmptyString => True
  | String c _ => isWhiteSpace c = false
  end ->
  match trimEnd s with
  | EmptyString => True
  | String c _ => isWhiteSpace c = false
  end.
Proof.
  destruct s as [|c s]; simpl; [trivial|]. intros E. rewrite E. exact E.
Qed.

Lemma trim_idempotent (s : string) : trim (trim s) = trim s.
Proof.
  unfold trim.
  rewrite (trimStart_fixed (trimEnd (trimStart s)))
    by (apply trimEnd_head, trimStart_head).
  apply trimEnd_idempotent.
Qed.

Lemma isEmpty_true (s : string) : isEmpty s = true <-> s = "".
Proof. destruct s; simpl; split; congruence. Qed.

Lemma noSeparator_append (a b : string) :
  noSeparator (a ++ b) = noSeparator a && noSeparator b.
Proof.
  induction a as [|c a IH]; simpl; [reflexivity|].
  now rewrite IH, andb_assoc.
Qed.

(** The pieces of a split have no separator in them. *)
Lemma splitAux_noSeparator (s cur : string) (b : bool) (w : string) :
  noSeparator cur = true -> In w (splitAux s cur b) -> noSeparator w = true.
Proof.
  revert cur b. induction s as [|c s IH]; intros cur b Hcur; simpl.
  - intros [<-|[]]. exact Hcur.
  - destruct (isSeparator c) eqn:Ec.
    + destruct b.
      * now apply IH.
      * intros [<-|Hin]; [exact Hcur | now apply (IH "" true)].
    + apply IH. rewrite noSeparator_append, Hcur. simpl. now rewrite Ec.
Qed.

Lemma split_noSeparator (s w : string) :
  In w (split s) -> noSeparator w = true.
Proof. now apply splitAux_noSeparator. Qed.

(** The pieces of the split of a lower-case string are lower-case. *)
Lemma splitAux_lowerCase (s cur : string) (b : bool) (w : string) :
  toLowerCase cur = cur -> toLowerCase s = s ->
  In w (splitAux s cur b) -> toLowerCase w = w.
Proof.
  revert cur b. induction s as [|c s IH]; intros cur b Hcur Hs; simpl.
  - intros [<-|[]]. exact Hcur.
  - simpl in Hs. injection Hs as Hc Hs.
    destruct (isSeparator c).
    + destruct b.
      * now apply IH.
      * intros [<-|Hin]; [exact Hcur | now apply (IH "" true)].
    + apply IH; [|exact Hs].
      rewrite toLowerCase_append, Hcur. simpl. now rewrite Hc.
Qed.

(** The words of [tokenizeClassName] are the pieces of the split that are
    not empty: trimming them changes nothing. *)
Lemma tokenize_parts (s : string) :
  tl (tokenizeClassName s)
  = filter (fun w => negb (isEmpty w)) (split (toLowerCase s)).
Proof.
  unfold tokenizeClassName. cbn [tl]. f_equal.
  rewrite <- (map_id (split (toLowerCase s))) at 2.
  apply map_ext_in. intros w Hw.
  apply trim_noSeparator. now apply split_noSeparator in Hw.
Qed.

End MoreStringFacts.

Section TokenizerMore.

Local Open Scope string_scope.

Lemma tokenizeClassName_toLowerCase (s : string) :
  tokenizeClassName (toLowerCase s) = tokenizeClassName s.
Proof.
  unfold tokenizeClassName.
  now rewrite trim_toLowerCase, !toLowerCase_idempotent.
Qed.

(** X1: [tokenizeClassName] does not depend on the case of its input: the
    lower-cased string has the same tokens, and so has every string that
    differs from it in case only. *)
Theorem tokenize_case_insensitive (s t : string) :
  (toLowerCase s = toLowerCase t -> tokenizeClassName s = tokenizeClassName t)
  /\ tokenizeClassName (toLowerCase s) = tokenizeClassName s.
Proof.
  split; [|apply tokenizeClassName_toLowerCase].
  intros E. rewrite <- (tokenizeClassName_toLowerCase s), E.
  apply tokenizeClassName_toLowerCase.
Qed.

(** X2: every token of [tokenizeClassName] is lower-case, and every token
    after the first (the words) is non-empty and has no white space and no
    comma in it. *)
Theorem tokens_normalized (s : string) :
  Forall (fun w => toLowerCase w = w) (tokenizeClassName s)
  /\ Forall (fun w => w <> "" /\ noSeparator w = true)
            (tl (tokenizeClassName s)).
Proof.
  split.
  - assert (Hcons : tokenizeClassName s
                    = toLowerCase (trim s) :: tl (tokenizeClassName s))
      by reflexivity.
    rewrite Hcons. constructor; [apply toLowerCase_idempotent|].
    rewrite tokenize_parts. apply Forall_forall. intros w Hw.
    apply filter_In in Hw. destruct Hw as [Hw _].
    apply (splitAux_lowerCase (toLowerCase s) "" false w);
      [reflexivity | apply toLowerCase_idempotent | exact Hw].
  - rewrite tokenize_parts. apply Forall_forall. intros w Hw.
    apply filter_In in Hw. destruct Hw as [Hw Hne]. split.
    + intros ->. discriminate.
    + now apply split_noSeparator in Hw.
Qed.

End TokenizerMore.

(** * Further properties of the scorer *)

Section ScorerMore.

Context {N : Type} `{Number N}.

Local Open Scope string_scope.

Lemma forEach_id_in {A St : Type} (f : A -> St -> St) (l : list A) (st : St) :
  (forall x s, In x l -> f x s = s) -> forEach f l st = st.
Proof.
  revert st. induction l as [|x l IH]; intros st Hf; [reflexivity|].
  rewrite forEach_cons, Hf by now left.
  apply IH. intros y s Hy. apply Hf. now right.
Qed.

Lemma forEach_invariant {A St : Type} (P : St -> Prop) (f : A -> St -> St)
    (l : list A) (st : St) :
  (forall x s, In x l -> P s -> P (f x s)) -> P st -> P (forEach f l st).
Proof.
  revert st. induction l as [|x l IH]; intros st Hf Hst; [exact Hst|].
  rewrite forEach_cons. apply IH.
  - intros y s Hy. apply Hf. now right.
  - apply Hf; [now left | exact Hst].
Qed.

(** X3: a product none of whose tag words and name words matches a word of
    the index, exactly or partially, and whose category neither contains
    nor is contained in one, scores exactly 0 and has no matched tag. *)
Theorem no_overlap_scores_zero (predictions : list (Prediction N))
    (p : Product N) :
  (forall pw, In pw (buildPredictionWords predictions) ->
     (forall tag tw, In tag (tags p) -> In tw (tokenizeClassName tag) ->
                     matchKind tw (word pw) = NoMatch)
     /\ (forall nw, In nw (tokenizeClassName (name p)) ->
                    matchKind nw (word pw) = NoMatch)
     /\ includes (toLowerCase (category p)) (word pw)
        || includes (word pw) (toLowerCase (category p)) = false) ->
  calculateSimilarity predictions p
  = {| product := p; score := lit 0; matchedTags := [] |}.
Proof.
  intros Hno. unfold calculateSimilarity.
  set (index := buildPredictionWords predictions) in *.
  set (st0 := {| accScore := lit 0; accMatched := [] |}).
  assert (Ht : scoreTags index (tags p) st0 = st0).
  { unfold scoreTags. apply forEach_id_in. intros tag s Htag.
    apply forEach_id_in. intros tw s' Htw.
    apply forEach_id_in. intros pw s'' Hpw. unfold tagStep.
    now rewrite (proj1 (Hno pw Hpw) tag tw Htag Htw). }
  assert (Hn : scoreName index (name p) st0 = st0).
  { unfold scoreName. apply forEach_id_in. intros nw s Hnw.
    apply forEach_id_in. intros pw s' Hpw. unfold nameStep.
    now rewrite (proj1 (proj2 (Hno pw Hpw)) nw Hnw). }
  assert (Hc : scoreCategory index (category p) st0 = st0).
  { unfold scoreCategory. apply forEach_id_in. intros pw s Hpw.
    unfold categoryStep. now rewrite (proj2 (proj2 (Hno pw Hpw))). }
  rewrite Ht, Hn, Hc. reflexivity.
Qed.

Lemma arrayIncludes_In (l : list string) (s : string) :
  arrayIncludes l s = true <-> In s l.
Proof.
  unfold arrayIncludes. rewrite existsb_exists. split.
  - intros [x [Hx E]]. apply String.eqb_eq in E. now subst x.
  - intros Hs. exists s. split; [exact Hs | apply String.eqb_refl].
Qed.

Lemma dedupFrom_spec (seen l : list string) :
  NoDup (dedupFrom seen l)
  /\ forall x, In x (dedupFrom seen l) <-> In x l /\ ~ In x seen.
Proof.
  revert seen. induction l as [|y l IH]; intros seen; simpl.
  - split; [constructor | tauto].
  - destruct (arrayIncludes seen y) eqn:E.
    + apply arrayIncludes_In in E. destruct (IH seen) as [Hnd Hin].
      split; [exact Hnd|]. intros x. rewrite Hin. split.
      * tauto.
      * intros [[->|Hx] Hs]; [contradiction | tauto].
    + assert (Hy : ~ In y seen).
      { intros Hy. apply arrayIncludes_In in Hy. congruence. }
      destruct (IH (seen ++ [y])%list) as [Hnd Hin]. split.
      * constructor; [|exact Hnd]. rewrite Hin, in_app_iff. simpl. tauto.
      * intros x. simpl. rewrite Hin, in_app_iff. simpl.
        destruct (string_dec y x) as [->|Hne]; tauto.
Qed.

(** [[...new Set(l)]] has the elements of [l], each once. *)
Lemma dedup_spec (l : list string) :
  NoDup (dedup l) /\ forall x, In x (dedup l) <-> In x l.
Proof.
  destruct (dedupFrom_spec [] l) as [Hnd Hin]. split; [exact Hnd|].
  intros x. unfold dedup. rewrite Hin. simpl. tauto.
Qed.

(** X4: the matched tags of a result have no duplicates, and each is a tag
    of the product or "name:" followed by a token of its name. *)
Theorem matchedTags_provenance (predictions : list (Prediction N))
    (p : Product N) :
  NoDup (matchedTags (calculateSimilarity predictions p))
  /\ forall x, In x (matchedTags (calculateSimilarity predictions p)) ->
       In x (tags p)
       \/ exists nw, In nw (tokenizeClassName (name p)) /\ x = "name:" ++ nw.
Proof.
  unfold calculateSimilarity. cbn [matchedTags].
  set (index := buildPredictionWords predictions).
  set (Q := fun x : string =>
              In x (tags p)
              \/ exists nw, In nw (tokenizeClassName (name p))
                            /\ x = "name:" ++ nw).
  set (P := fun st : Acc N => forall x, In x (accMatched st) -> Q x).
  assert (HP : P (scoreCategory index (category p)
                    (scoreName index (name p)
                       (scoreTags index (tags p)
                          {| accScore := lit 0; accMatched := [] |})))).
  { unfold scoreCategory. apply forEach_invariant.
    { intros pw s _ Hs. unfold categoryStep.
      destruct (includes (toLowerCase (category p)) (word pw)
                || includes (word pw) (toLowerCase (category p)));
        exact Hs. }
    unfold scoreName. apply forEach_invariant.
    { intros nw s Hnw Hs. apply forEach_invariant; [|exact Hs].
      intros pw s' _ Hs'. unfold nameStep.
      assert (Hq : Q ("name:" ++ nw)) by (right; now exists nw).
      destruct (matchKind nw (word pw)); [| |exact Hs'];
        intros x; cbn [accMatched];
        try destruct (arrayIncludes (accMatched s') ("name:" ++ nw));
        try rewrite in_app_iff; simpl;
        intros Hx; try (now apply Hs');
        (destruct Hx as [Hx|[<-|[]]]; [now apply Hs' | exact Hq]). }
    unfold scoreTags. apply forEach_invariant.
    { intros tag s Htag Hs. apply forEach_invariant; [|exact Hs].
      intros tw s' _ Hs'. apply forEach_invariant; [|exact Hs'].
      intros pw s'' _ Hs''. unfold tagStep.
      assert (Hq : Q tag) by now left.
      destruct (matchKind tw (word pw)); [| |exact Hs''];
        intros x; cbn [accMatched];
        try destruct (arrayIncludes (accMatched s'') tag);
        try rewrite in_app_iff; simpl;
        intros Hx; try (now apply Hs'');
        (destruct Hx as [Hx|[<-|[]]]; [now apply Hs'' | exact Hq]). }
    intros x []. }
  destruct (dedup_spec
              (accMatched
                 (scoreCategory index (category p)
                    (scoreName index (name p)
                       (scoreTags index (tags p)
                          {| accScore := lit 0; accMatched := [] |})))))
    as [Hnd Hin].
  split; [exact Hnd|]. intros x Hx. apply Hin in Hx. exact (HP x Hx).
Qed.

End ScorerMore.

Section CaseFacts.

Context {N : Type} `{Number N}.

Lemma specEntries_formatted (r : nat) (pred : Prediction N) :
  specEntries r {| className := toLowerCase (className pred);
                   probability := probability pred |}
  = specEntries r pred.
Proof.
  unfold specEntries. cbn [className probability].
  now rewrite tokenizeClassName_toLowerCase.
Qed.

Lemma index_formatted (predictions : list (Prediction N)) (i : nat) :
  flat_map (fun rp => specEntries (fst rp) (snd rp))
    (combine (seq i (List.length (Classifier.formatPredictions predictions)))
             (Classifier.formatPredictions predictions))
  = flat_map (fun rp => specEntries (fst rp) (snd rp))
      (combine (seq i (List.length predictions)) predictions).
Proof.
  revert i. induction predictions as [|pred predictions IH]; intros i.
  - reflexivity.
  - cbn [Classifier.formatPredictions map List.length seq combine flat_map
         fst snd].
    rewrite specEntries_formatted. f_equal. apply IH.
Qed.

(** X5: the lower-casing of the labels by [classifyImage] changes no
    result of the scorer: the formatted predictions score every product as
    the unformatted ones do. *)
Theorem formatted_predictions_score_alike (predictions : list (Prediction N))
    (p : Product N) :
  calculateSimilarity (Classifier.formatPredictions predictions) p
  = calculateSimilarity predictions p.
Proof.
  unfold calculateSimilarity.
  rewrite !buildPredictionWords_specIndex. unfold specIndex.
  now rewrite index_formatted.
Qed.

Lemma flat_map_map_tokens {B : Type} (f : string -> list B) (l : list string) :
  flat_map (fun tag => f tag) (map toLowerCase l)
  = flat_map (fun tag => f (toLowerCase tag)) l.
Proof.
  induction l as [|x l IH]; simpl; [reflexivity|]. now rewrite IH.
Qed.

(** X6: the score does not depend on the case of the name, the tags and the
    category of the product. *)
Theorem score_ignores_product_case (predictions : list (Prediction N))
    (p : Product N) :
  score (calculateSimilarity predictions
           {| id := id p;
              name := toLowerCase (name p);
              category := toLowerCase (category p);
              tags := map toLowerCase (tags p);
              description := description p;
              price := price p;
              image := image p |})
  = score (calculateSimilarity predictions p).
Proof.
  rewrite !score_is_sum. f_equal. unfold contributions.
  cbn [tags name category].
  rewrite tokenizeClassName_toLowerCase.
  rewrite (flat_map_map_tokens
             (fun tag =>
                flat_map
                  (fun tagWord =>
                     flat_map (pairContributions 100 10 tagWord)
                              (buildPredictionWords predictions))
                  (tokenizeClassName tag))).
  f_equal; [|f_equal].
  - apply flat_map_ext. intros tag. now rewrite tokenizeClassName_toLowerCase.
  - apply flat_map_ext. intros pw. unfold categoryContributions.
    now rewrite toLowerCase_idempotent.
Qed.

End CaseFacts.

(** * Further properties of the ranking *)

Section RankingMore.

Context {N : Type} `{Number N}.

Lemma findMatchingProducts_In (predictions : list (Prediction N))
    (catalog : list (Product N)) (limit : Z) (p : Product N) :
  In p (findMatchingProducts predictions catalog limit) -> In p catalog.
Proof.
  unfold findMatchingProducts.
  destruct (List.length (rankedProducts predictions catalog limit) =? 0).
  - apply slice0_In.
  - unfold rankedProducts. intros Hin.
    apply in_map_iff in Hin. destruct Hin as [item [Hp Hin]].
    apply slice0_In, sortBy_In, filter_In in Hin. destruct Hin as [Hin _].
    apply sortBy_In, filter_In in Hin. destruct Hin as [Hin _].
    apply in_map_iff in Hin. destruct Hin as [q [Hq Hcat]].
    subst item. rewrite product_calculateSimilarity in Hp. now subst q.
Qed.

(** X7: [findMatchingProducts] returns products of the catalog only, and
    no more of them than the catalog has, on the ranked path and on the
    fallback path, for every limit. *)
Theorem results_from_catalog (predictions : list (Prediction N))
    (catalog : list (Product N)) (limit : Z) :
  incl (findMatchingProducts predictions catalog limit) catalog
  /\ List.length (findMatchingProducts predictions catalog limit)
     <= List.length catalog.
Proof.
  split; [intros p; apply findMatchingProducts_In|].
  assert (Hslice : forall (A : Type) (l : list A),
            List.length (slice0 l limit) <= List.length l).
  { intros A l. unfold slice0. rewrite length_firstn. lia. }
  unfold findMatchingProducts.
  destruct (List.length (rankedProducts predictions catalog limit) =? 0);
    [apply Hslice|].
  unfold rankedProducts. rewrite length_map.
  etransitivity; [apply Hslice|].
  rewrite sortBy_length.
  etransitivity; [apply filter_length_le|].
  rewrite sortBy_length.
  etransitivity; [apply filter_length_le|].
  now rewrite length_map.
Qed.

Lemma filter_none {A : Type} (f : A -> bool) (l : list A) :
  (forall x, In x l -> f x = false) -> filter f l = [].
Proof.
  induction l as [|x l IH]; intros Hf; simpl; [reflexivity|].
  rewrite (Hf x) by now left. apply IH. intros y Hy. apply Hf. now right.
Qed.

Lemma rankedProducts_none (predictions : list (Prediction N))
    (catalog : list (Product N)) (limit : Z) :
  (forall p, In p catalog ->
             ngeb (score (calculateSimilarity predictions p)) (lit 100)
             = false) ->
  rankedProducts predictions catalog limit = [].
Proof.
  intros Hlow. unfold rankedProducts.
  rewrite (filter_none (fun item => ngeb (score item) (lit 100))).
  - unfold slice0. simpl. now rewrite firstn_nil.
  - intros item Hitem. apply in_map_iff in Hitem.
    destruct Hitem as [p [<- Hp]]. now apply Hlow.
Qed.

(** X8: when no product of the catalog scores at least 100, whatever the
    predictions, [findMatchingProducts] returns [allProducts.slice(0,
    limit)]: the catalog in its order, cut at the limit. *)
Theorem fallback_when_no_product_qualifies (predictions : list (Prediction N))
    (catalog : list (Product N)) (limit : Z) :
  (forall p, In p catalog ->
             ngeb (score (calculateSimilarity predictions p)) (lit 100)
             = false) ->
  findMatchingProducts predictions catalog limit = slice0 catalog limit.
Proof.
  intros Hlow. unfold findMatchingProducts.
  now rewrite rankedProducts_none.
Qed.

Lemma forEachFrom_id {A St : Type} (f : A -> nat -> St -> St) (l : list A)
    (i : nat) (st : St) :
  (forall x j s, In x l -> f x j s = s) -> forEachFrom f l i st = st.
Proof.
  revert i st. induction l as [|x l IH]; intros i st Hf; [reflexivity|].
  cbn [forEachFrom]. rewrite Hf by now left.
  apply IH. intros y j s Hy. apply Hf. now right.
Qed.

(** Labels without a token of more than 2 characters leave the index
    empty. *)
Lemma short_labels_empty_index (predictions : list (Prediction N)) :
  (forall pred w, In pred predictions ->
                  In w (tokenizeClassName (className pred)) ->
                  String.length w <= 2) ->
  buildPredictionWords predictions = [].
Proof.
  intros Hshort. unfold buildPredictionWords. apply forEachFrom_id.
  intros pred j acc Hpred. unfold pushWords. apply forEach_id_in.
  intros w s Hw.
  destruct (2 <? String.length w) eqn:E; [|reflexivity].
  apply Nat.ltb_lt in E. specialize (Hshort pred w Hpred Hw). lia.
Qed.

End RankingMore.

Section ShortLabels.

Context {N : Type} `{NumberLaws N}.

(** X9: predictions whose labels have no token of more than 2 characters
    count for nothing: the result is that of the empty prediction list, the
    catalog cut at the limit. *)
Theorem short_labels_fall_back (predictions : list (Prediction N))
    (catalog : list (Product N)) (limit : Z) :
  (forall pred w, In pred predictions ->
                  In w (tokenizeClassName (className pred)) ->
                  String.length w <= 2) ->
  findMatchingProducts predictions catalog limit = slice0 catalog limit.
Proof.
  intros Hshort. unfold findMatchingProducts.
  rewrite rankedProducts_none; [reflexivity|]. intros p _.
  rewrite score_is_sum, (short_labels_empty_index predictions Hshort).
  rewrite contributions_empty_index. apply geb_0_100.
Qed.

End ShortLabels.

(** * The order of the ranked result *)

Section SortOrder.

Context {N : Type} `{Number N}.

Lemma sortInsert_Permutation (cmp : MatchScore N -> MatchScore N -> N)
    (x : MatchScore N) (l : list (MatchScore N)) :
  Permutation (sortInsert cmp x l) (x :: l).
Proof.
  induction l as [|y l IH]; simpl; [reflexivity|].
  destruct (ngtb (cmp x y) (lit 0)); [|reflexivity].
  rewrite IH. apply perm_swap.
Qed.

Lemma sortBy_Permutation (cmp : MatchScore N -> MatchScore N -> N)
    (l : list (MatchScore N)) :
  Permutation (sortBy cmp l) l.
Proof.
  induction l as [|x l IH]; simpl; [reflexivity|].
  rewrite sortInsert_Permutation. now constructor.
Qed.

Lemma filter_all {A : Type} (f : A -> bool) (l : list A) :
  Forall (fun x => f x = true) l -> filter f l = l.
Proof.
  induction 1 as [|x l Hx _ IH]; simpl; [reflexivity|].
  now rewrite Hx, IH.
Qed.

Lemma filter_map_comm {A B : Type} (g : A -> B) (f : B -> bool) (l : list A) :
  filter f (map g l) = map g (filter (fun x => f (g x)) l).
Proof.
  induction l as [|x l IH]; simpl; [reflexivity|].
  destruct (f (g x)); simpl; now rewrite IH.
Qed.

Lemma StronglySorted_firstn {A : Type} (R : A -> A -> Prop) (k : nat)
    (l : list A) :
  StronglySorted R l -> StronglySorted R (firstn k l).
Proof.
  intros Hs. revert k. induction Hs as [|x l Hs IH Hx]; intros [|k]; simpl;
    try constructor.
  - apply IH.
  - rewrite Forall_forall in *. intros y Hy. apply Hx.
    revert Hy. apply In_firstn.
Qed.

Lemma StronglySorted_split {A : Type} (R : A -> A -> Prop) (l1 l2 : list A) :
  StronglySorted R (l1 ++ l2) ->
  forall a b, In a l1 -> In b l2 -> R a b.
Proof.
  induction l1 as [|x l1 IH]; simpl; intros Hs a b Ha Hb; [contradiction|].
  apply StronglySorted_inv in Hs. destruct Hs as [Hs Hx].
  destruct Ha as [<-|Ha].
  - rewrite Forall_forall in Hx. apply Hx, in_or_app. now right.
  - now apply (IH Hs).
Qed.

Lemma StronglySorted_map {A B : Type} (R : B -> B -> Prop) (g : A -> B)
    (l : list A) :
  StronglySorted (fun a b => R (g a) (g b)) l -> StronglySorted R (map g l).
Proof.
  induction 1 as [|x l Hs IH Hx]; simpl; constructor; [exact IH|].
  rewrite Forall_forall in *. intros y Hy. apply in_map_iff in Hy.
  destruct Hy as [a [<- Ha]]. now apply Hx.
Qed.

(** The scored items of a catalog are the scored versions of their
    products. *)
Lemma scored_items (predictions : list (Prediction N))
    (catalog : list (Product N)) (item : MatchScore N) :
  In item (map (calculateSimilarity predictions) catalog) ->
  item = calculateSimilarity predictions (product item)
  /\ In (product item) catalog.
Proof.
  intros Hin. apply in_map_iff in Hin. destruct Hin as [p [<- Hp]].
  now rewrite product_calculateSimilarity.
Qed.

End SortOrder.

Section RankingOrder.

Context {N : Type} `{RankingLaws N}.

Lemma sub_gtb_lt (x y : N) :
  ngeb x (lit 100) = true -> ngeb y (lit 100) = true ->
  ngtb (nsub y x) (lit 0) = true -> ngeb y x = true /\ ngeb x y = false.
Proof.
  intros Hx Hy Hgt.
  assert (Hxy : ngeb x y = false).
  { destruct (ngeb x y) eqn:E; [|reflexivity].
    apply (sub_not_gtb x y Hx Hy) in E. congruence. }
  split; [|exact Hxy].
  destruct (geb_total x y Hx Hy) as [E|E]; congruence.
Qed.

Lemma sortInsert_sorted (x : MatchScore N) (l : list (MatchScore N)) :
  ngeb (score x) (lit 100) = true ->
  Forall (fun i => ngeb (score i) (lit 100) = true) l ->
  StronglySorted (fun a b => ngeb (score a) (score b) = true) l ->
  StronglySorted (fun a b => ngeb (score a) (score b) = true)
                 (sortInsert byScoreDesc x l).
Proof.
  intros Hx Hok Hs. induction Hs as [|y l Hs IH Hy]; simpl.
  - constructor; constructor.
  - apply Forall_cons_iff in Hok. destruct Hok as [Hoky Hok].
    unfold byScoreDesc at 1.
    destruct (ngtb (nsub (score y) (score x)) (lit 0)) eqn:E.
    + apply (sub_gtb_lt _ _ Hx Hoky) in E. destruct E as [Hyx _].
      constructor; [now apply IH|].
      rewrite Forall_forall in *. intros z Hz.
      apply sortInsert_In in Hz. destruct Hz as [->|Hz]; [exact Hyx|].
      now apply Hy.
    + apply (sub_not_gtb _ _ Hx Hoky) in E.
      constructor; [now constructor|].
      constructor; [exact E|].
      rewrite Forall_forall in *. intros z Hz.
      apply (geb_trans _ (score y) _ Hx Hoky (Hok z Hz) E). now apply Hy.
Qed.

Lemma sortBy_qualified (l : list (MatchScore N)) :
  Forall (fun i => ngeb (score i) (lit 100) = true) l ->
  Forall (fun i => ngeb (score i) (lit 100) = true) (sortBy byScoreDesc l).
Proof.
  rewrite !Forall_forall. intros Hok i Hi. apply Hok.
  now apply sortBy_In in Hi.
Qed.

Lemma sortBy_sorted (l : list (MatchScore N)) :
  Forall (fun i => ngeb (score i) (lit 100) = true) l ->
  StronglySorted (fun a b => ngeb (score a) (score b) = true)
                 (sortBy byScoreDesc l).
Proof.
  induction 1 as [|x l Hx Hok IH]; simpl; [constructor|].
  apply sortInsert_sorted; [exact Hx | now apply sortBy_qualified | exact IH].
Qed.

(** The second filter of line 176 removes nothing, and the second sort
    finds its input sorted. *)
Lemma positive_filter_keeps (l : list (MatchScore N)) :
  Forall (fun i => ngeb (score i) (lit 100) = true) l ->
  filter (fun item => ngtb (score item) (lit 0)) l = l.
Proof.
  intros Hok. apply filter_all. revert Hok. apply Forall_impl.
  intros i. apply geb_100_gtb_0.
Qed.

Lemma qualified_filter (predictions : list (Prediction N))
    (catalog : list (Product N)) :
  Forall (fun i => ngeb (score i) (lit 100) = true)
         (filter (fun item => ngeb (score item) (lit 100))
                 (map (calculateSimilarity predictions) catalog)).
Proof. apply Forall_forall. intros i Hi. now apply filter_In in Hi. Qed.

Lemma tie_swap (c x y : N) (fx fy : bool) :
  ngeb c (lit 100) = true ->
  ngeb x (lit 100) = true -> ngeb y (lit 100) = true ->
  ngeb x y = false ->
  (ngeb x c && ngeb c x) && (ngeb y c && ngeb c y) = false.
Proof.
  intros Hc Hx Hy Hxy.
  destruct (ngeb x c) eqn:E1; [|reflexivity].
  destruct (ngeb c y) eqn:E2; [|now rewrite !andb_false_r].
  rewrite (geb_trans x c y Hx Hc Hy E1 E2) in Hxy. discriminate.
Qed.

(** Sorting is stable: it keeps the order of the items whose scores tie
    with [c]. *)
Lemma sortInsert_stable (c : N) (x : MatchScore N) (l : list (MatchScore N)) :
  ngeb c (lit 100) = true ->
  ngeb (score x) (lit 100) = true ->
  Forall (fun i => ngeb (score i) (lit 100) = true) l ->
  filter (fun i => ngeb (score i) c && ngeb c (score i))
         (sortInsert byScoreDesc x l)
  = filter (fun i => ngeb (score i) c && ngeb c (score i)) (x :: l).
Proof.
  intros Hc Hx Hok. induction Hok as [|y l Hy Hok IH]; [reflexivity|].
  cbn [sortInsert]. unfold byScoreDesc at 1.
  destruct (ngtb (nsub (score y) (score x)) (lit 0)) eqn:E; [|reflexivity].
  apply (sub_gtb_lt _ _ Hx Hy) in E. destruct E as [_ Hxy].
  pose proof (tie_swap c _ _ true true Hc Hx Hy Hxy) as Htie.
  cbn [filter] in *. rewrite IH.
  destruct (ngeb (score x) c && ngeb c (score x));
    destruct (ngeb (score y) c && ngeb c (score y));
    try reflexivity; discriminate.
Qed.

Lemma sortBy_stable (c : N) (l : list (MatchScore N)) :
  ngeb c (lit 100) = true ->
  Forall (fun i => ngeb (score i) (lit 100) = true) l ->
  filter (fun i => ngeb (score i) c && ngeb c (score i))
         (sortBy byScoreDesc l)
  = filter (fun i => ngeb (score i) c && ngeb c (score i)) l.
Proof.
  intros Hc. induction 1 as [|x l Hx Hok IH]; [reflexivity|].
  cbn [sortBy fold_right]. fold (sortBy byScoreDesc l).
  rewrite sortInsert_stable by (try assumption; now apply sortBy_qualified).
  cbn [filter]. now rewrite IH.
Qed.

Lemma slice0_map {A B : Type} (g : A -> B) (l : list A) (e : Z) :
  slice0 (map g l) e = map g (slice0 l e).
Proof. unfold slice0. now rewrite length_map, firstn_map. Qed.

Lemma slice0_split {A : Type} (l : list A) (e : Z) :
  exists rest, l = (slice0 l e ++ rest)%list.
Proof.
  unfold slice0. eexists. symmetry. apply firstn_skipn.
Qed.

Lemma map_product_scored (predictions : list (Prediction N))
    (l : list (Product N)) :
  map product (map (calculateSimilarity predictions) l) = l.
Proof.
  rewrite map_map. rewrite <- (map_id l) at 2. apply map_ext.
  intros p. apply product_calculateSimilarity.
Qed.

Lemma StronglySorted_impl_in {A : Type} (R1 R2 : A -> A -> Prop)
    (l : list A) :
  (forall a b, In a l -> In b l -> R1 a b -> R2 a b) ->
  StronglySorted R1 l -> StronglySorted R2 l.
Proof.
  intros Himpl Hs. induction Hs as [|x l Hs IH Hx]; constructor.
  - apply IH. intros a b Ha Hb. apply Himpl; now right.
  - rewrite Forall_forall in *. intros y Hy.
    apply Himpl; [now left | now right | now apply Hx].
Qed.

(** The array that line 178 slices, as products: the qualifying products
    of the catalog, by descending score, ties in the order of the
    catalog. *)
Lemma rankedProducts_slice (predictions : list (Prediction N))
    (catalog : list (Product N)) (limit : Z) :
  exists ranked : list (Product N),
    rankedProducts predictions catalog limit = slice0 ranked limit
    /\ StronglySorted
         (fun p q => ngeb (score (calculateSimilarity predictions p))
                          (score (calculateSimilarity predictions q)) = true)
         ranked
    /\ Permutation ranked
         (filter (fun p => ngeb (score (calculateSimilarity predictions p))
                                (lit 100)) catalog)
    /\ forall c, ngeb c (lit 100) = true ->
         filter (fun p => ngeb (score (calculateSimilarity predictions p)) c
                          && ngeb c (score (calculateSimilarity predictions p)))
                ranked
         = filter (fun p => ngeb (score (calculateSimilarity predictions p)) c
                          && ngeb c (score (calculateSimilarity predictions p)))
             (filter (fun p => ngeb (score (calculateSimilarity predictions p))
                                    (lit 100)) catalog).
Proof.
  pose proof (qualified_filter predictions catalog) as Hok.
  unfold rankedProducts.
  rewrite (positive_filter_keeps _ (sortBy_qualified _ Hok)).
  pose proof (sortBy_qualified _ (sortBy_qualified _ Hok)) as Hok2.
  pose proof (sortBy_sorted _ (sortBy_qualified _ Hok)) as Hs.
  assert (Hst : forall c, ngeb c (lit 100) = true ->
            filter (fun i => ngeb (score i) c && ngeb c (score i))
              (sortBy byScoreDesc (sortBy byScoreDesc
                 (filter (fun item => ngeb (score item) (lit 100))
                    (map (calculateSimilarity predictions) catalog))))
            = filter (fun i => ngeb (score i) c && ngeb c (score i))
                (filter (fun item => ngeb (score item) (lit 100))
                    (map (calculateSimilarity predictions) catalog))).
  { intros c Hc. rewrite sortBy_stable by (try assumption; now apply sortBy_qualified).
    now apply sortBy_stable. }
  assert (Hperm : Permutation
            (sortBy byScoreDesc (sortBy byScoreDesc
                 (filter (fun item => ngeb (score item) (lit 100))
                    (map (calculateSimilarity predictions) catalog))))
            (filter (fun item => ngeb (score item) (lit 100))
                    (map (calculateSimilarity predictions) catalog))).
  { now rewrite !sortBy_Permutation. }
  rewrite filter_map_comm in *.
  set (qs := filter (fun p => ngeb (score (calculateSimilarity predictions p))
                                   (lit 100)) catalog) in *.
  set (sorted := sortBy byScoreDesc (sortBy byScoreDesc
                   (map (calculateSimilarity predictions) qs))) in *.
  assert (Hitems : forall i, In i sorted ->
                     calculateSimilarity predictions (product i) = i).
  { intros i Hi. apply (Permutation_in _ Hperm) in Hi.
    apply in_map_iff in Hi. destruct Hi as [p [<- _]].
    now rewrite product_calculateSimilarity. }
  exists (map product sorted). split; [now rewrite slice0_map|]. split.
  { apply StronglySorted_map. revert Hs. apply StronglySorted_impl_in.
    intros a b Ha Hb. now rewrite (Hitems a Ha), (Hitems b Hb). }
  split.
  { rewrite <- (map_product_scored predictions qs).
    now apply Permutation_map. }
  intros c Hc. rewrite filter_map_comm.
  rewrite (filter_ext_in _ (fun i => ngeb (score i) c && ngeb c (score i))).
  - rewrite (Hst c Hc), filter_map_comm. apply map_product_scored.
  - intros i Hi. now rewrite (Hitems i Hi).
Qed.

Lemma ranked_path (predictions : list (Prediction N))
    (catalog : list (Product N)) (limit : Z) :
  rankedProducts predictions catalog limit <> [] ->
  findMatchingProducts predictions catalog limit
  = rankedProducts predictions catalog limit.
Proof.
  intros Hranked. unfold findMatchingProducts.
  destruct (rankedProducts predictions catalog limit) as [|q l];
    [congruence | reflexivity].
Qed.

(** X10: a ranked (non-fallback) result comes in the order of the scores,
    highest first: each returned product scores at least as much as every
    product after it. *)
Theorem ranked_by_descending_score (predictions : list (Prediction N))
    (catalog : list (Product N)) (limit : Z) :
  rankedProducts predictions catalog limit <> [] ->
  StronglySorted
    (fun p q => ngeb (score (calculateSimilarity predictions p))
                     (score (calculateSimilarity predictions q)) = true)
    (findMatchingProducts predictions catalog limit).
Proof.
  intros Hranked. rewrite (ranked_path _ _ _ Hranked).
  destruct (rankedProducts_slice predictions catalog limit)
    as [ranked [-> [Hs _]]].
  unfold slice0. now apply StronglySorted_firstn.
Qed.

(** X11: a ranked result holds the best products: a product of the
    catalog that scores at least 100 and is left out of the result scores
    no more than any product of the result. *)
Theorem ranked_results_are_the_best (predictions : list (Prediction N))
    (catalog : list (Product N)) (limit : Z) (p q : Product N) :
  rankedProducts predictions catalog limit <> [] ->
  In p (findMatchingProducts predictions catalog limit) ->
  In q catalog ->
  ngeb (score (calculateSimilarity predictions q)) (lit 100) = true ->
  ~ In q (findMatchingProducts predictions catalog limit) ->
  ngeb (score (calculateSimilarity predictions p))
       (score (calculateSimilarity predictions q)) = true.
Proof.
  intros Hranked. rewrite (ranked_path _ _ _ Hranked).
  destruct (rankedProducts_slice predictions catalog limit)
    as [ranked [-> [Hs [Hperm _]]]].
  intros Hp Hq Hge Hout.
  destruct (slice0_split ranked limit) as [rest Hsplit].
  rewrite Hsplit in Hs.
  apply (StronglySorted_split _ _ _ Hs); [exact Hp|].
  assert (Hin : In q ranked).
  { apply (Permutation_in _ (Permutation_sym Hperm)), filter_In. now split. }
  rewrite Hsplit in Hin. apply in_app_or in Hin. tauto.
Qed.

(** X12: the number of ranked products: with a limit that is not
    negative, [sortedProducts] holds as many products as the catalog has
    with a score of at least 100, up to the limit. *)
Theorem ranked_count (predictions : list (Prediction N))
    (catalog : list (Product N)) (limit : Z) :
  (0 <= limit)%Z ->
  List.length (rankedProducts predictions catalog limit)
  = Nat.min (Z.to_nat limit)
      (List.length
         (filter (fun p => ngeb (score (calculateSimilarity predictions p))
                                (lit 100)) catalog)).
Proof.
  intros Hlimit.
  destruct (rankedProducts_slice predictions catalog limit)
    as [ranked [-> [_ [Hperm _]]]].
  rewrite <- (Permutation_length Hperm).
  rewrite slice0_nonneg by exact Hlimit. rewrite length_firstn. lia.
Qed.

(** X13: with a limit of at least the number of products that score 100
    or more, and at least one such product, the result is exactly these
    products, each as often as in the catalog. *)
Theorem all_qualifying_returned (predictions : list (Prediction N))
    (catalog : list (Product N)) (limit : Z) :
  filter (fun p => ngeb (score (calculateSimilarity predictions p))
                        (lit 100)) catalog <> [] ->
  (Z.of_nat (List.length
     (filter (fun p => ngeb (score (calculateSimilarity predictions p))
                            (lit 100)) catalog)) <= limit)%Z ->
  Permutation (findMatchingProducts predictions catalog limit)
    (filter (fun p => ngeb (score (calculateSimilarity predictions p))
                          (lit 100)) catalog).
Proof.
  intros Hsome Hlimit.
  destruct (rankedProducts_slice predictions catalog limit)
    as [ranked [Heq [_ [Hperm _]]]].
  assert (Hlen := Permutation_length Hperm).
  assert (Hall : slice0 ranked limit = ranked).
  { rewrite slice0_nonneg by lia. apply firstn_all2. lia. }
  rewrite Hall in Heq.
  rewrite ranked_path; [now rewrite Heq|].
  rewrite Heq. intros ->. apply Permutation_nil in Hperm. congruence.
Qed.

(** X14: the sort is stable: among the ranked products, those whose
    scores tie with a score [c] come in the order of the catalog, as a
    prefix of the catalog's tied products. *)
Theorem ties_keep_catalog_order (predictions : list (Prediction N))
    (catalog : list (Product N)) (limit : Z) (c : N) :
  ngeb c (lit 100) = true ->
  exists rest,
    filter (fun p => ngeb (score (calculateSimilarity predictions p)) c
                     && ngeb c (score (calculateSimilarity predictions p)))
      (filter (fun p => ngeb (score (calculateSimilarity predictions p))
                            (lit 100)) catalog)
    = (filter (fun p => ngeb (score (calculateSimilarity predictions p)) c
                      && ngeb c (score (calculateSimilarity predictions p)))
         (rankedProducts predictions catalog limit) ++ rest)%list.
Proof.
  intros Hc.
  destruct (rankedProducts_slice predictions catalog limit)
    as [ranked [-> [_ [_ Hst]]]].
  rewrite <- (Hst c Hc).
  destruct (slice0_split ranked limit) as [others Hsplit].
  exists (filter (fun p => ngeb (score (calculateSimilarity predictions p)) c
                     && ngeb c (score (calculateSimilarity predictions p)))
            others).
  rewrite <- filter_app. now rewrite <- Hsplit.
Qed.

End RankingOrder.

Section ExactRanking.

Local Open Scope Q_scope.

#[export] Instance ExactRankingLaws : RankingLaws Q.
Proof.
  split; cbn [ngeb ngtb nsub lit Exact].
  - intros x Hx. apply Qle_bool_iff in Hx.
    destruct (Qle_bool x (inject_Z 0)) eqn:E; [|reflexivity].
    apply Qle_bool_iff in E. change (inject_Z 100) with 100 in Hx.
    change (inject_Z 0) with 0 in E. exfalso. clear - Hx E. lra.
  - intros x y _ _. rewrite negb_false_iff, !Qle_bool_iff.
    change (inject_Z 0) with 0. split; intros; lra.
  - intros x y _ _. rewrite !Qle_bool_iff.
    destruct (Qlt_le_dec x y); [right | left]; lra.
  - intros x y z _ _ _. rewrite !Qle_bool_iff. intros; lra.
Qed.

End ExactRanking.

(** ** The order of binary64 numbers *)

Section Binary64Ranking.

Local Open Scope Z_scope.

Lemma val_pos (m : positive) (e : Z) : -1074 <= e -> 0 < val m e.
Proof.
  intros He. unfold val.
  assert (Hp : 0 < 2 ^ (e + 1200)) by (apply pow2_pos; lia). nia.
Qed.

Lemma val_below_top (m : positive) (e : Z) :
  bounded prec emax m e = true -> 0 < val m e < 2 ^ 3000.
Proof.
  intros Hb. destruct (bounded_facts m e Hb) as [He [Hm _]].
  split; [apply val_pos; lia|]. unfold val.
  assert (Hp : 0 < 2 ^ (e + 1200)) by (apply pow2_pos; lia).
  assert (H1 : 2 ^ (e + 1200) <= 2 ^ 2171) by (apply pow2_le; lia).
  assert (H2 : 2 ^ 53 * 2 ^ 2171 = 2 ^ 2224)
    by (rewrite <- pow2_split by lia; reflexivity).
  assert (H3 : 2 ^ 2224 <= 2 ^ 3000) by (apply pow2_le; lia).
  nia.
Qed.

Lemma val_lt_of_exponent (m1 : positive) (e1 : Z) (m2 : positive) (e2 : Z) :
  bounded prec emax m1 e1 = true -> bounded prec emax m2 e2 = true ->
  e1 < e2 -> val m1 e1 < val m2 e2.
Proof.
  intros H1 H2 He.
  destruct (bounded_facts m1 e1 H1) as [He1 [Hm1 _]].
  destruct (bounded_facts m2 e2 H2) as [He2 [_ Hn2]].
  specialize (Hn2 ltac:(lia)). unfold val.
  assert (Hp : 0 < 2 ^ (e1 + 1200)) by (apply pow2_pos; lia).
  assert (Hs : 2 ^ (e2 + 1200) = 2 ^ (e2 - e1 - 1) * (2 * 2 ^ (e1 + 1200))).
  { rewrite <- pow2_succ by lia. rewrite <- pow2_split by lia. f_equal. lia. }
  assert (Hq : 0 < 2 ^ (e2 - e1 - 1)) by (apply pow2_pos; lia).
  rewrite Hs. change (2 ^ 52) with 4503599627370496 in Hn2.
  change (2 ^ 53) with 9007199254740992 in Hm1. nia.
Qed.

(** The comparison of two positive binary64 numbers is that of their
    values. *)
Lemma SFcompare_val (m1 : positive) (e1 : Z) (m2 : positive) (e2 : Z) :
  bounded prec emax m1 e1 = true -> bounded prec emax m2 e2 = true ->
  SFcompare (S754_finite false m1 e1) (S754_finite false m2 e2)
  = Some (val m1 e1 ?= val m2 e2).
Proof.
  intros H1 H2. cbn [SFcompare].
  destruct (Z.compare_spec e1 e2) as [E|E|E].
  - subst e2. destruct (bounded_facts m1 e1 H1) as [He1 _].
    assert (Hp : 0 < 2 ^ (e1 + 1200)) by (apply pow2_pos; lia).
    unfold val. rewrite <- Zmult_compare_compat_r by lia. reflexivity.
  - pose proof (val_lt_of_exponent _ _ _ _ H1 H2 E) as Hv.
    apply Z.compare_lt_iff in Hv. now rewrite Hv.
  - pose proof (val_lt_of_exponent _ _ _ _ H2 H1 E) as Hv.
    apply Z.compare_gt_iff in Hv. now rewrite Hv.
Qed.

Lemma iter_xO (d m : positive) : Zpos (Pos.iter xO m d) = Zpos m * 2 ^ Zpos d.
Proof.
  induction d as [|d IH] using Pos.peano_ind.
  - simpl. lia.
  - rewrite Pos.iter_succ, Pos2Z.inj_succ, Z.pow_succ_r by lia.
    rewrite Pos2Z.inj_xO, IH. lia.
Qed.

Lemma shl_align_spec (m : positive) (e e' : Z) :
  Zpos (fst (shl_align m e e')) = Zpos m * 2 ^ (e - Z.min e e')
  /\ snd (shl_align m e e') = Z.min e e'.
Proof.
  unfold shl_align. destruct (e' - e) as [|d|d] eqn:E; cbn [fst snd].
  - replace (Z.min e e') with e by lia. rewrite Z.sub_diag. simpl. lia.
  - replace (Z.min e e') with e by lia. rewrite Z.sub_diag. simpl. lia.
  - replace (Z.min e e') with e' by lia. rewrite iter_xO.
    replace (e - e') with (Zpos d) by lia. split; reflexivity.
Qed.

(** The sign given to [binary_round_aux] is the sign of its result. *)
Lemma binary_round_aux_sign (sx : bool) (m e : Z) (l : location) :
  binary_round_aux prec emax sx m e l
  = match binary_round_aux prec emax false m e l with
    | S754_zero _ => S754_zero sx
    | S754_infinity _ => S754_infinity sx
    | S754_finite _ m' e' => S754_finite sx m' e'
    | S754_nan => S754_nan
    end.
Proof.
  unfold binary_round_aux.
  destruct (shr_fexp prec emax m e l) as [mrs' e'].
  destruct (shr_fexp prec emax _ e' loc_Exact) as [mrs'' e''].
  destruct (shr_m mrs''); [reflexivity | | reflexivity].
  destruct (e'' <=? emax - prec); reflexivity.
Qed.

(** Rounding a positive integer multiple of a power of two above the
    smallest one never gives zero. *)
Lemma round_aux_positive (pM : positive) (E : Z) :
  -1074 <= E ->
  binary_round_aux prec emax false (Zpos pM) E loc_Exact = S754_infinity false
  \/ exists m e,
       binary_round_aux prec emax false (Zpos pM) E loc_Exact
       = S754_finite false m e.
Proof.
  intros HE.
  destruct (round_aux_spec pM E) as [q [Hq0 [Hq1 [Hq2 Hq3]]]].
  pose proof (digits_bounds pM) as Hd.
  rewrite fexp_value in *.
  set (d := Zpos (digits2_pos pM)) in *.
  set (e1 := Z.max E (Z.max (d + E - 53) (-1074))) in *.
  destruct Hq3 as [[Hz _]|[[Hinf _]|[m [e [Hfin _]]]]].
  - exfalso. subst q.
    destruct (Z.le_gt_cases d 53) as [Hd53|Hd53].
    + replace (e1 - E) with 0 in Hq2 by lia.
      rewrite Z.mod_1_r in Hq2. specialize (Hq2 eq_refl). lia.
    + replace (e1 - E) with (d - 53) in Hq1 by lia.
      assert (Hs : 2 ^ (d - 1) = 2 ^ 52 * 2 ^ (d - 53)).
      { rewrite <- pow2_split by lia. f_equal. lia. }
      assert (Hp : 0 < 2 ^ (d - 53)) by (apply pow2_pos; lia).
      change (2 ^ 52) with 4503599627370496 in Hs. nia.
  - now left.
  - right. now exists m, e.
Qed.

Lemma binary_round_sign (sx : bool) (pM : positive) (E : Z) :
  -1074 <= E ->
  binary_round prec emax sx pM E = S754_infinity sx
  \/ exists m e, binary_round prec emax sx pM E = S754_finite sx m e.
Proof.
  intros HE. unfold binary_round.
  pose proof (shl_align_spec pM E (fexp prec emax (Zpos (digits2_pos pM) + E)))
    as [_ Hsnd].
  destruct (shl_align pM E (fexp prec emax (Zpos (digits2_pos pM) + E)))
    as [mz ez]. cbn [snd] in Hsnd.
  rewrite fexp_value in Hsnd.
  rewrite binary_round_aux_sign.
  destruct (round_aux_positive mz ez ltac:(lia)) as [->|[m [e ->]]].
  - now left.
  - right. now exists m, e.
Qed.

(** The sign of the difference of two positive binary64 numbers. *)
Lemma SFsub_positive (my : positive) (ey : Z) (mx : positive) (ex : Z) :
  bounded prec emax my ey = true -> bounded prec emax mx ex = true ->
  SFltb (S754_zero false)
        (SFsub prec emax (S754_finite false my ey) (S754_finite false mx ex))
  = (val mx ex <? val my ey).
Proof.
  intros Hy Hx.
  destruct (bounded_facts my ey Hy) as [Hey _].
  destruct (bounded_facts mx ex Hx) as [Hex _].
  cbn [SFsub cond_Zopp].
  destruct (shl_align_spec my ey (Z.min ey ex)) as [Hmy _].
  destruct (shl_align_spec mx ex (Z.min ey ex)) as [Hmx _].
  rewrite Hmy, Hmx.
  replace (Z.min ey (Z.min ey ex)) with (Z.min ey ex) by lia.
  replace (Z.min ex (Z.min ey ex)) with (Z.min ey ex) by lia.
  set (ez := Z.min ey ex).
  assert (Hvy : val my ey = Zpos my * 2 ^ (ey - ez) * 2 ^ (ez + 1200)).
  { unfold val. rewrite <- Z.mul_assoc, <- pow2_split by lia.
    do 2 f_equal. lia. }
  assert (Hvx : val mx ex = Zpos mx * 2 ^ (ex - ez) * 2 ^ (ez + 1200)).
  { unfold val. rewrite <- Z.mul_assoc, <- pow2_split by lia.
    do 2 f_equal. lia. }
  assert (Hp : 0 < 2 ^ (ez + 1200)) by (apply pow2_pos; lia).
  rewrite Hvy, Hvx.
  set (a := Zpos my * 2 ^ (ey - ez)). set (b := Zpos mx * 2 ^ (ex - ez)).
  clearbody a b. clear - Hp ez Hey Hex.
  assert (Hez : -1074 <= ez) by lia.
  destruct (a - b) as [|D|D] eqn:ED; cbn [binary_normalize].
  - symmetry. apply Z.ltb_ge. nia.
  - destruct (binary_round_sign false D ez Hez) as [->|[m [e ->]]];
      symmetry; apply Z.ltb_lt; nia.
  - destruct (binary_round_sign true D ez Hez) as [->|[m [e ->]]];
      symmetry; apply Z.ltb_ge; nia.
Qed.

Lemma const_0 : Prim2SF (float_of_Z 0) = S754_zero false.
Proof. vm_compute. reflexivity. Qed.

(** A binary64 number that is at least 100 is a positive finite number or
    [Infinity]. *)
Lemma at_least_100_cases (x : float) :
  PrimFloat.leb (float_of_Z 100) x = true ->
  Prim2SF x = S754_infinity false
  \/ exists m e, Prim2SF x = S754_finite false m e
                 /\ bounded prec emax m e = true.
Proof.
  rewrite leb_spec, const_100. pose proof (Prim2SF_valid x) as Hv.
  destruct (Prim2SF x) as [[|]|[|]| |[|] m e]; cbn; try discriminate.
  - intros _. now left.
  - intros _. right. exists m, e. split; [reflexivity | exact Hv].
Qed.

Lemma float_order (x y : float) :
  PrimFloat.leb (float_of_Z 100) x = true ->
  PrimFloat.leb (float_of_Z 100) y = true ->
  PrimFloat.leb y x = (orderKey (Prim2SF y) <=? orderKey (Prim2SF x))
  /\ PrimFloat.ltb (float_of_Z 0) (PrimFloat.sub y x)
     = (orderKey (Prim2SF x) <? orderKey (Prim2SF y)).
Proof.
  intros Hx Hy.
  rewrite leb_spec, ltb_spec, sub_spec, const_0.
  destruct (at_least_100_cases x Hx) as [Ex|[mx [ex [Ex Bx]]]];
    destruct (at_least_100_cases y Hy) as [Ey|[my [ey [Ey By]]]];
    rewrite Ex, Ey; clear Hx Hy Ex Ey x y.
  - split; reflexivity.
  - pose proof (val_below_top my ey By) as Hv. cbn [orderKey].
    unfold SFleb, SFltb. cbn [SFcompare SFsub negb]. split; symmetry.
    + apply Z.leb_le. lia.
    + apply Z.ltb_ge. lia.
  - pose proof (val_below_top mx ex Bx) as Hv. cbn [orderKey].
    unfold SFleb, SFltb. cbn [SFcompare SFsub negb]. split; symmetry.
    + apply Z.leb_gt. lia.
    + apply Z.ltb_lt. lia.
  - cbn [orderKey]. split.
    + unfold SFleb. rewrite (SFcompare_val _ _ _ _ By Bx).
      destruct (Z.compare_spec (val my ey) (val mx ex)); symmetry;
        [apply Z.leb_le | apply Z.leb_le | apply Z.leb_gt]; lia.
    + apply (SFsub_positive _ _ _ _ By Bx).
Qed.

#[export] Instance Float64RankingLaws : RankingLaws float.
Proof.
  split; cbn [ngeb ngtb nsub lit Float64].
  - intros x Hx. rewrite ltb_spec, const_0.
    destruct (at_least_100_cases x Hx) as [->|[m [e [-> _]]]]; reflexivity.
  - intros x y Hx Hy. destruct (float_order x y Hx Hy) as [-> ->].
    rewrite Z.ltb_ge, Z.leb_le. reflexivity.
  - intros x y Hx Hy. destruct (float_order x y Hx Hy) as [-> _].
    destruct (float_order y x Hy Hx) as [-> _].
    rewrite !Z.leb_le. lia.
  - intros x y z Hx Hy Hz.
    destruct (float_order x y Hx Hy) as [-> _].
    destruct (float_order y z Hy Hz) as [-> _].
    destruct (float_order x z Hx Hz) as [-> _].
    rewrite !Z.leb_le. lia.
Qed.

End Binary64Ranking.

(** * The search filter *)

Section QueryFacts.

Local Open Scope string_scope.

Lemma trimStart_allWhiteSpace (s : string) :
  allWhiteSpace s = true -> trimStart s = "".
Proof.
  induction s as [|c s IH]; simpl; [reflexivity|].
  intros Hs. apply andb_true_iff in Hs. destruct Hs as [-> Hs]. now apply IH.
Qed.

Lemma allWhiteSpace_append (a b : string) :
  allWhiteSpace (a ++ b) = allWhiteSpace a && allWhiteSpace b.
Proof.
  induction a as [|c a IH]; simpl; [reflexivity|].
  now rewrite IH, andb_assoc.
Qed.

(** The strings that [trim] empties are those of white space only. *)
Lemma trim_blank (s : string) : trim s = "" <-> allWhiteSpace s = true.
Proof.
  split.
  - intros Ht. destruct (trim_decomp s) as [ws1 [ws2 [H1 [H2 Hs]]]].
    rewrite Hs, Ht. simpl. now rewrite allWhiteSpace_append, H1, H2.
  - intros Hs. unfold trim. now rewrite trimStart_allWhiteSpace.
Qed.

Lemma toLowerCase_empty (s : string) : toLowerCase s = "" <-> s = "".
Proof. destruct s; simpl; split; congruence. Qed.

(** The test of line 204 reads the normalised query only. *)
Lemma blank_query (q : string) :
  isEmpty q || String.eqb (trim q) "" = true <-> trim (toLowerCase q) = "".
Proof.
  rewrite trim_toLowerCase, toLowerCase_empty, orb_true_iff, String.eqb_eq,
    isEmpty_true.
  split; [intros [->|Ht]; [reflexivity | exact Ht] | now right].
Qed.

Lemma blank_query_false (q : string) :
  isEmpty q || String.eqb (trim q) "" = false <-> trim (toLowerCase q) <> "".
Proof.
  rewrite <- blank_query. now destruct (isEmpty q || String.eqb (trim q) "").
Qed.

Lemma contains_trans (a b c : string) :
  contains a b -> contains b c -> contains a c.
Proof.
  intros [l1 [r1 ->]] [l2 [r2 ->]]. exists (l1 ++ l2), (r2 ++ r1).
  now rewrite !append_assoc.
Qed.

Lemma contains_empty (s : string) : contains "" s -> s = "".
Proof.
  intros [l [r Hs]]. destruct l; [|discriminate].
  destruct s; [reflexivity | discriminate].
Qed.

Lemma includes_narrow (s a b : string) :
  contains a b -> includes s a = true -> includes s b = true.
Proof.
  intros Hab Ha. apply includes_spec. apply includes_spec in Ha.
  exact (contains_trans _ _ _ Ha Hab).
Qed.

End QueryFacts.

Section FilterFacts.

Context {N : Type} `{Number N}.

Local Open Scope string_scope.

(** X15: a query of white space only is no query: [filterProducts] returns
    the products unchanged. *)
Theorem blank_query_keeps_all (products : list (Product N)) (q : string) :
  allWhiteSpace q = true -> filterProducts products q = products.
Proof.
  intros Hq. unfold filterProducts.
  apply trim_blank in Hq. rewrite Hq. simpl. now rewrite orb_true_r.
Qed.

(** X16: the search ignores the case of the query and the white space
    around it: the trimmed, lower-cased query gives the same result. *)
Theorem query_normalised (products : list (Product N)) (q : string) :
  filterProducts products (toLowerCase (trim q)) = filterProducts products q.
Proof.
  unfold filterProducts.
  assert (Hn : trim (toLowerCase (toLowerCase (trim q)))
               = trim (toLowerCase q)).
  { now rewrite toLowerCase_idempotent, trim_toLowerCase, trim_idempotent,
      <- trim_toLowerCase. }
  destruct (isEmpty q || String.eqb (trim q) "") eqn:E.
  - apply blank_query in E. rewrite <- Hn in E. apply blank_query in E.
    now rewrite E.
  - destruct (isEmpty (toLowerCase (trim q))
              || String.eqb (trim (toLowerCase (trim q))) "") eqn:E2.
    + apply blank_query in E2. rewrite Hn in E2. apply blank_query in E2.
      congruence.
    + cbv zeta. now rewrite Hn.
Qed.

Lemma matchesQuery_narrow (q1 q2 : string) (p : Product N) :
  contains q2 q1 -> matchesQuery q2 p = true -> matchesQuery q1 p = true.
Proof.
  intros Hc. unfold matchesQuery.
  destruct (includes (toLowerCase (name p)) q2) eqn:E1.
  { now rewrite (includes_narrow _ _ _ Hc E1). }
  destruct (includes (toLowerCase (category p)) q2) eqn:E2.
  { rewrite (includes_narrow _ _ _ Hc E2).
    now destruct (includes (toLowerCase (name p)) q1). }
  destruct (existsb (fun tag => includes (toLowerCase tag) q2) (tags p)) eqn:E3.
  { assert (E3' : existsb (fun tag => includes (toLowerCase tag) q1) (tags p)
                  = true).
    { apply existsb_exists in E3. destruct E3 as [tag [Ht Hi]].
      apply existsb_exists. exists tag. split; [exact Ht|].
      exact (includes_narrow _ _ _ Hc Hi). }
    rewrite E3'.
    now destruct (includes (toLowerCase (name p)) q1),
                 (includes (toLowerCase (category p)) q1). }
  destruct (includes (toLowerCase (description p)) q2) eqn:E4; [|discriminate].
  rewrite (includes_narrow _ _ _ Hc E4).
  now destruct (includes (toLowerCase (name p)) q1),
               (includes (toLowerCase (category p)) q1),
               (existsb (fun tag => includes (toLowerCase tag) q1) (tags p)).
Qed.

Lemma filterProducts_In (products : list (Product N)) (q : string)
    (p : Product N) :
  In p (filterProducts products q) -> In p products.
Proof.
  unfold filterProducts.
  destruct (isEmpty q || String.eqb (trim q) ""); [tauto|].
  intros Hin. now apply filter_In in Hin.
Qed.

(** X17: a longer query never finds more: when the normalised query [q1]
    occurs in the normalised query [q2], every product found for [q2] is
    found for [q1]. *)
Theorem longer_query_narrows (products : list (Product N)) (q1 q2 : string)
    (p : Product N) :
  contains (trim (toLowerCase q2)) (trim (toLowerCase q1)) ->
  In p (filterProducts products q2) -> In p (filterProducts products q1).
Proof.
  intros Hc Hin. pose proof (filterProducts_In _ _ _ Hin) as Hp.
  revert Hin. unfold filterProducts.
  destruct (isEmpty q1 || String.eqb (trim q1) "") eqn:E1; [now intros _|].
  destruct (isEmpty q2 || String.eqb (trim q2) "") eqn:E2.
  - apply blank_query in E2. rewrite E2 in Hc. apply contains_empty in Hc.
    apply blank_query in Hc. congruence.
  - cbv zeta. rewrite !filter_In. intros [_ Hm]. split; [exact Hp|].
    exact (matchesQuery_narrow _ _ _ Hc Hm).
Qed.

Lemma filter_comm {A : Type} (f g : A -> bool) (l : list A) :
  filter f (filter g l) = filter g (filter f l).
Proof.
  induction l as [|x l IH]; simpl; [reflexivity|].
  destruct (f x) eqn:Ef, (g x) eqn:Eg; simpl; rewrite ?Ef, ?Eg, IH;
    reflexivity.
Qed.

(** X18: the search filter and the category filter commute. *)
Theorem search_and_category_commute (products : list (Product N))
    (q cat : string) :
  filterByCategory (filterProducts products q) cat
  = filterProducts (filterByCategory products cat) q.
Proof.
  unfold filterByCategory, filterProducts.
  destruct (isEmpty cat || String.eqb cat "all");
    destruct (isEmpty q || String.eqb (trim q) ""); try reflexivity.
  cbv zeta. apply filter_comm.
Qed.

End FilterFacts.

(** * The category list and the tags of the classifier *)

Section StringOrder.

Local Open Scope string_scope.

Lemma ascii_compare_lt_trans (a b c : ascii) :
  Ascii.compare a b = Lt -> Ascii.compare b c = Lt -> Ascii.compare a c = Lt.
Proof.
  unfold Ascii.compare. rewrite !N.compare_lt_iff. apply N.lt_trans.
Qed.

(** The order of [sort] on strings is transitive. *)
Lemma string_compare_lt_trans (a b c : string) :
  String.compare a b = Lt -> String.compare b c = Lt ->
  String.compare a c = Lt.
Proof.
  revert b c. induction a as [|x a IH]; intros [|y b] [|z c]; simpl;
    try congruence.
  destruct (Ascii.compare x y) eqn:Exy; try discriminate.
  - apply Ascii.compare_eq_iff in Exy. subst y.
    destruct (Ascii.compare x z); try congruence. apply IH.
  - intros _. destruct (Ascii.compare y z) eqn:Eyz; try discriminate.
    + apply Ascii.compare_eq_iff in Eyz. subst z. now rewrite Exy.
    + intros _. now rewrite (ascii_compare_lt_trans _ _ _ Exy Eyz).
Qed.

Lemma insertString_In (x y : string) (l : list string) :
  In y (insertString x l) <-> y = x \/ In y l.
Proof.
  induction l as [|z l IH]; simpl.
  - intuition congruence.
  - destruct (String.compare x z); simpl; rewrite ?IH; intuition congruence.
Qed.

Lemma sortStrings_In (y : string) (l : list string) :
  In y (sortStrings l) <-> In y l.
Proof.
  induction l as [|x l IH]; simpl; [tauto|].
  rewrite insertString_In, IH. intuition congruence.
Qed.

Lemma insertString_sorted (x : string) (l : list string) :
  ~ In x l ->
  StronglySorted (fun a b => String.compare a b = Lt) l ->
  StronglySorted (fun a b => String.compare a b = Lt) (insertString x l).
Proof.
  intros Hx Hs. induction Hs as [|y l Hs IH Hy]; simpl.
  - constructor; constructor.
  - destruct (String.compare x y) eqn:E.
    + apply String.compare_eq_iff in E. subst y. exfalso. apply Hx. now left.
    + constructor; [now constructor|]. constructor; [exact E|].
      rewrite Forall_forall in *. intros z Hz.
      exact (string_compare_lt_trans _ _ _ E (Hy z Hz)).
    + constructor.
      * apply IH. intros Hin. apply Hx. now right.
      * rewrite Forall_forall in *. intros z Hz.
        apply insertString_In in Hz. destruct Hz as [->|Hz]; [|now apply Hy].
        rewrite String.compare_antisym, E. reflexivity.
Qed.

Lemma sortStrings_sorted (l : list string) :
  NoDup l ->
  StronglySorted (fun a b => String.compare a b = Lt) (sortStrings l).
Proof.
  induction 1 as [|x l Hx Hnd IH]; simpl; [constructor|].
  apply insertString_sorted; [|exact IH]. now rewrite sortStrings_In.
Qed.

(** The empty pieces of a split: one at the start when the string starts
    with a separator, one at the end when it ends with one, and the only
    piece of the empty string. *)
Lemma splitAux_empty_piece (s cur : string) (inSep : bool) :
  In "" (splitAux s cur inSep)
  <-> (cur = ""
       /\ (s = "" \/ (inSep = false /\ startsWithSeparator s = true)))
      \/ endsWithSeparator s = true.
Proof.
  revert cur inSep. induction s as [|c s IH]; intros cur inSep.
  - simpl. split.
    + intros [->|[]]. left. split; [reflexivity | now left].
    + intros [[-> _]|Hf]; [now left | discriminate].
  - assert (Hends : endsWithSeparator (String c s) = true
                    <-> (isSeparator c = true /\ s = "")
                        \/ endsWithSeparator s = true).
    { destruct s as [|c' s']; cbn [endsWithSeparator].
      - split; [intros Hc; left; now split|].
        intros [[Hc _]|Hf]; [exact Hc | discriminate].
      - split; [now right|]. intros [[_ Hf]|He]; [discriminate | exact He]. }
    cbn [splitAux startsWithSeparator]. rewrite Hends.
    destruct (isSeparator c) eqn:Ec.
    + destruct inSep.
      * rewrite IH. split.
        -- intros [[_ [->|[Hf _]]]|He]; [|discriminate|].
           ++ right. left. now split.
           ++ right. now right.
        -- intros [[_ [Hf|[Hf _]]]|[[_ ->]|He]]; try discriminate.
           ++ left. split; [reflexivity | now left].
           ++ now right.
      * cbn [In]. rewrite IH. split.
        -- intros [->|[[_ [->|[Hf _]]]|He]]; [| |discriminate|].
           ++ left. split; [reflexivity|]. right. now split.
           ++ right. left. now split.
           ++ right. now right.
        -- intros [[-> _]|[[_ ->]|He]].
           ++ now left.
           ++ right. left. split; [reflexivity | now left].
           ++ right. now right.
    + rewrite IH. split.
      * intros [[Hcur _]|He]; [|right; now right].
        destruct cur; discriminate.
      * intros [[_ [Hf|[_ Hf]]]|[[Hf _]|He]]; try discriminate.
        now right.
Qed.

Lemma startsWithSeparator_toLowerCase (s : string) :
  startsWithSeparator (toLowerCase s) = startsWithSeparator s.
Proof. destruct s; simpl; [reflexivity | apply isSeparator_lowerChar]. Qed.

Lemma endsWithSeparator_toLowerCase (s : string) :
  endsWithSeparator (toLowerCase s) = endsWithSeparator s.
Proof.
  induction s as [|c s IH]; [reflexivity|].
  destruct s as [|c' s']; [apply isSeparator_lowerChar | exact IH].
Qed.

Lemma split_empty_piece (s : string) :
  In "" (split (toLowerCase s))
  <-> s = "" \/ startsWithSeparator s = true \/ endsWithSeparator s = true.
Proof.
  unfold split. rewrite splitAux_empty_piece.
  rewrite startsWithSeparator_toLowerCase, endsWithSeparator_toLowerCase.
  rewrite toLowerCase_empty. intuition.
Qed.

End StringOrder.

Section CategoryFacts.

Context {N : Type} `{Number N}.

Local Open Scope string_scope.

(** X19: the list of categories is "all" followed by the categories of the
    products: a string is listed exactly when it is "all" or the category
    of some product. *)
Theorem getCategories_members (products : list (Product N)) (c : string) :
  In c (getCategories products)
  <-> c = "all" \/ exists p, In p products /\ category p = c.
Proof.
  unfold getCategories. cbn [In].
  rewrite sortStrings_In, (proj2 (dedup_spec _)), in_map_iff.
  split.
  - intros [E|[p [E Hp]]]; [now left | right; now exists p].
  - intros [E|[p [Hp E]]]; [now left | right; now exists p].
Qed.

(** X20: after "all" the categories come in strictly ascending order of
    their code units, so none is listed twice. *)
Theorem getCategories_sorted (products : list (Product N)) :
  StronglySorted (fun a b => String.compare a b = Lt)
                 (tl (getCategories products)).
Proof.
  unfold getCategories. cbn [tl].
  apply sortStrings_sorted. apply dedup_spec.
Qed.

(** X21: the category list and the category filter agree: the category of
    every product of the catalog is listed, and selecting it shows the
    product. *)
Theorem categories_cover_catalog (products : list (Product N))
    (p : Product N) :
  In p products ->
  In (category p) (getCategories products)
  /\ In p (filterByCategory products (category p)).
Proof.
  intros Hp. split.
  - unfold getCategories. right.
    apply sortStrings_In, dedup_spec, in_map. exact Hp.
  - unfold filterByCategory.
    destruct (isEmpty (category p) || String.eqb (category p) "all");
      [exact Hp|].
    apply filter_In. split; [exact Hp | apply String.eqb_refl].
Qed.

End CategoryFacts.

Section TagFacts.

Context {N : Type} `{Number N}.

Local Open Scope string_scope.

(** A loop that pushes is a concatenation. *)
Lemma forEach_push {A B : Type} (g : A -> list B) (l : list A)
    (acc : list B) :
  forEach (fun x tags => tags ++ g x)%list l acc = (acc ++ flat_map g l)%list.
Proof.
  revert acc. induction l as [|x l IH]; intros acc.
  - simpl. now rewrite app_nil_r.
  - rewrite forEach_cons, IH. simpl. now rewrite app_assoc.
Qed.

Lemma extractTags_In (predictions : list (Prediction N)) (w : string) :
  In w (extractTags predictions)
  <-> exists pred, In pred predictions
                   /\ In w (split (toLowerCase (className pred))).
Proof.
  unfold extractTags. rewrite (proj2 (dedup_spec _)), forEach_push.
  cbn [app]. apply in_flat_map.
Qed.

(** X22: [extractTags] lists every tag once, and its non-empty tags are
    the words that [tokenizeClassName] finds in the labels of the
    predictions. *)
Theorem extractTags_words (predictions : list (Prediction N)) :
  NoDup (extractTags predictions)
  /\ forall w, w <> "" ->
       (In w (extractTags predictions)
        <-> exists pred, In pred predictions
                         /\ In w (tl (tokenizeClassName (className pred)))).
Proof.
  split; [apply dedup_spec|].
  intros w Hw. rewrite extractTags_In.
  assert (Hne : negb (isEmpty w) = true) by now destruct w.
  split; intros [pred [Hpred Hin]]; exists pred; split; try exact Hpred.
  - rewrite tokenize_parts. apply filter_In. now split.
  - rewrite tokenize_parts in Hin. now apply filter_In in Hin.
Qed.

(** X23: unlike the tokenizer of the matcher, [extractTags] keeps empty
    pieces: the empty string is a tag exactly when some label is empty or
    starts or ends with a separator (white space or a comma). *)
Theorem extractTags_empty_tag (predictions : list (Prediction N)) :
  In "" (extractTags predictions)
  <-> exists pred, In pred predictions
                   /\ (className pred = ""
                       \/ startsWithSeparator (className pred) = true
                       \/ endsWithSeparator (className pred) = true).
Proof.
  rewrite extractTags_In.
  split; intros [pred [Hpred Hin]]; exists pred; split; try exact Hpred;
    now apply split_empty_piece.
Qed.

End TagFacts.

(** * Duplicates *)

Section NoDuplicates.

Context {N : Type} `{Number N}.

Lemma NoDup_firstn {A : Type} (k : nat) (l : list A) :
  NoDup l -> NoDup (firstn k l).
Proof.
  intros Hnd. revert k. induction Hnd as [|x l Hx Hnd IH]; intros [|k];
    simpl; try constructor.
  - intros Hin. apply Hx. revert Hin. apply In_firstn.
  - apply IH.
Qed.

Lemma slice0_NoDup {A : Type} (l : list A) (e : Z) :
  NoDup l -> NoDup (slice0 l e).
Proof. unfold slice0. apply NoDup_firstn. Qed.

Lemma NoDup_map_filter {A B : Type} (g : A -> B) (f : A -> bool)
    (l : list A) :
  NoDup (map g l) -> NoDup (map g (filter f l)).
Proof.
  induction l as [|x l IH]; simpl; [tauto|].
  intros Hnd. apply NoDup_cons_iff in Hnd. destruct Hnd as [Hx Hnd].
  destruct (f x); [|now apply IH].
  simpl. constructor; [|now apply IH].
  intros Hin. apply Hx. apply in_map_iff in Hin.
  destruct Hin as [y [Hy Hin]]. apply filter_In in Hin.
  apply in_map_iff. exists y. tauto.
Qed.

Lemma NoDup_map_sortBy (cmp : MatchScore N -> MatchScore N -> N)
    (l : list (MatchScore N)) :
  NoDup (map product l) -> NoDup (map product (sortBy cmp l)).
Proof.
  apply Permutation_NoDup, Permutation_map. symmetry.
  apply sortBy_Permutation.
Qed.

(** X24: a catalog without duplicates gives a result without duplicates:
    [findMatchingProducts] returns no product twice. *)
Theorem results_without_duplicates (predictions : list (Prediction N))
    (catalog : list (Product N)) (limit : Z) :
  NoDup catalog -> NoDup (findMatchingProducts predictions catalog limit).
Proof.
  intros Hnd. unfold findMatchingProducts.
  destruct (List.length (rankedProducts predictions catalog limit) =? 0).
  - now apply slice0_NoDup.
  - unfold rankedProducts. rewrite <- slice0_map. apply slice0_NoDup.
    apply NoDup_map_sortBy, NoDup_map_filter, NoDup_map_sortBy,
      NoDup_map_filter.
    now rewrite map_product_scored.
Qed.

End NoDuplicates.

(** * The page component *)

Section PageFacts.

Context {N : Type} `{Number N}.

Variable products : list (Product N).

Lemma filterByCategory_In (l : list (Product N)) (cat : string)
    (p : Product N) :
  In p (filterByCategory l cat) -> In p l.
Proof.
  unfold filterByCategory.
  destruct (isEmpty cat || String.eqb cat "all"); [tauto|].
  intros Hin. now apply filter_In in Hin.
Qed.

Lemma filterByCategory_length (l : list (Product N)) (cat : string) :
  List.length (filterByCategory l cat) <= List.length l.
Proof.
  unfold filterByCategory.
  destruct (isEmpty cat || String.eqb cat "all"); [lia|].
  apply filter_length_le.
Qed.

Lemma filterProducts_length (l : list (Product N)) (q : string) :
  List.length (filterProducts l q) <= List.length l.
Proof.
  unfold filterProducts.
  destruct (isEmpty q || String.eqb (trim q) ""); [lia|].
  apply filter_length_le.
Qed.

Lemma findMatchingProducts_length (preds : list (Prediction N))
    (catalog : list (Product N)) (limit : Z) :
  (0 <= limit)%Z ->
  List.length (findMatchingProducts preds catalog limit) <= Z.to_nat limit.
Proof.
  intros Hlimit. unfold findMatchingProducts.
  destruct (List.length (rankedProducts preds catalog limit) =? 0).
  - pose proof (slice0_length_le catalog limit Hlimit). lia.
  - unfold rankedProducts. rewrite length_map.
    pose proof (slice0_length_le
                  (sortBy byScoreDesc
                     (filter (fun item => ngtb (score item) (lit 0))
                        (sortBy byScoreDesc
                           (filter (fun item => ngeb (score item) (lit 100))
                              (map (calculateSimilarity preds) catalog)))))
                  limit Hlimit).
    lia.
Qed.

Lemma applyFilters_In (preds : list (Prediction N)) (q cat : string)
    (p : Product N) :
  In p (Page.applyFilters products preds q cat) -> In p products.
Proof.
  unfold Page.applyFilters. intros Hin.
  destruct (negb (String.eqb cat "all"));
    [apply filterByCategory_In in Hin|];
    (destruct (negb (isEmpty q)); [apply filterProducts_In in Hin|]);
    (destruct (0 <? List.length preds);
     [now apply findMatchingProducts_In in Hin | exact Hin]).
Qed.

Lemma applyFilters_length (preds : list (Prediction N)) (q cat : string) :
  preds <> [] ->
  List.length (Page.applyFilters products preds q cat) <= 50.
Proof.
  intros Hpreds. unfold Page.applyFilters.
  assert (E : (0 <? List.length preds) = true).
  { apply Nat.ltb_lt. destruct preds; [congruence | simpl; lia]. }
  rewrite E.
  pose proof (findMatchingProducts_length preds products 50 ltac:(lia)) as H50.
  change (Z.to_nat 50) with 50 in H50.
  pose proof (filterProducts_length
                (findMatchingProducts preds products 50) q) as Hq.
  destruct (negb (String.eqb cat "all")), (negb (isEmpty q));
    try lia;
    match goal with
    | |- List.length (filterByCategory ?l cat) <= 50 =>
        pose proof (filterByCategory_length l cat); lia
    end.
Qed.

Lemma run_snoc (events : list (Page.Event (N := N))) (ev : Page.Event) :
  Page.run products (events ++ [ev])
  = Page.step products (Page.run products events) ev.
Proof. unfold Page.run. now rewrite fold_left_app. Qed.

(** X25: whatever the user does, the page shows products of the catalog
    only. *)
Theorem displayed_from_catalog (events : list (Page.Event (N := N)))
    (p : Product N) :
  In p (Page.displayedProducts (Page.run products events)) -> In p products.
Proof.
  induction events as [|ev events IH] using rev_ind.
  - apply slice0_In.
  - rewrite run_snoc. destruct ev as [q|cat|url|preds|]; cbn.
    + apply applyFilters_In.
    + apply applyFilters_In.
    + exact IH.
    + apply findMatchingProducts_In.
    + apply slice0_In.
Qed.

(** X26: while the page holds predictions it shows at most 50 products. *)
Theorem at_most_50_with_predictions (events : list (Page.Event (N := N))) :
  Page.predictions (Page.run products events) <> [] ->
  List.length (Page.displayedProducts (Page.run products events)) <= 50.
Proof.
  induction events as [|ev events IH] using rev_ind.
  - cbn. congruence.
  - rewrite run_snoc. destruct ev as [q|cat|url|preds|]; cbn.
    + apply applyFilters_length.
    + apply applyFilters_length.
    + exact IH.
    + intros _.
      pose proof (findMatchingProducts_length preds products 50 ltac:(lia)).
      assumption.
    + congruence.
Qed.

(** X27: a reset shows the first 50 products of the catalog, and a search
    with the empty query after it shows the whole catalog. *)
Theorem empty_search_after_reset (events : list (Page.Event (N := N))) :
  Page.displayedProducts (Page.run products (events ++ [Page.Reset]))
  = slice0 products 50
  /\ Page.displayedProducts
       (Page.run products (events ++ [Page.Reset; Page.Search ""]))
     = products.
Proof.
  split.
  - now rewrite run_snoc.
  - change [Page.Reset; Page.Search ""]
      with ([Page.Reset] ++ [Page.Search (N := N) ""])%list.
    rewrite app_assoc, !run_snoc. reflexivity.
Qed.

End PageFacts.

(** * The classifier module *)

Section ClassifierFacts.

Context {N : Type} {Model Image : Type}.

Import Classifier.

(** X28: the model is loaded once: after a call of [classifyImage] that
    returns predictions the module holds a model, and a later call keeps it
    and reads nothing of its surroundings but [model.classify]. *)
Theorem model_loaded_once (env : Env (N := N) (Model := Model) (Image := Image))
    (img : Image) (model model' : option Model)
    (preds : list (Prediction N)) :
  classifyImage env img model = (inr preds, model') ->
  model' <> None
  /\ forall (env1 env2 : Env (N := N) (Model := Model) (Image := Image))
            (img' : Image),
       classify env1 = classify env2 ->
       classifyImage env1 img' model' = classifyImage env2 img' model'
       /\ snd (classifyImage env1 img' model') = model'.
Proof.
  intros Hc.
  assert (Hm : exists m, model' = Some m).
  { unfold classifyImage, loadModel in Hc.
    destruct model as [m|].
    - destruct (classify env m img); inversion Hc. now exists m.
    - destruct (windowDefined env); [|inversion Hc].
      destruct (negb (tfAvailable env) || negb (mobilenetAvailable env));
        [inversion Hc|].
      destruct (tfReady env); [inversion Hc|].
      destruct (load env) as [reason|[m|]]; try (inversion Hc; fail).
      destruct (classify env m img); inversion Hc. now exists m. }
  destruct Hm as [m ->]. split; [discriminate|].
  intros env1 env2 img' Hsame. unfold classifyImage. rewrite Hsame.
  split; [reflexivity|]. now destruct (classify env2 m img').
Qed.

(** X29: where [window] is not defined and no model is loaded, [loadModel]
    resolves without loading anything and [classifyImage] throws "Model
    failed to load". *)
Theorem no_window_no_model (env : Env (N := N) (Model := Model) (Image := Image))
    (img : Image) :
  windowDefined env = false ->
  loadModel env None = (inr tt, None)
  /\ classifyImage env img None = (inl ModelFailedToLoad, None).
Proof.
  intros Hw. unfold classifyImage, loadModel. now rewrite Hw.
Qed.

(** X30: the labels that [classifyImage] returns are in lower case. *)
Theorem classified_labels_lower_case
    (env : Env (N := N) (Model := Model) (Image := Image))
    (img : Image) (model model' : option Model)
    (preds : list (Prediction N)) :
  classifyImage env img model = (inr preds, model') ->
  Forall (fun pred => toLowerCase (className pred) = className pred) preds.
Proof.
  intros Hc.
  assert (Hf : exists raw, preds = formatPredictions raw).
  { unfold classifyImage in Hc.
    destruct (match model with
              | None => loadModel env model
              | Some _ => (inr tt, model)
              end) as [[e|[]] [m|]]; try (inversion Hc; fail).
    destruct (classify env m img) as [reason|raw]; inversion Hc.
    now exists raw. }
  destruct Hf as [raw ->]. unfold formatPredictions.
  apply Forall_forall. intros pred Hin. apply in_map_iff in Hin.
  destruct Hin as [r [<- _]]. cbn. apply toLowerCase_idempotent.
Qed.

End ClassifierFacts.

(** * More examples *)

Section MoreConcrete.

Import Sample SampleEnv.

(** The best product first, the two products of equal score after it in
    the order of the catalog, the kettle left out. *)
Example ranking_example :
  map name (findMatchingProducts [coffeeMug]
              [plainMug; kettle; mug; otherMug] 50)
  = ["Item A"; "Item G"; "Item H"].
Proof. vm_compute. reflexivity. Qed.

Example search_example :
  map name (filterProducts [mug; kettle; shoe] "  TEA ") = ["Item B"]
  /\ map name (filterProducts [mug; kettle; shoe] "e")
     = ["Item A"; "Item B"; "Item D"].
Proof. split; vm_compute; reflexivity. Qed.

Example categories_example :
  getCategories [mug; kettle; plainMug; shoe]
  = ["all"; "drinks"; "footwear"; "kitchen"].
Proof. vm_compute. reflexivity. Qed.

(** The comma and the space at the end of the label leave an empty tag. *)
Example extractTags_example :
  extractTags [mkPrediction "Coffee Mug, cup, " half;
               mkPrediction "coffee pot" half]
  = ["coffee"; "mug"; "cup"; ""; "pot"].
Proof. vm_compute. reflexivity. Qed.

(** A search and a category change narrow what a classification found. *)
Example page_example :
  map name (Page.displayedProducts
              (Page.run [kettle; mug; plainMug]
                 [Page.Classified [coffeeMug]; Page.Search "item g"]))
  = ["Item G"]
  /\ map name (Page.displayedProducts
                 (Page.run [kettle; mug; plainMug]
                    [Page.Classified [coffeeMug]; Page.CategoryChange "drinks"]))
     = [].
Proof. split; vm_compute; reflexivity. Qed.

Lemma no_overlap_scores_zero_witness :
  calculateSimilarity [mkPrediction "cat" half] shoe
  = {| product := shoe; score := lit 0; matchedTags := [] |}.
Proof.
  apply (no_overlap_scores_zero [mkPrediction "cat" half] shoe).
  intros pw Hpw. vm_compute in Hpw.
  destruct Hpw as [<-|[<-|[]]];
    (split; [|split]);
    try (intros tag tw [<-|[]] Htw; vm_compute in Htw;
         destruct Htw as [<-|[<-|[]]]; vm_compute; reflexivity);
    try (intros nw Hnw; vm_compute in Hnw;
         destruct Hnw as [<-|[<-|[<-|[]]]]; vm_compute; reflexivity);
    vm_compute; reflexivity.
Defined.

Lemma fallback_when_no_product_qualifies_witness :
  findMatchingProducts [coffeeMug] [kettle; shoe] 50
  = slice0 [kettle; shoe] 50.
Proof.
  apply (fallback_when_no_product_qualifies [coffeeMug] [kettle; shoe] 50).
  intros p [<-|[<-|[]]]; vm_compute; reflexivity.
Defined.

Lemma short_labels_fall_back_witness :
  findMatchingProducts [mkPrediction "tv" half] [television; mug] 50
  = slice0 [television; mug] 50.
Proof.
  apply (short_labels_fall_back [mkPrediction "tv" half] [television; mug] 50).
  intros pred w [<-|[]] Hw. vm_compute in Hw.
  destruct Hw as [<-|[<-|[]]]; apply le_n.
Defined.

Lemma ranked_by_descending_score_witness :
  StronglySorted
    (fun p q => ngeb (score (calculateSimilarity [coffeeMug] p))
                     (score (calculateSimilarity [coffeeMug] q)) = true)
    (findMatchingProducts [coffeeMug] [plainMug; kettle; mug] 50).
Proof.
  apply (ranked_by_descending_score [coffeeMug] [plainMug; kettle; mug] 50).
  vm_compute. discriminate.
Defined.

Lemma ranked_results_are_the_best_witness :
  ngeb (score (calculateSimilarity [coffeeMug] mug))
       (score (calculateSimilarity [coffeeMug] plainMug)) = true.
Proof.
  apply (ranked_results_are_the_best [coffeeMug] [plainMug; kettle; mug] 1
           mug plainMug).
  - vm_compute. discriminate.
  - vm_compute. left. reflexivity.
  - left. reflexivity.
  - vm_compute. reflexivity.
  - vm_compute. intros [E|[]]. discriminate E.
Defined.

Lemma ranked_count_witness :
  List.length (rankedProducts [coffeeMug] [plainMug; kettle; mug] 1)
  = Nat.min (Z.to_nat 1)
      (List.length
         (filter (fun p => ngeb (score (calculateSimilarity [coffeeMug] p))
                                (lit 100))
                 [plainMug; kettle; mug])).
Proof.
  apply (ranked_count [coffeeMug] [plainMug; kettle; mug] 1).
  apply Z.le_0_1.
Defined.

Lemma all_qualifying_returned_witness :
  Permutation
    (findMatchingProducts [coffeeMug] [plainMug; kettle; mug] 2)
    (filter (fun p => ngeb (score (calculateSimilarity [coffeeMug] p))
                           (lit 100))
            [plainMug; kettle; mug]).
Proof.
  apply (all_qualifying_returned [coffeeMug] [plainMug; kettle; mug] 2).
  - vm_compute. discriminate.
  - vm_compute. discriminate.
Defined.

Lemma ties_keep_catalog_order_witness :
  exists rest,
    filter (fun p => ngeb (score (calculateSimilarity [coffeeMug] p))
                          (score (calculateSimilarity [coffeeMug] plainMug))
                     && ngeb (score (calculateSimilarity [coffeeMug] plainMug))
                             (score (calculateSimilarity [coffeeMug] p)))
      (filter (fun p => ngeb (score (calculateSimilarity [coffeeMug] p))
                             (lit 100))
              [plainMug; kettle; mug; otherMug])
    = (filter (fun p => ngeb (score (calculateSimilarity [coffeeMug] p))
                             (score (calculateSimilarity [coffeeMug] plainMug))
                        && ngeb (score (calculateSimilarity [coffeeMug] plainMug))
                                (score (calculateSimilarity [coffeeMug] p)))
         (rankedProducts [coffeeMug] [plainMug; kettle; mug; otherMug] 50)
       ++ rest)%list.
Proof.
  apply (ties_keep_catalog_order [coffeeMug] [plainMug; kettle; mug; otherMug]
           50 (score (calculateSimilarity [coffeeMug] plainMug))).
  vm_compute. reflexivity.
Defined.

Lemma blank_query_keeps_all_witness :
  filterProducts [mug; kettle] "   " = [mug; kettle].
Proof.
  apply (blank_query_keeps_all [mug; kettle] "   "). reflexivity.
Defined.

Lemma longer_query_narrows_witness :
  In mug (filterProducts [mug; kettle] " kit").
Proof.
  apply (longer_query_narrows [mug; kettle] " kit" "Kitchen" mug).
  - exists "", "chen". reflexivity.
  - vm_compute. left. reflexivity.
Defined.

Lemma categories_cover_catalog_witness :
  In (category mug) (getCategories [mug; kettle])
  /\ In mug (filterByCategory [mug; kettle] (category mug)).
Proof.
  apply (categories_cover_catalog [mug; kettle] mug). left. reflexivity.
Defined.

Lemma results_without_duplicates_witness :
  NoDup (findMatchingProducts [coffeeMug] [plainMug; kettle; mug] 50).
Proof.
  apply (results_without_duplicates [coffeeMug] [plainMug; kettle; mug] 50).
  repeat constructor; vm_compute; intuition discriminate.
Defined.

Lemma displayed_from_catalog_witness : In mug [kettle; mug].
Proof.
  apply (displayed_from_catalog [kettle; mug]
           [Page.ImageLoaded "data:image/png"; Page.Classified [coffeeMug];
            Page.Search "mug"] mug).
  vm_compute. left. reflexivity.
Defined.

Lemma at_most_50_with_predictions_witness :
  List.length
    (Page.displayedProducts
       (Page.run [kettle; mug] [Page.Classified [coffeeMug]])) <= 50.
Proof.
  apply (at_most_50_with_predictions [kettle; mug]
           [Page.Classified [coffeeMug]]).
  vm_compute. discriminate.
Defined.

Lemma model_loaded_once_witness :
  Some 0 <> None
  /\ forall (env1 env2 : Classifier.Env (N := float) (Model := nat)
                           (Image := string)) (img' : string),
       Classifier.classify env1 = Classifier.classify env2 ->
       Classifier.classifyImage env1 img' (Some 0)
       = Classifier.classifyImage env2 img' (Some 0)
       /\ snd (Classifier.classifyImage env1 img' (Some 0)) = Some 0.
Proof.
  apply (model_loaded_once browser "Coffee Mug" None (Some 0)
           [mkPrediction "coffee mug" half]).
  reflexivity.
Defined.

Lemma no_window_no_model_witness :
  Classifier.loadModel server None = (inr tt, None)
  /\ Classifier.classifyImage server "Coffee Mug" None
     = (inl Classifier.ModelFailedToLoad, None).
Proof.
  apply (no_window_no_model server "Coffee Mug"). reflexivity.
Defined.

Lemma classified_labels_lower_case_witness :
  Forall (fun pred => toLowerCase (className pred) = className pred)
         [mkPrediction "coffee mug" half].
Proof.
  apply (classified_labels_lower_case browser "Coffee Mug" None (Some 0)
           [mkPrediction "coffee mug" half]).
  reflexivity.
Defined.

End MoreConcrete.

(** * Binary64 sums *)

Section NearestFacts.

Local Open Scope Z_scope.

Lemma pow2_lt (a b : Z) : 0 <= a < b -> 2 ^ a < 2 ^ b.
Proof. intros. apply Z.pow_lt_mono_r; lia. Qed.

(** The position of the leading bit of a number is unique. *)
Lemma position_le (v1 v2 P1 P2 : Z) :
  1 <= P1 -> 1 <= P2 ->
  2 ^ (P1 - 1) <= v1 < 2 ^ P1 -> 2 ^ (P2 - 1) <= v2 < 2 ^ P2 ->
  v1 <= v2 -> P1 <= P2.
Proof.
  intros HP1 HP2 H1 H2 Hv.
  destruct (Z.le_gt_cases P1 P2) as [|Hgt]; [assumption|exfalso].
  assert (H : 2 ^ P2 <= 2 ^ (P1 - 1)) by (apply pow2_le; lia). lia.
Qed.

Lemma even_not_succ (k1 k2 : Z) :
  Z.even k1 = true -> Z.even k2 = true -> k1 <> k2 + 1.
Proof.
  intros H1 H2 E. apply Z.even_spec in H1, H2.
  destruct H1 as [a Ha], H2 as [b Hb]. lia.
Qed.

(** Rounding to nearest is monotone. *)
Lemma nearest_mono (v1 v2 W1 W2 : Z) :
  v1 <= v2 -> nearest v1 W1 -> nearest v2 W2 -> W1 <= W2.
Proof.
  intros Hv [P1 [k1 [HP1 [Hv1 [HW1 [Hb1 Ht1]]]]]]
            [P2 [k2 [HP2 [Hv2 [HW2 [Hb2 Ht2]]]]]].
  assert (HP : P1 <= P2)
    by (apply (position_le v1 v2); try assumption; lia).
  set (h1 := Z.max (P1 - 53) 126) in *. set (h2 := Z.max (P2 - 53) 126) in *.
  assert (Hh1 : 126 <= h1) by (unfold h1; lia).
  assert (Hh2 : 126 <= h2) by (unfold h2; lia).
  assert (HH1 : 0 < 2 ^ h1) by (apply pow2_pos; lia).
  assert (HH2 : 0 < 2 ^ h2) by (apply pow2_pos; lia).
  destruct (Z.eq_dec h1 h2) as [Eh|Eh].
  - rewrite <- Eh in *. clear Eh.
    assert (Hk : k1 <= k2 + 1) by nia.
    destruct (Z.eq_dec k1 (k2 + 1)) as [E|E]; [exfalso | nia].
    assert (Hv12 : v1 = v2) by nia.
    assert (T1 : 2 * W1 = 2 * v1 + 2 ^ h1) by nia.
    assert (T2 : 2 * W2 = 2 * v2 - 2 ^ h1) by nia.
    apply (even_not_succ k1 k2); [apply Ht1; now left | apply Ht2; now right
                                 | exact E].
  - assert (HP' : P1 < P2) by (unfold h1, h2 in Eh; lia).
    assert (Hh12 : h1 <= h2) by (unfold h1, h2; lia).
    assert (Hh2P : h2 <= P2 - 1) by (unfold h2; lia).
    set (B := 2 ^ (P2 - 1)).
    assert (Hv1B : v1 < B).
    { assert (H : 2 ^ P1 <= B) by (apply pow2_le; lia). lia. }
    assert (HB1 : B = 2 ^ (P2 - 1 - h1) * 2 ^ h1).
    { unfold B. rewrite <- pow2_split by lia. f_equal. lia. }
    assert (HB2 : B = 2 ^ (P2 - 1 - h2) * 2 ^ h2).
    { unfold B. rewrite <- pow2_split by lia. f_equal. lia. }
    assert (Hb1' : 0 < 2 ^ (P2 - 1 - h1)) by (apply pow2_pos; lia).
    assert (Hb2' : 0 < 2 ^ (P2 - 1 - h2)) by (apply pow2_pos; lia).
    assert (HW1B : W1 <= B).
    { rewrite HW1, HB1. apply Z.mul_le_mono_nonneg_r; [lia|]. nia. }
    assert (HW2B : B <= W2).
    { rewrite HW2, HB2. apply Z.mul_le_mono_nonneg_r; [lia|]. nia. }
    lia.
Qed.

(** A number of the format rounds to itself, and to nothing else. *)
Lemma nearest_format (P m : Z) :
  127 <= P -> 2 ^ (P - 1) <= m * 2 ^ Z.max (P - 53) 126 < 2 ^ P ->
  nearest (m * 2 ^ Z.max (P - 53) 126) (m * 2 ^ Z.max (P - 53) 126).
Proof.
  intros HP Hm. exists P, m.
  assert (HH : 0 < 2 ^ Z.max (P - 53) 126) by (apply pow2_pos; lia).
  repeat split; lia.
Qed.

(** A rounded value at or above [2^2224] when the number is. *)
Lemma nearest_overflow (v W : Z) : 2 ^ 2224 <= v -> nearest v W -> 2 ^ 2224 <= W.
Proof.
  intros Hv [P [k [HP [HvP [HW [Hb _]]]]]].
  set (h := Z.max (P - 53) 126) in *.
  assert (HH : 0 < 2 ^ h) by (apply pow2_pos; unfold h; lia).
  assert (HP' : 2224 < P).
  { destruct (Z.lt_ge_cases 2224 P) as [|Hle]; [assumption|exfalso].
    assert (H : 2 ^ P <= 2 ^ 2224) by (apply pow2_le; lia). lia. }
  destruct (Z.le_gt_cases h 2224) as [Hh|Hh].
  - assert (HB : 2 ^ 2224 = 2 ^ (2224 - h) * 2 ^ h).
    { rewrite <- pow2_split by (unfold h in *; lia). f_equal. lia. }
    assert (Hb' : 0 < 2 ^ (2224 - h)) by (apply pow2_pos; lia).
    rewrite HW, HB. apply Z.mul_le_mono_nonneg_r; [lia|].
    rewrite HB in Hv. nia.
  - assert (Hk : 1 <= k).
    { assert (Hs : 2 ^ (P - 1) = 2 ^ (P - 1 - h) * 2 ^ h).
      { rewrite <- pow2_split by (unfold h in *; lia). f_equal. lia. }
      assert (Hb' : 2 ^ 1 <= 2 ^ (P - 1 - h))
        by (apply pow2_le; unfold h in *; lia).
      change (2 ^ 1) with 2 in Hb'. nia. }
    assert (H : 2 ^ 2224 <= 2 ^ h) by (apply pow2_le; lia).
    rewrite HW. nia.
Qed.

Lemma nearest_nonneg (v W : Z) : nearest v W -> 0 < W.
Proof.
  intros [P [k [HP [HvP [HW [Hb _]]]]]].
  set (h := Z.max (P - 53) 126) in *.
  assert (HH : 0 < 2 ^ h) by (apply pow2_pos; unfold h; lia).
  assert (Hs : 2 ^ (P - 1) = 2 ^ (P - 1 - h) * 2 ^ h).
  { rewrite <- pow2_split by (unfold h in *; lia). f_equal. lia. }
  assert (Hb' : 0 < 2 ^ (P - 1 - h)) by (apply pow2_pos; unfold h in *; lia).
  nia.
Qed.

Lemma roundedSum_range (v K : Z) : roundedSum v K -> 0 <= K <= 2 ^ 3000.
Proof.
  assert (Htop : 2 ^ 2224 <= 2 ^ 3000) by (apply pow2_le; lia).
  assert (H0 : 0 < 2 ^ 2224) by (apply pow2_pos; lia).
  intros [[_ ->]|[[_ ->]|[W [HW ->]]]]; try lia.
  pose proof (nearest_nonneg v W HW).
  destruct (W <? 2 ^ 2224) eqn:E; [apply Z.ltb_lt in E|]; lia.
Qed.

(** The binary64 sum is monotone in the exact sum. *)
Lemma roundedSum_mono (v1 v2 K1 K2 : Z) :
  v1 <= v2 -> roundedSum v1 K1 -> roundedSum v2 K2 -> K1 <= K2.
Proof.
  intros Hv H1 H2.
  pose proof (roundedSum_range v1 K1 H1) as R1.
  pose proof (roundedSum_range v2 K2 H2) as R2.
  assert (H0 : 0 < 2 ^ 2224) by (apply pow2_pos; lia).
  destruct H1 as [[E1 ->]|[[E1 ->]|[W1 [HW1 ->]]]]; [lia| |].
  - destruct H2 as [[E2 ->]|[[E2 ->]|[W2 [HW2 ->]]]]; [lia|lia|].
    pose proof (nearest_overflow v2 W2 ltac:(lia) HW2) as Ho.
    destruct (W2 <? 2 ^ 2224) eqn:E; [apply Z.ltb_lt in E|]; lia.
  - destruct H2 as [[E2 ->]|[[E2 ->]|[W2 [HW2 ->]]]].
    + destruct HW1 as [P [k [HP [HvP _]]]].
      assert (0 < 2 ^ (P - 1)) by (apply pow2_pos; lia). lia.
    + lia.
    + pose proof (nearest_mono v1 v2 W1 W2 Hv HW1 HW2) as Hm.
      assert (Htop : 2 ^ 2224 <= 2 ^ 3000) by (apply pow2_le; lia).
      destruct (W1 <? 2 ^ 2224) eqn:E1, (W2 <? 2 ^ 2224) eqn:E2;
        try apply Z.ltb_lt in E1; try apply Z.ltb_lt in E2;
        try apply Z.ltb_ge in E1; try apply Z.ltb_ge in E2; lia.
Qed.

End NearestFacts.

Section RoundingFacts.

Local Open Scope Z_scope.

(** Rounding to nearest even after a shift: a result exactly half a unit
    away is even. *)
Lemma round_after_shift_even (n M : Z) (mrs : shr_record) :
  1 <= n -> shr_inv n M mrs ->
  let q := round_nearest_even (shr_m mrs) (loc_of_shr_record mrs) in
  2 * (q * 2 ^ n) = 2 * M + 2 ^ n \/ 2 * (q * 2 ^ n) = 2 * M - 2 ^ n ->
  Z.even q = true.
Proof.
  intros Hn [Hm [low [HM [Hlow Hs]]]] q. subst q.
  destruct mrs as [m r s]. cbn [shr_m shr_r shr_s] in *.
  assert (Hp : 2 ^ n = 2 * 2 ^ (n - 1)).
  { replace n with (n - 1 + 1) at 1 by lia. apply pow2_succ. lia. }
  assert (Hpp : 0 < 2 ^ (n - 1)) by (apply pow2_pos; lia).
  assert (Hs' : s = false -> low = 0).
  { intros ->. destruct Hs as [_ Hs2]. destruct (Z.eq_dec low 0); [assumption|].
    assert (H0 : 0 < low) by lia. specialize (Hs2 H0). discriminate. }
  assert (Hs'' : s = true -> 0 < low) by (intros ->; now apply Hs).
  destruct r, s; cbn [loc_of_shr_record round_nearest_even];
    try (specialize (Hs'' eq_refl)); try (specialize (Hs' eq_refl); subst low).
  - intros [T|T]; exfalso; nia.
  - intros _. destruct (Z.even m) eqn:Em; [exact Em|].
    rewrite Z.add_1_r, Z.even_succ, <- Z.negb_even, Em. reflexivity.
  - intros [T|T]; exfalso; nia.
  - intros [T|T]; exfalso; nia.
Qed.

(** The result of rounding the positive number [M * 2^E], whose exponent is
    at most the canonical one, to binary64: the nearest number of the
    format, or [Infinity] when that is [2^1024] or more. *)
Lemma round_aux_nearest (pM : positive) (E : Z) :
  -1074 <= E -> E <= fexp prec emax (Zpos (digits2_pos pM) + E) ->
  exists W,
    nearest (Zpos pM * 2 ^ (E + 1200)) W
    /\ ((binary_round_aux prec emax false (Zpos pM) E loc_Exact
         = S754_infinity false /\ 2 ^ 2224 <= W)
        \/ exists m e,
             binary_round_aux prec emax false (Zpos pM) E loc_Exact
             = S754_finite false m e /\ val m e = W).
Proof.
  intros HE Hcanon.
  pose proof (digits_bounds pM) as Hd.
  set (d := Zpos (digits2_pos pM)) in *.
  assert (Hdpos : 1 <= d) by (unfold d; lia).
  rewrite fexp_value in Hcanon.
  set (e1 := Z.max (d + E - 53) (-1074)) in *.
  set (n := e1 - E).
  set (P := d + E + 1200).
  assert (HP : 127 <= P) by (unfold P; lia).
  assert (Hh : Z.max (P - 53) 126 = e1 + 1200) by (unfold P, e1; lia).
  assert (HpE : 0 < 2 ^ (E + 1200)) by (apply pow2_pos; lia).
  assert (HvP : 2 ^ (P - 1) <= Zpos pM * 2 ^ (E + 1200) < 2 ^ P).
  { unfold P.
    replace (d + E + 1200 - 1) with (d - 1 + (E + 1200)) by lia.
    replace (d + E + 1200) with (d + (E + 1200)) by lia.
    rewrite (pow2_split (d - 1) (E + 1200)), (pow2_split d (E + 1200)) by lia.
    nia. }
  assert (Hgrid : 2 ^ (e1 + 1200) = 2 ^ n * 2 ^ (E + 1200)).
  { rewrite <- pow2_split by (unfold n; lia). f_equal. unfold n. lia. }
  assert (Hpn : 0 < 2 ^ n) by (apply pow2_pos; unfold n; lia).
  assert (Hnear : forall q,
            2 * Zpos pM - 2 ^ n <= 2 * (q * 2 ^ n) <= 2 * Zpos pM + 2 ^ n ->
            (2 * (q * 2 ^ n) = 2 * Zpos pM + 2 ^ n
             \/ 2 * (q * 2 ^ n) = 2 * Zpos pM - 2 ^ n -> Z.even q = true) ->
            nearest (Zpos pM * 2 ^ (E + 1200)) (q * 2 ^ (e1 + 1200))).
  { intros q Hq Heven. exists P, q. rewrite Hh, Hgrid.
    split; [exact HP|]. split; [exact HvP|]. split; [reflexivity|].
    split; [nia|]. intros [T|T]; apply Heven; [left | right]; nia. }
  assert (Hq52 : forall q, e1 <> -1074 \/ n = 0 ->
            2 * Zpos pM - 2 ^ n <= 2 * (q * 2 ^ n) ->
            (1 <= q) /\ (971 < e1 -> 2 ^ 52 <= q)).
  { intros q Hn Hq. split.
    - destruct Hn as [Hn|Hn].
      + assert (En : n = d - 53) by (unfold n, e1 in *; lia).
        assert (Hn0 : 0 <= n) by (unfold n; lia).
        assert (Hs : 2 ^ (d - 1) = 2 ^ 52 * 2 ^ n).
        { rewrite <- pow2_split by lia. f_equal. lia. }
        change (2 ^ 52) with 4503599627370496 in Hs. nia.
      + rewrite Hn in *. change (2 ^ 0) with 1 in *. lia.
    - intros He1.
      assert (En : n = d - 53) by (unfold n, e1 in *; lia).
      assert (Hn0 : 0 <= n) by (unfold n; lia).
      assert (Hs : 2 ^ (d - 1) = 2 ^ 52 * 2 ^ n).
      { rewrite <- pow2_split by lia. f_equal. lia. }
      change (2 ^ 52) with 4503599627370496 in *. nia. }
  assert (Hover : forall q, 971 < e1 -> 2 ^ 52 <= q ->
            2 ^ 2224 <= q * 2 ^ (e1 + 1200)).
  { intros q He1 Hq.
    assert (H1 : 2 ^ 2172 <= 2 ^ (e1 + 1200)) by (apply pow2_le; lia).
    assert (H2 : 2 ^ 2224 = 2 ^ 52 * 2 ^ 2172) by reflexivity.
    assert (H3 : 0 < 2 ^ 2172) by (apply pow2_pos; lia).
    rewrite H2. apply Z.mul_le_mono_nonneg; lia. }
  unfold binary_round_aux, shr_fexp.
  change (Zdigits2 (Zpos pM)) with d. rewrite fexp_value. fold e1.
  destruct (e1 - E) as [|pn|pn] eqn:En0; [| |lia].
  - (* no shift *)
    assert (He1 : e1 = E) by lia.
    assert (Hn : n = 0) by (unfold n; lia).
    cbn [shr shr_record_of_loc shr_m loc_of_shr_record round_nearest_even].
    change (Zdigits2 (Zpos pM)) with d. rewrite fexp_value. fold e1.
    rewrite En0. cbn [shr shr_record_of_loc shr_m].
    exists (Zpos pM * 2 ^ (e1 + 1200)). split.
    { apply Hnear; rewrite Hn; change (2 ^ 0) with 1; lia. }
    destruct (Hq52 (Zpos pM) (or_intror Hn)) as [_ H52].
    { rewrite Hn. change (2 ^ 0) with 1. lia. }
    change (emax - prec) with 971.
    destruct (E <=? 971) eqn:Ee.
    + right. exists pM, E. split; [reflexivity|]. unfold val. now rewrite He1.
    + left. apply Z.leb_gt in Ee. split; [reflexivity|].
      apply Hover; [lia | apply H52; lia].
  - (* a shift by pn bits *)
    assert (Hn : n = Zpos pn) by (unfold n; lia).
    assert (He1' : E + Zpos pn = e1) by lia.
    cbn [shr shr_record_of_loc].
    rewrite iter_pos_nat.
    destruct (Pos.to_nat pn) as [|k] eqn:Ek; [lia|].
    pose proof (shr_iter k (Zpos pM) ltac:(lia)) as Hinv.
    replace (Z.of_nat (S k)) with n in Hinv by lia.
    set (mrs := Nat.iter (S k) shr_1 (Build_shr_record (Zpos pM) false false)) in *.
    pose proof (round_after_shift n (Zpos pM) mrs ltac:(lia) Hinv) as Hq.
    pose proof (round_after_shift_even n (Zpos pM) mrs ltac:(lia) Hinv) as Hev.
    cbv zeta in Hq, Hev.
    set (q := round_nearest_even (shr_m mrs) (loc_of_shr_record mrs)) in *.
    destruct Hq as [Hq0 [Hq1 [Hq2 Hq3]]].
    rewrite He1'.
    exists (q * 2 ^ (e1 + 1200)). split; [now apply Hnear|].
    assert (Hne : e1 <> -1074) by lia.
    destruct (Hq52 q (or_introl Hne) (proj1 Hq1)) as [Hq1' H52].
    assert (Hdn : d <= n + 53) by (unfold n, e1; lia).
    assert (Hq53 : q <= 2 ^ 53).
    { assert (H1 : 2 ^ d <= 2 ^ (n + 53)) by (apply pow2_le; lia).
      rewrite pow2_split in H1 by lia. nia. }
    destruct q as [|pq|pq] eqn:Eq; [lia| |lia].
    change (emax - prec) with 971.
    pose proof (digits_bounds pq) as Hdq.
    cbn [Zdigits2]. rewrite fexp_value.
    destruct (Z.max (Zpos (digits2_pos pq) + e1 - 53) (-1074) - e1)
      as [|p2|p2] eqn:E2.
    + cbn [shr shr_record_of_loc shr_m].
      destruct (e1 <=? 971) eqn:Ee.
      * right. exists pq, e1. split; reflexivity.
      * left. apply Z.leb_gt in Ee. split; [reflexivity|].
        apply Hover; [lia | apply H52; lia].
    + (* the rounding carried to 2^53 *)
      assert (Hdq54 : 54 <= Zpos (digits2_pos pq)) by lia.
      assert (Hq' : Zpos pq = 2 ^ 53).
      { assert (H1 : 2 ^ 53 <= 2 ^ (Zpos (digits2_pos pq) - 1))
          by (apply pow2_le; lia).
        lia. }
      assert (Epq : pq = 9007199254740992%positive) by lia.
      subst pq.
      assert (Hd54 : digits2_pos 9007199254740992 = 54%positive) by reflexivity.
      rewrite Hd54 in E2.
      assert (Ep2 : p2 = 1%positive) by lia.
      subst p2. cbn [shr shr_record_of_loc iter_pos shr_1 shr_m].
      assert (Hcarry : val 4503599627370496 (e1 + 1)
                       = 9007199254740992 * 2 ^ (e1 + 1200)).
      { unfold val. replace (e1 + 1 + 1200) with (e1 + 1200 + 1) by lia.
        rewrite pow2_succ by lia. lia. }
      destruct (e1 + 1 <=? 971) eqn:Ee.
      * right. exists 4503599627370496%positive, (e1 + 1).
        split; [reflexivity | exact Hcarry].
      * left. apply Z.leb_gt in Ee. split; [reflexivity|].
        assert (H1 : 2 ^ 2171 <= 2 ^ (e1 + 1200)) by (apply pow2_le; lia).
        assert (H2 : 2 ^ 2224 = 9007199254740992 * 2 ^ 2171) by reflexivity.
        rewrite H2. apply Z.mul_le_mono_nonneg_l; lia.
    + cbn [shr shr_record_of_loc shr_m].
      destruct (e1 <=? 971) eqn:Ee.
      * right. exists pq, e1. split; reflexivity.
      * left. apply Z.leb_gt in Ee. split; [reflexivity|].
        apply Hover; [lia | apply H52; lia].
Qed.

End RoundingFacts.

Section Binary64Sums.

Local Open Scope Z_scope.

Lemma digits_unique (p : positive) (a : Z) :
  1 <= a -> 2 ^ (a - 1) <= Zpos p < 2 ^ a -> Zpos (digits2_pos p) = a.
Proof.
  intros Ha Hp. pose proof (digits_bounds p) as Hd.
  assert (H1 : Zpos (digits2_pos p) <= a)
    by (apply (position_le (Zpos p) (Zpos p)); try assumption; lia).
  assert (H2 : a <= Zpos (digits2_pos p))
    by (apply (position_le (Zpos p) (Zpos p)); try assumption; lia).
  lia.
Qed.

(** [binary_round] on a positive number whose exponent is at least the
    smallest one: the nearest number of the format, or [Infinity]. *)
Lemma binary_round_nearest (pM : positive) (E : Z) :
  -1074 <= E ->
  exists W,
    nearest (Zpos pM * 2 ^ (E + 1200)) W
    /\ ((binary_round prec emax false pM E = S754_infinity false
         /\ 2 ^ 2224 <= W)
        \/ exists m e,
             binary_round prec emax false pM E = S754_finite false m e
             /\ val m e = W).
Proof.
  intros HE. unfold binary_round.
  set (d := Zpos (digits2_pos pM)).
  pose proof (digits_bounds pM) as Hd. fold d in Hd.
  assert (Hdpos : 1 <= d) by (unfold d; lia).
  set (e' := fexp prec emax (d + E)).
  assert (He' : e' = Z.max (d + E - 53) (-1074)) by apply fexp_value.
  destruct (shl_align_spec pM E e') as [Hfst Hsnd].
  destruct (shl_align pM E e') as [mz ez]. cbn [fst snd] in Hfst, Hsnd.
  set (k := E - Z.min E e') in *.
  assert (Hk : 0 <= k) by (unfold k; lia).
  assert (Hpk : 0 < 2 ^ k) by (apply pow2_pos; lia).
  assert (Hdz : Zpos (digits2_pos mz) = d + k).
  { apply digits_unique; [lia|]. rewrite Hfst.
    replace (d + k - 1) with (d - 1 + k) by lia.
    rewrite (pow2_split (d - 1) k), (pow2_split d k) by lia. nia. }
  assert (Hval : Zpos mz * 2 ^ (ez + 1200) = Zpos pM * 2 ^ (E + 1200)).
  { rewrite Hfst. replace (E + 1200) with (k + (ez + 1200)) by (unfold k; lia).
    rewrite (pow2_split k (ez + 1200)) by lia. lia. }
  rewrite <- Hval.
  apply round_aux_nearest; [lia|].
  rewrite Hdz, fexp_value. unfold k. lia.
Qed.

(** The sum of two positive binary64 numbers. *)
Lemma SFadd_positive (mx : positive) (ex : Z) (mc : positive) (ec : Z) :
  bounded prec emax mx ex = true -> bounded prec emax mc ec = true ->
  exists W,
    nearest (val mx ex + val mc ec) W
    /\ ((SFadd prec emax (S754_finite false mx ex) (S754_finite false mc ec)
         = S754_infinity false /\ 2 ^ 2224 <= W)
        \/ exists m e,
             SFadd prec emax (S754_finite false mx ex)
                   (S754_finite false mc ec)
             = S754_finite false m e /\ val m e = W).
Proof.
  intros Hx Hc.
  destruct (bounded_facts mx ex Hx) as [Hex _].
  destruct (bounded_facts mc ec Hc) as [Hec _].
  cbn [SFadd cond_Zopp].
  destruct (shl_align_spec mx ex (Z.min ex ec)) as [Hmx _].
  destruct (shl_align_spec mc ec (Z.min ex ec)) as [Hmc _].
  rewrite Hmx, Hmc.
  replace (Z.min ex (Z.min ex ec)) with (Z.min ex ec) by lia.
  replace (Z.min ec (Z.min ex ec)) with (Z.min ex ec) by lia.
  set (ez := Z.min ex ec).
  assert (Hvx : val mx ex = Zpos mx * 2 ^ (ex - ez) * 2 ^ (ez + 1200)).
  { unfold val. rewrite <- Z.mul_assoc, <- pow2_split by lia.
    do 2 f_equal. lia. }
  assert (Hvc : val mc ec = Zpos mc * 2 ^ (ec - ez) * 2 ^ (ez + 1200)).
  { unfold val. rewrite <- Z.mul_assoc, <- pow2_split by lia.
    do 2 f_equal. lia. }
  assert (Ha : 0 < Zpos mx * 2 ^ (ex - ez)).
  { assert (0 < 2 ^ (ex - ez)) by (apply pow2_pos; lia). nia. }
  assert (Hb : 0 < Zpos mc * 2 ^ (ec - ez)).
  { assert (0 < 2 ^ (ec - ez)) by (apply pow2_pos; lia). nia. }
  rewrite Hvx, Hvc, <- Z.mul_add_distr_r.
  destruct (Zpos mx * 2 ^ (ex - ez) + Zpos mc * 2 ^ (ec - ez))
    as [|M|M] eqn:EM; [lia| |lia].
  cbn [binary_normalize].
  apply binary_round_nearest. lia.
Qed.

(** A binary64 number that is at least 0 is a zero, a positive finite
    number or [Infinity]. *)
Lemma at_least_0_cases (x : float) :
  PrimFloat.leb (float_of_Z 0) x = true ->
  (exists s, Prim2SF x = S754_zero s)
  \/ Prim2SF x = S754_infinity false
  \/ exists m e, Prim2SF x = S754_finite false m e
                 /\ bounded prec emax m e = true.
Proof.
  rewrite leb_spec, const_0. pose proof (Prim2SF_valid x) as Hv.
  destruct (Prim2SF x) as [s|[|]| |[|] m e]; cbn; try discriminate.
  - intros _. left. now exists s.
  - intros _. right. now left.
  - intros _. right. right. exists m, e. split; [reflexivity | exact Hv].
Qed.

Lemma val_below_overflow (m : positive) (e : Z) :
  bounded prec emax m e = true -> val m e < 2 ^ 2224.
Proof.
  intros Hb. destruct (bounded_facts m e Hb) as [He [Hm _]]. unfold val.
  assert (Hp : 0 < 2 ^ (e + 1200)) by (apply pow2_pos; lia).
  assert (H1 : 2 ^ (e + 1200) <= 2 ^ 2171) by (apply pow2_le; lia).
  assert (H2 : 2 ^ 53 * 2 ^ 2171 = 2 ^ 2224)
    by (rewrite <- pow2_split by lia; reflexivity).
  nia.
Qed.

(** A number of the format is its own rounding. *)
Lemma val_nearest (m : positive) (e : Z) :
  bounded prec emax m e = true -> nearest (val m e) (val m e).
Proof.
  intros Hb. destruct (bounded_facts m e Hb) as [He _].
  unfold bounded, canonical_mantissa in Hb.
  apply andb_true_iff in Hb. destruct Hb as [Hc _].
  apply Z.eqb_eq in Hc. rewrite fexp_value in Hc.
  pose proof (digits_bounds m) as Hd.
  set (d := Zpos (digits2_pos m)) in *.
  assert (Hh : Z.max (d + e + 1200 - 53) 126 = e + 1200) by lia.
  unfold val. rewrite <- Hh.
  apply nearest_format; [unfold d; lia|]. rewrite Hh.
  assert (Hp : 0 < 2 ^ (e + 1200)) by (apply pow2_pos; lia).
  replace (d + e + 1200 - 1) with (d - 1 + (e + 1200)) by lia.
  replace (d + e + 1200) with (d + (e + 1200)) by lia.
  rewrite (pow2_split (d - 1) (e + 1200)), (pow2_split d (e + 1200))
    by (unfold d; lia).
  nia.
Qed.

Lemma orderKey_self (x : float) :
  PrimFloat.leb (float_of_Z 0) x = true ->
  roundedSum (orderKey (Prim2SF x)) (orderKey (Prim2SF x)).
Proof.
  intros Hx.
  destruct (at_least_0_cases x Hx) as [[s ->]|[->|[m [e [-> Hb]]]]];
    cbn [orderKey].
  - left. now split.
  - right. left. split; [apply pow2_le; lia | reflexivity].
  - right. right. exists (val m e). split; [now apply val_nearest|].
    pose proof (val_below_overflow m e Hb) as Hv.
    apply Z.ltb_lt in Hv. now rewrite Hv.
Qed.

(** The order of the binary64 numbers that are at least 0 is the order of
    their values. *)
Lemma nonneg_order (x y : float) :
  PrimFloat.leb (float_of_Z 0) x = true ->
  PrimFloat.leb (float_of_Z 0) y = true ->
  PrimFloat.leb x y = (orderKey (Prim2SF x) <=? orderKey (Prim2SF y))
  /\ PrimFloat.ltb x y = (orderKey (Prim2SF x) <? orderKey (Prim2SF y)).
Proof.
  intros Hx Hy. rewrite leb_spec, ltb_spec.
  destruct (at_least_0_cases x Hx) as [[sx Ex]|[Ex|[mx [ex [Ex Bx]]]]];
    destruct (at_least_0_cases y Hy) as [[sy Ey]|[Ey|[my [ey [Ey By]]]]];
    rewrite Ex, Ey; clear Hx Hy Ex Ey x y; cbn [orderKey];
    unfold SFleb, SFltb; try rewrite (SFcompare_val _ _ _ _ Bx By);
    cbn [SFcompare];
    try (pose proof (val_below_top mx ex Bx) as Hvx);
    try (pose proof (val_below_top my ey By) as Hvy);
    assert (Htop : 0 < 2 ^ 3000) by (apply pow2_pos; lia).
  - split; reflexivity.
  - split; symmetry; [apply Z.leb_le | apply Z.ltb_lt]; lia.
  - split; symmetry; [apply Z.leb_le | apply Z.ltb_lt]; lia.
  - split; symmetry; [apply Z.leb_gt | apply Z.ltb_ge]; lia.
  - split; symmetry; [apply Z.leb_le | apply Z.ltb_ge]; lia.
  - split; symmetry; [apply Z.leb_gt | apply Z.ltb_ge]; lia.
  - split; symmetry; [apply Z.leb_gt | apply Z.ltb_ge]; lia.
  - split; symmetry; [apply Z.leb_le | apply Z.ltb_lt]; lia.
  - destruct (Z.compare_spec (val mx ex) (val my ey)); split; symmetry;
      first [apply Z.leb_le; lia | apply Z.leb_gt; lia
            | apply Z.ltb_lt; lia | apply Z.ltb_ge; lia].
Qed.

(** The binary64 sum of two numbers that are at least 0 is at least 0, and
    its value is the rounded sum of their values. *)
Lemma add_nonneg (x c : float) :
  PrimFloat.leb (float_of_Z 0) x = true ->
  PrimFloat.leb (float_of_Z 0) c = true ->
  PrimFloat.leb (float_of_Z 0) (x + c) = true
  /\ roundedSum (orderKey (Prim2SF x) + orderKey (Prim2SF c))
                (orderKey (Prim2SF (x + c))).
Proof.
  intros Hx Hc.
  pose proof (orderKey_self x Hx) as Sx. pose proof (orderKey_self c Hc) as Sc.
  pose proof (Prim2SF_valid (x + c)) as Hvalid.
  rewrite add_spec in Hvalid.
  rewrite leb_spec, add_spec, const_0. unfold SF64add in *.
  destruct (at_least_0_cases x Hx) as [[sx Ex]|[Ex|[mx [ex [Ex Bx]]]]];
    destruct (at_least_0_cases c Hc) as [[sc Ec]|[Ec|[mc [ec [Ec Bc]]]]];
    rewrite Ex, Ec in *; clear Hx Hc Ex Ec; cbn [orderKey] in *.
  - split; [now destruct sx, sc|]. left.
    split; [reflexivity | now destruct sx, sc].
  - split; [reflexivity | exact Sc].
  - split; [reflexivity | exact Sc].
  - split; [reflexivity|]. cbn [SFadd orderKey]. now rewrite Z.add_0_r.
  - split; [reflexivity|]. cbn [SFadd orderKey]. right. left.
    split; [|reflexivity].
    assert (H : 2 ^ 2224 <= 2 ^ 3000) by (apply pow2_le; lia).
    assert (H0 : 0 < 2 ^ 3000) by (apply pow2_pos; lia). lia.
  - split; [reflexivity|]. cbn [SFadd orderKey]. right. left.
    split; [|reflexivity].
    assert (H : 2 ^ 2224 <= 2 ^ 3000) by (apply pow2_le; lia).
    pose proof (val_below_top mc ec Bc). lia.
  - split; [reflexivity|]. cbn [SFadd orderKey]. now rewrite Z.add_0_r.
  - split; [reflexivity|]. cbn [SFadd orderKey]. right. left.
    split; [|reflexivity].
    assert (H : 2 ^ 2224 <= 2 ^ 3000) by (apply pow2_le; lia).
    pose proof (val_below_top mx ex Bx). lia.
  - destruct (SFadd_positive mx ex mc ec Bx Bc)
      as [W [HW [[Er Ho]|[m [e [Er Hv]]]]]]; rewrite Er in *.
    + split; [reflexivity|]. cbn [orderKey]. right. right. exists W.
      split; [exact HW|]. apply Z.ltb_ge in Ho. now rewrite Ho.
    + split; [reflexivity|]. cbn [orderKey]. right. right. exists W.
      split; [exact HW|]. rewrite Hv.
      pose proof (val_below_overflow m e Hvalid) as Hb. rewrite Hv in Hb.
      apply Z.ltb_lt in Hb. now rewrite Hb.
Qed.

(** Adding a number that is at least 0 never lowers a binary64 number
    that is at least 0, and the sum is monotone in each summand. *)
Lemma add_nonneg_ge (x c : float) :
  PrimFloat.leb (float_of_Z 0) x = true ->
  PrimFloat.leb (float_of_Z 0) c = true ->
  PrimFloat.leb x (x + c) = true /\ PrimFloat.leb c (x + c) = true.
Proof.
  intros Hx Hc. destruct (add_nonneg x c Hx Hc) as [Hs Hsum].
  rewrite (proj1 (nonneg_order x (x + c) Hx Hs)).
  rewrite (proj1 (nonneg_order c (x + c) Hc Hs)).
  pose proof (roundedSum_range _ _ (orderKey_self x Hx)) as Rx.
  pose proof (roundedSum_range _ _ (orderKey_self c Hc)) as Rc.
  split; apply Z.leb_le.
  - apply (roundedSum_mono (orderKey (Prim2SF x))
             (orderKey (Prim2SF x) + orderKey (Prim2SF c)));
      [lia | now apply orderKey_self | exact Hsum].
  - apply (roundedSum_mono (orderKey (Prim2SF c))
             (orderKey (Prim2SF x) + orderKey (Prim2SF c)));
      [lia | now apply orderKey_self | exact Hsum].
Qed.

Lemma add_nonneg_mono (x y c : float) :
  PrimFloat.leb (float_of_Z 0) x = true ->
  PrimFloat.leb (float_of_Z 0) y = true ->
  PrimFloat.leb (float_of_Z 0) c = true ->
  PrimFloat.leb x y = true -> PrimFloat.leb (x + c) (y + c) = true.
Proof.
  intros Hx Hy Hc Hxy.
  destruct (add_nonneg x c Hx Hc) as [Hsx Hsumx].
  destruct (add_nonneg y c Hy Hc) as [Hsy Hsumy].
  rewrite (proj1 (nonneg_order x y Hx Hy)) in Hxy. apply Z.leb_le in Hxy.
  rewrite (proj1 (nonneg_order _ _ Hsx Hsy)). apply Z.leb_le.
  refine (roundedSum_mono _ _ _ _ _ Hsumx Hsumy). clear - Hxy. lia.
Qed.

Lemma add_nonneg_mono_r (x c d : float) :
  PrimFloat.leb (float_of_Z 0) x = true ->
  PrimFloat.leb (float_of_Z 0) c = true ->
  PrimFloat.leb (float_of_Z 0) d = true ->
  PrimFloat.leb c d = true -> PrimFloat.leb (x + c) (x + d) = true.
Proof.
  intros Hx Hc Hd Hcd.
  destruct (add_nonneg x c Hx Hc) as [Hsc Hsumc].
  destruct (add_nonneg x d Hx Hd) as [Hsd Hsumd].
  rewrite (proj1 (nonneg_order c d Hc Hd)) in Hcd. apply Z.leb_le in Hcd.
  rewrite (proj1 (nonneg_order _ _ Hsc Hsd)). apply Z.leb_le.
  refine (roundedSum_mono _ _ _ _ _ Hsumc Hsumd). clear - Hcd. lia.
Qed.

Lemma leb_nonneg_trans (x y z : float) :
  PrimFloat.leb (float_of_Z 0) x = true ->
  PrimFloat.leb (float_of_Z 0) y = true ->
  PrimFloat.leb (float_of_Z 0) z = true ->
  PrimFloat.leb x y = true -> PrimFloat.leb y z = true ->
  PrimFloat.leb x z = true.
Proof.
  intros Hx Hy Hz.
  rewrite (proj1 (nonneg_order x y Hx Hy)), (proj1 (nonneg_order y z Hy Hz)),
    (proj1 (nonneg_order x z Hx Hz)), !Z.leb_le. lia.
Qed.

Lemma leb_nonneg_refl (x : float) :
  PrimFloat.leb (float_of_Z 0) x = true -> PrimFloat.leb x x = true.
Proof.
  intros Hx. rewrite (proj1 (nonneg_order x x Hx Hx)). apply Z.leb_refl.
Qed.

Lemma ltb_leb_nonneg_trans (x y z : float) :
  PrimFloat.leb (float_of_Z 0) x = true ->
  PrimFloat.leb (float_of_Z 0) y = true ->
  PrimFloat.leb (float_of_Z 0) z = true ->
  PrimFloat.ltb x y = true -> PrimFloat.leb y z = true ->
  PrimFloat.ltb x z = true.
Proof.
  intros Hx Hy Hz.
  rewrite (proj2 (nonneg_order x y Hx Hy)), (proj1 (nonneg_order y z Hy Hz)),
    (proj2 (nonneg_order x z Hx Hz)), !Z.leb_le, !Z.ltb_lt. lia.
Qed.

End Binary64Sums.

(** * The score of a longer prediction list *)

Section SubsequenceFacts.

Context {A : Type}.

Lemma Subsequence_refl (l : list A) : Subsequence l l.
Proof. induction l; constructor; assumption. Qed.

Lemma Subsequence_app (l1 l1' l2 l2' : list A) :
  Subsequence l1 l1' -> Subsequence l2 l2' ->
  Subsequence (l1 ++ l2) (l1' ++ l2').
Proof.
  intros H1 H2. induction H1 as [l'|x l l' H IH|y l l' H IH]; cbn [app].
  - induction l' as [|y l' IH]; [exact H2 | now constructor].
  - now constructor.
  - now constructor.
Qed.

Lemma Subsequence_app_l (l e : list A) : Subsequence l (l ++ e).
Proof.
  rewrite <- (app_nil_r l) at 1.
  apply Subsequence_app; [apply Subsequence_refl | constructor].
Qed.

Lemma Subsequence_flat_map {B : Type} (f g : B -> list A) (l : list B) :
  (forall x, Subsequence (f x) (g x)) ->
  Subsequence (flat_map f l) (flat_map g l).
Proof.
  intros Hfg. induction l as [|x l IH]; cbn [flat_map]; [constructor|].
  now apply Subsequence_app.
Qed.

End SubsequenceFacts.

Section IndexGrowth.

Context {N : Type} `{Number N}.

(** The contributions of an index are among those of a longer index, in
    the same order. *)
Lemma contributions_Subsequence (i1 i2 : list (PredictionWord N))
    (p : Product N) :
  Subsequence (contributions i1 p) (contributions (i1 ++ i2) p).
Proof.
  unfold contributions.
  apply Subsequence_app; [|apply Subsequence_app].
  - apply Subsequence_flat_map. intros tag.
    apply Subsequence_flat_map. intros tw.
    rewrite flat_map_app. apply Subsequence_app_l.
  - apply Subsequence_flat_map. intros nw.
    rewrite flat_map_app. apply Subsequence_app_l.
  - rewrite flat_map_app. apply Subsequence_app_l.
Qed.

(** An entry whose word is a word of a tag contributes to the product. *)
Lemma contributions_tag_member (index : list (PredictionWord N))
    (p : Product N) (tag : string) (pw : PredictionWord N) :
  In tag (tags p) -> In (word pw) (tokenizeClassName tag) -> In pw index ->
  In (contribution 100 pw) (contributions index p).
Proof.
  intros Htag Hw Hpw. unfold contributions. apply in_or_app. left.
  apply in_flat_map. exists tag. split; [assumption|].
  apply in_flat_map. exists (word pw). split; [assumption|].
  apply in_flat_map. exists pw. split; [assumption|].
  unfold pairContributions. rewrite matchKind_refl. now left.
Qed.

(** Every contribution is [base * confidence * weight] for an entry of the
    index and a base of the scorer. *)
Lemma contributions_form (index : list (PredictionWord N)) (p : Product N)
    (c : N) :
  In c (contributions index p) ->
  exists base pw, In base [100; 10; 150; 15; 5]%Z /\ In pw index
                  /\ c = contribution base pw.
Proof.
  unfold contributions. intros Hc.
  apply in_app_or in Hc. destruct Hc as [Hc|Hc];
    [|apply in_app_or in Hc; destruct Hc as [Hc|Hc]].
  - apply in_flat_map in Hc. destruct Hc as [tag [_ Hc]].
    apply in_flat_map in Hc. destruct Hc as [tw [_ Hc]].
    apply in_flat_map in Hc. destruct Hc as [pw [Hpw Hc]].
    unfold pairContributions in Hc.
    destruct (matchKind tw (word pw)); cbn [In] in Hc;
      [destruct Hc as [<-|[]] | destruct Hc as [<-|[]] | contradiction].
    + exists 100%Z, pw. cbn. tauto.
    + exists 10%Z, pw. cbn. tauto.
  - apply in_flat_map in Hc. destruct Hc as [nw [_ Hc]].
    apply in_flat_map in Hc. destruct Hc as [pw [Hpw Hc]].
    unfold pairContributions in Hc.
    destruct (matchKind nw (word pw)); cbn [In] in Hc;
      [destruct Hc as [<-|[]] | destruct Hc as [<-|[]] | contradiction].
    + exists 150%Z, pw. cbn. tauto.
    + exists 15%Z, pw. cbn. tauto.
  - apply in_flat_map in Hc. destruct Hc as [pw [Hpw Hc]].
    unfold categoryContributions in Hc.
    destruct (includes (toLowerCase (category p)) (word pw)
              || includes (word pw) (toLowerCase (category p)));
      cbn [In] in Hc; [destruct Hc as [<-|[]] | contradiction].
    exists 5%Z, pw. cbn. tauto.
Qed.

(** The confidence of an entry of the index is that of a prediction. *)
Lemma index_probability (predictions : list (Prediction N))
    (pw : PredictionWord N) :
  In pw (buildPredictionWords predictions) ->
  exists pred, In pred predictions /\ wprobability pw = probability pred.
Proof.
  rewrite buildPredictionWords_specIndex. unfold specIndex. intros Hpw.
  apply in_flat_map in Hpw. destruct Hpw as [[r pred] [Hin Hpw]].
  apply in_combine_r in Hin. cbn [fst snd] in Hpw.
  unfold specEntries in Hpw. apply in_map_iff in Hpw.
  destruct Hpw as [w [<- _]]. now exists pred.
Qed.

End IndexGrowth.

Section Products.

Local Open Scope Z_scope.

(** A binary64 number above 0 is a positive finite number or
    [Infinity]. *)
Lemma above_0_cases (x : float) :
  PrimFloat.ltb (float_of_Z 0) x = true ->
  Prim2SF x = S754_infinity false
  \/ exists m e, Prim2SF x = S754_finite false m e
                 /\ bounded prec emax m e = true.
Proof.
  rewrite ltb_spec, const_0. pose proof (Prim2SF_valid x) as Hv.
  destruct (Prim2SF x) as [s|[|]| |[|] m e]; cbn; try discriminate.
  - intros _. now left.
  - intros _. right. exists m, e. split; [reflexivity | exact Hv].
Qed.

(** The product of two positive binary64 numbers, one of them an integer
    constant [cz = mc * 2^-k] that is at least 1, is not rounded to 0. *)
Lemma SFmul_const_positive (mx : positive) (ex : Z) (mc : positive)
    (cz k : Z) :
  bounded prec emax mx ex = true ->
  Zpos mc = cz * 2 ^ k -> 0 < cz -> 0 <= k ->
  binary_round_aux prec emax false (Zpos (mx * mc)) (ex + - k) loc_Exact
  = S754_infinity false
  \/ exists m e,
       binary_round_aux prec emax false (Zpos (mx * mc)) (ex + - k) loc_Exact
       = S754_finite false m e.
Proof.
  intros Hb Hmc Hcz Hk.
  destruct (bounded_facts mx ex Hb) as [Hex _].
  destruct (round_aux_spec (mx * mc) (ex + - k)) as [q [Hq0 [Hq1 [_ Hr]]]].
  pose proof (digits_bounds (mx * mc)) as Hd.
  rewrite fexp_value in *.
  set (d := Zpos (digits2_pos (mx * mc))) in *.
  set (E := ex + - k) in *.
  set (e1 := Z.max E (Z.max (d + E - 53) (-1074))) in *.
  destruct Hr as [[Hz _]|[[Hinf _]|[m [e [Hfin _]]]]].
  - exfalso. subst q.
    assert (Hpk : 0 < 2 ^ k) by (apply pow2_pos; lia).
    assert (HM : 2 ^ k <= Zpos (mx * mc)).
    { rewrite Pos2Z.inj_mul, Hmc. nia. }
    assert (Hdpos : 1 <= d) by (unfold d; lia).
    destruct (Z.eq_dec e1 E) as [E0|E0].
    + replace (e1 - E) with 0 in Hq1 by lia. change (2 ^ 0) with 1 in Hq1. lia.
    + destruct (Z.eq_dec e1 (d + E - 53)) as [E1|E1].
      * replace (e1 - E) with (d - 53) in Hq1 by lia.
        assert (Hd53 : 0 <= d - 53) by (unfold e1 in *; lia).
        assert (Hs : 2 ^ (d - 1) = 2 ^ 52 * 2 ^ (d - 53)).
        { rewrite <- pow2_split by lia. f_equal. lia. }
        assert (Hp : 0 < 2 ^ (d - 53)) by (apply pow2_pos; lia).
        change (2 ^ 52) with 4503599627370496 in Hs. nia.
      * assert (E2 : e1 = -1074) by (unfold e1 in *; lia).
        assert (Hn : 0 <= e1 - E <= k) by (unfold E in *; lia).
        assert (Hle : 2 ^ (e1 - E) <= 2 ^ k) by (apply pow2_le; lia).
        lia.
  - now left.
  - right. now exists m, e.
Qed.

(** Multiplying a binary64 number above 0 by a positive integer constant
    gives a number above 0, and multiplying one that is at least 0 gives
    one that is at least 0. *)
Lemma mul_const_above_0 (x c : float) (mc : positive) (cz k : Z) :
  Prim2SF c = S754_finite false mc (- k) ->
  Zpos mc = cz * 2 ^ k -> 0 < cz -> 0 <= k ->
  (PrimFloat.ltb (float_of_Z 0) x = true ->
   PrimFloat.ltb (float_of_Z 0) (x * c) = true
   /\ PrimFloat.ltb (float_of_Z 0) (c * x) = true)
  /\ (PrimFloat.leb (float_of_Z 0) x = true ->
      PrimFloat.leb (float_of_Z 0) (x * c) = true
      /\ PrimFloat.leb (float_of_Z 0) (c * x) = true).
Proof.
  intros Hc Hmc Hcz Hk.
  assert (Hpos : PrimFloat.ltb (float_of_Z 0) x = true ->
                 PrimFloat.ltb (float_of_Z 0) (x * c) = true
                 /\ PrimFloat.ltb (float_of_Z 0) (c * x) = true).
  { intros Hx. rewrite !ltb_spec, !mul_spec, const_0, Hc. unfold SF64mul.
    destruct (above_0_cases x Hx) as [->|[mx [ex [-> Hb]]]];
      [split; reflexivity|].
    cbn [SFmul xorb]. rewrite (Pos.mul_comm mc mx), (Z.add_comm (- k) ex).
    destruct (SFmul_const_positive mx ex mc cz k Hb Hmc Hcz Hk)
      as [->|[m [e ->]]]; split; reflexivity. }
  split; [exact Hpos|].
  intros Hx. destruct (PrimFloat.ltb (float_of_Z 0) x) eqn:Hlt.
  - destruct (Hpos eq_refl) as [H1 H2].
    rewrite ltb_spec in H1, H2. rewrite !leb_spec.
    unfold SFltb, SFleb in *.
    destruct (SFcompare (Prim2SF (float_of_Z 0)) (Prim2SF (x * c)))
      as [[| |]|]; try discriminate.
    destruct (SFcompare (Prim2SF (float_of_Z 0)) (Prim2SF (c * x)))
      as [[| |]|]; try discriminate.
    split; reflexivity.
  - rewrite ltb_spec, const_0 in Hlt.
    rewrite !leb_spec, !mul_spec, const_0, Hc. unfold SF64mul.
    destruct (at_least_0_cases x Hx) as [[s ->]|[E|[m [e [E _]]]]];
      [split; now destruct s | rewrite E in *; discriminate
      | rewrite E in *; discriminate].
Qed.

(** The contribution of a confidence that is at least 0 is at least 0, and
    that of a confidence above 0 is above 0. *)
Lemma contribution_sign (base : Z) (p : float) (r : nat) :
  In base [100; 10; 150; 15; 5]%Z ->
  (PrimFloat.leb (float_of_Z 0) p = true ->
   PrimFloat.leb (float_of_Z 0)
     (float_of_Z base * p * float_of_Z (rankWeight r))%float = true)
  /\ (PrimFloat.ltb (float_of_Z 0) p = true ->
      PrimFloat.ltb (float_of_Z 0)
        (float_of_Z base * p * float_of_Z (rankWeight r))%float = true).
Proof.
  intros Hbase.
  destruct (base_constant base Hbase) as [mb [kb [Hb [Hmb [Hbz [Hkb _]]]]]].
  destruct (weight_constant r) as [mw [kw [Hw [Hmw [Hwz [Hkw _]]]]]].
  destruct (mul_const_above_0 p _ mb base kb Hb Hmb Hbz (proj1 Hkb))
    as [Hp1 Hn1].
  destruct (mul_const_above_0 (float_of_Z base * p) _ mw (rankWeight r) kw
              Hw Hmw Hwz (proj1 Hkw)) as [Hp2 Hn2].
  split.
  - intros H0. apply Hn2, Hn1, H0.
  - intros H0. apply Hp2, Hp1, H0.
Qed.

End Products.

Section Binary64Scores.

Lemma float_of_Z_0 : float_of_Z 0 = 0%float.
Proof. vm_compute. reflexivity. Qed.

Lemma float_of_Z_1 : float_of_Z 1 = 1%float.
Proof. vm_compute. reflexivity. Qed.

(** Adding a positive finite number to 0 gives that number. *)
Lemma add_0_finite (c : float) (m : positive) (e : Z) :
  Prim2SF c = S754_finite false m e -> (float_of_Z 0 + c)%float = c.
Proof.
  intros Hc. apply Prim2SF_inj.
  rewrite add_spec, const_0, Hc. reflexivity.
Qed.

(** The contribution of a confidence in (0, 1] is a positive finite
    number. *)
Lemma contribution_finite (base : Z) (p : float) (r : nat) :
  In base [100; 10; 150; 15; 5]%Z ->
  PrimFloat.ltb (float_of_Z 0) p = true ->
  PrimFloat.leb p (float_of_Z 1) = true ->
  exists m e,
    Prim2SF (float_of_Z base * p * float_of_Z (rankWeight r))%float
    = S754_finite false m e.
Proof.
  rewrite float_of_Z_0, float_of_Z_1. intros Hbase H0 H1.
  destruct (base_mul_probability base p Hbase H0 H1) as [mx [ex [Hx Hex]]].
  destruct (weight_mul _ mx ex r Hx Hex) as [m [e [Hy _]]].
  now exists m, e.
Qed.

(** The sums of the scorer: a loop that adds numbers that are at least 0
    to a score that is at least 0. *)
Lemma sum_nonneg (l : list float) (s : float) :
  Forall (fun c => PrimFloat.leb (float_of_Z 0) c = true) l ->
  PrimFloat.leb (float_of_Z 0) s = true ->
  PrimFloat.leb (float_of_Z 0) (fold_left PrimFloat.add l s) = true
  /\ PrimFloat.leb s (fold_left PrimFloat.add l s) = true.
Proof.
  intros Hl. revert s. induction Hl as [|c l Hc Hl IH]; intros s Hs.
  - split; [exact Hs | now apply leb_nonneg_refl].
  - cbn [fold_left].
    destruct (add_nonneg s c Hs Hc) as [Hsc _].
    destruct (add_nonneg_ge s c Hs Hc) as [Hge _].
    destruct (IH _ Hsc) as [Hn Hle]. split; [exact Hn|].
    exact (leb_nonneg_trans _ _ _ Hs Hsc Hn Hge Hle).
Qed.

Lemma sum_ge_member (l : list float) (s c : float) :
  Forall (fun c => PrimFloat.leb (float_of_Z 0) c = true) l ->
  PrimFloat.leb (float_of_Z 0) s = true ->
  In c l -> PrimFloat.leb c (fold_left PrimFloat.add l s) = true.
Proof.
  intros Hl. revert s. induction Hl as [|x l Hx Hl IH]; intros s Hs Hin.
  - destruct Hin.
  - cbn [fold_left]. destruct (add_nonneg s x Hs Hx) as [Hsx _].
    destruct Hin as [->|Hin]; [|now apply IH].
    destruct (add_nonneg_ge s c Hs Hx) as [_ Hge].
    destruct (sum_nonneg l _ Hl Hsx) as [Hn Hle].
    exact (leb_nonneg_trans _ _ _ Hx Hsx Hn Hge Hle).
Qed.

(** Inserting numbers that are at least 0 into a sum never lowers it. *)
Lemma sum_Subsequence (l l' : list float) (s s' : float) :
  Subsequence l l' ->
  Forall (fun c => PrimFloat.leb (float_of_Z 0) c = true) l' ->
  PrimFloat.leb (float_of_Z 0) s = true ->
  PrimFloat.leb (float_of_Z 0) s' = true ->
  PrimFloat.leb s s' = true ->
  PrimFloat.leb (fold_left PrimFloat.add l s) (fold_left PrimFloat.add l' s')
  = true.
Proof.
  intros Hsub. revert s s'.
  induction Hsub as [l'|x l l' Hsub IH|y l l' Hsub IH]; intros s s' Hl Hs Hs' Hle.
  - cbn [fold_left]. destruct (sum_nonneg l' s' Hl Hs') as [Hn Hge].
    exact (leb_nonneg_trans _ _ _ Hs Hs' Hn Hle Hge).
  - apply Forall_cons_iff in Hl. destruct Hl as [Hx Hl]. cbn [fold_left].
    apply IH; [exact Hl | now apply add_nonneg | now apply add_nonneg|].
    now apply add_nonneg_mono.
  - apply Forall_cons_iff in Hl. destruct Hl as [Hy Hl]. cbn [fold_left].
    destruct (add_nonneg s' y Hs' Hy) as [Hsy _].
    destruct (add_nonneg_ge s' y Hs' Hy) as [Hge _].
    apply IH; [exact Hl | exact Hs | exact Hsy|].
    exact (leb_nonneg_trans _ _ _ Hs Hs' Hsy Hle Hge).
Qed.

(** With confidences that are at least 0 every contribution is at least
    0. *)
Lemma contributions_nonneg (predictions : list (Prediction float))
    (p : Product float) :
  (forall pred, In pred predictions ->
                ngeb (probability pred) (lit 0) = true) ->
  Forall (fun c => PrimFloat.leb (float_of_Z 0) c = true)
         (contributions (buildPredictionWords predictions) p).
Proof.
  intros Hp. apply Forall_forall. intros c Hc.
  apply contributions_form in Hc. destruct Hc as [base [pw [Hbase [Hpw ->]]]].
  apply index_probability in Hpw. destruct Hpw as [pred [Hpred Epw]].
  unfold contribution. rewrite Epw.
  apply (contribution_sign base _ _ Hbase). exact (Hp pred Hpred).
Qed.

End Binary64Scores.

Section Binary64Claims.

(** C5, as amended: in binary64, with confidences that are at least 0,
    appending at the end of the prediction list a prediction of confidence
    above 0 whose tokenized label has a token longer than 2 characters that
    is a token of one of the item's tags never lowers the score of the
    item; the new score is at least the contribution [100 * confidence *
    rankWeight] of that match, which is above 0, so that the score is
    strictly larger whenever it was below that contribution before. *)
Theorem appended_match_never_lowers_score
    (predictions : list (Prediction float)) (added : Prediction float)
    (item : Product float) (tag w : string) :
  (forall pred, In pred predictions ->
                ngeb (probability pred) (lit 0) = true) ->
  ngtb (probability added) (lit 0) = true ->
  In w (tokenizeClassName (className added)) -> 2 < String.length w ->
  In tag (tags item) -> In w (tokenizeClassName tag) ->
  let before := score (calculateSimilarity predictions item) in
  let after := score (calculateSimilarity (predictions ++ [added]) item) in
  let gain :=
    contribution 100 {| word := w; wprobability := probability added;
                        rank := List.length predictions |} in
  ngeb after before = true
  /\ ngeb after gain = true
  /\ ngtb gain (lit 0) = true
  /\ (nltb before gain = true -> ngtb after before = true).
Proof.
  intros Hold Hpos Hw Hlen Htag Htw before after gain.
  set (pw := {| word := w; wprobability := probability added;
                rank := List.length predictions |}) in *.
  assert (Hall : forall pred, In pred (predictions ++ [added]) ->
            ngeb (probability pred) (lit 0) = true).
  { intros pred Hin. apply in_app_or in Hin.
    destruct Hin as [Hin|[<-|[]]]; [now apply Hold|].
    cbn [ngeb ngtb lit Float64] in *.
    rewrite leb_spec. rewrite ltb_spec in Hpos. unfold SFleb, SFltb in *.
    now destruct (SFcompare (Prim2SF (float_of_Z 0))
                    (Prim2SF (probability added))) as [[| |]|]. }
  pose proof (contributions_nonneg predictions item Hold) as Hc1.
  pose proof (contributions_nonneg (predictions ++ [added]) item Hall) as Hc2.
  assert (H0 : PrimFloat.leb (float_of_Z 0) (float_of_Z 0) = true)
    by (vm_compute; reflexivity).
  assert (Hin : In gain
                  (contributions (buildPredictionWords (predictions ++ [added]))
                     item)).
  { apply (contributions_tag_member _ item tag pw Htag Htw).
    rewrite buildPredictionWords_append. apply in_or_app. right.
    unfold specEntries. apply in_map_iff. exists w.
    split; [reflexivity|]. apply filter_In. split; [assumption|].
    now apply Nat.ltb_lt. }
  assert (Hgain : PrimFloat.ltb (float_of_Z 0) gain = true).
  { apply (contribution_sign 100 (probability added) (List.length predictions));
      [cbn; tauto | exact Hpos]. }
  assert (Hbefore : before
                    = fold_left PrimFloat.add
                        (contributions (buildPredictionWords predictions) item)
                        (float_of_Z 0))
    by exact (score_is_sum predictions item).
  assert (Hafter : after
                   = fold_left PrimFloat.add
                       (contributions
                          (buildPredictionWords (predictions ++ [added])) item)
                       (float_of_Z 0))
    by exact (score_is_sum (predictions ++ [added]) item).
  destruct (sum_nonneg _ (float_of_Z 0) Hc1 H0) as [Hnb _].
  destruct (sum_nonneg _ (float_of_Z 0) Hc2 H0) as [Hna _].
  rewrite <- Hbefore in Hnb. rewrite <- Hafter in Hna.
  assert (Hge : PrimFloat.leb before after = true).
  { rewrite Hbefore, Hafter. apply sum_Subsequence; try assumption.
    rewrite buildPredictionWords_append. apply contributions_Subsequence. }
  assert (Hgg : PrimFloat.leb gain after = true).
  { rewrite Hafter. now apply sum_ge_member. }
  assert (Hng : PrimFloat.leb (float_of_Z 0) gain = true).
  { rewrite Forall_forall in Hc2. now apply Hc2. }
  cbn [ngeb ngtb nltb lit Float64].
  split; [exact Hge|]. split; [exact Hgg|]. split; [exact Hgain|].
  intros Hlt. exact (ltb_leb_nonneg_trans _ _ _ Hnb Hng Hna Hlt Hgg).
Qed.

(** C4, as amended: a matching step ([tagStep] or [nameStep] on a word that
    matches exactly or partially, [categoryStep] on a category that
    matches) adds to the running score the contribution of its entry, the
    score it gives from 0.  Of two entries with the same word and the same
    confidence in (0, 1], the one of lower rank contributes strictly more
    in binary64 when its rank is 0, 1 or 2, and the same when both ranks
    are 3 or more; from any score that is at least 0 it leaves a score
    that is at least as large. *)
Theorem rank_sensitivity (tag fieldWord cat : string)
    (pw1 pw2 : PredictionWord float)
    (step : PredictionWord float -> Acc float -> Acc float) :
  word pw1 = word pw2 ->
  wprobability pw1 = wprobability pw2 ->
  ngtb (wprobability pw1) (lit 0) = true ->
  ngeb (lit 1) (wprobability pw1) = true ->
  rank pw1 < rank pw2 ->
  (step = tagStep tag fieldWord /\ matchKind fieldWord (word pw1) <> NoMatch)
  \/ (step = nameStep fieldWord /\ matchKind fieldWord (word pw1) <> NoMatch)
  \/ (step = categoryStep cat
      /\ includes (toLowerCase cat) (word pw1)
         || includes (word pw1) (toLowerCase cat) = true) ->
  (forall st,
     accScore (step pw1 st)
     = nadd (accScore st) (accScore (step pw1 Sample.start))
     /\ accScore (step pw2 st)
        = nadd (accScore st) (accScore (step pw2 Sample.start)))
  /\ (rank pw1 < 3 ->
      ngtb (accScore (step pw1 Sample.start))
           (accScore (step pw2 Sample.start)) = true)
  /\ (3 <= rank pw1 ->
      accScore (step pw1 Sample.start) = accScore (step pw2 Sample.start))
  /\ (forall st, ngeb (accScore st) (lit 0) = true ->
                 ngeb (accScore (step pw1 st)) (accScore (step pw2 st))
                 = true).
Proof.
  intros Hword Hprob Hpos Hone Hrank Hstep.
  assert (Hsum : exists base,
            In base [100; 10; 150; 15; 5]%Z
            /\ forall pw st, word pw = word pw1 ->
                 accScore (step pw st)
                 = nadd (accScore st)
                     (nmul (nmul (lit base) (wprobability pw))
                           (lit (rankWeight (rank pw))))).
  { destruct Hstep as [[-> Hm]|[[-> Hm]|[-> Hc]]].
    - unfold tagStep.
      destruct (matchKind fieldWord (word pw1)) eqn:E; [| |congruence].
      + exists 100%Z. split; [cbn; tauto|]. intros pw st ->.
        now rewrite E, rankMultiplier_rankWeight.
      + exists 10%Z. split; [cbn; tauto|]. intros pw st ->.
        now rewrite E, rankMultiplier_rankWeight.
    - unfold nameStep.
      destruct (matchKind fieldWord (word pw1)) eqn:E; [| |congruence].
      + exists 150%Z. split; [cbn; tauto|]. intros pw st ->.
        cbv zeta. now rewrite E, rankMultiplier_rankWeight.
      + exists 15%Z. split; [cbn; tauto|]. intros pw st ->.
        cbv zeta. now rewrite E, rankMultiplier_rankWeight.
    - unfold categoryStep. exists 5%Z. split; [cbn; tauto|].
      intros pw st ->. now rewrite Hc, rankMultiplier_rankWeight. }
  destruct Hsum as [base [Hbase Hadd]].
  cbn [ngeb ngtb nadd nmul lit Float64] in *.
  set (p := wprobability pw1) in *.
  destruct (contribution_finite base p (rank pw1) Hbase Hpos Hone)
    as [m1 [e1 Hc1]].
  destruct (contribution_finite base p (rank pw2) Hbase Hpos Hone)
    as [m2 [e2 Hc2]].
  assert (Hg1 : accScore (step pw1 Sample.start)
                = (float_of_Z base * p * float_of_Z (rankWeight (rank pw1)))%float).
  { rewrite (Hadd pw1 Sample.start eq_refl). cbn [Sample.start accScore lit Float64].
    exact (add_0_finite _ m1 e1 Hc1). }
  assert (Hg2 : accScore (step pw2 Sample.start)
                = (float_of_Z base * p * float_of_Z (rankWeight (rank pw2)))%float).
  { rewrite (Hadd pw2 Sample.start (eq_sym Hword)), <- Hprob.
    cbn [Sample.start accScore lit Float64].
    exact (add_0_finite _ m2 e2 Hc2). }
  assert (Hn1 : PrimFloat.leb (float_of_Z 0)
                  (float_of_Z base * p * float_of_Z (rankWeight (rank pw1)))
                = true)
    by (rewrite leb_spec, const_0, Hc1; reflexivity).
  assert (Hn2 : PrimFloat.leb (float_of_Z 0)
                  (float_of_Z base * p * float_of_Z (rankWeight (rank pw2)))
                = true)
    by (rewrite leb_spec, const_0, Hc2; reflexivity).
  assert (Hlt : rank pw1 < 3 ->
                PrimFloat.ltb
                  (float_of_Z base * p * float_of_Z (rankWeight (rank pw2)))
                  (float_of_Z base * p * float_of_Z (rankWeight (rank pw1)))
                = true).
  { intros H3. now apply contribution_rank_lt_binary64. }
  rewrite Hg1, Hg2. split; [|split; [|split]].
  - intros st. split.
    + exact (Hadd pw1 st eq_refl).
    + rewrite (Hadd pw2 st (eq_sym Hword)), <- Hprob. reflexivity.
  - exact Hlt.
  - intros H3. now rewrite (rankWeight_flat _ _ H3 Hrank).
  - intros st Hst.
    rewrite (Hadd pw1 st eq_refl), (Hadd pw2 st (eq_sym Hword)), <- Hprob.
    fold p. apply add_nonneg_mono_r; try assumption.
    destruct (Nat.lt_ge_cases (rank pw1) 3) as [H3|H3].
    + specialize (Hlt H3).
      rewrite (proj2 (nonneg_order _ _ Hn2 Hn1)) in Hlt.
      rewrite (proj1 (nonneg_order _ _ Hn2 Hn1)).
      apply Z.ltb_lt in Hlt. apply Z.leb_le. clear - Hlt. lia.
    + rewrite (rankWeight_flat _ _ H3 Hrank). now apply leb_nonneg_refl.
Qed.

End Binary64Claims.

Section Binary64Examples.

Import Sample.

Lemma rank_sensitivity_witness :
  ngtb (accScore (tagStep "shoe" "shoe" (entry "shoe" half 0) start))
       (accScore (tagStep "shoe" "shoe" (entry "shoe" half 1) start)) = true.
Proof.
  apply (proj1 (proj2 (rank_sensitivity "shoe" "shoe" "footwear"
                         (entry "shoe" half 0) (entry "shoe" half 1)
                         (tagStep "shoe" "shoe")
                         eq_refl eq_refl eq_refl eq_refl (le_n 1)
                         (or_introl (conj eq_refl
                            (fun E : ExactMatch = NoMatch =>
                               eq_ind ExactMatch
                                 (fun k => match k with
                                           | NoMatch => False
                                           | _ => True
                                           end) I NoMatch E)))))).
  apply Nat.lt_0_succ.
Defined.

(** The score of the mug goes from 1000 to 1400 when "coffee" is appended
    with confidence 0.25: rank 1, weight 4, and the two tokens of the
    label against the two tokens of the tag. *)
Example appended_match_example :
  score (calculateSimilarity [mkPrediction "mug" half] mug) = 1000%float
  /\ score (calculateSimilarity
              ([mkPrediction "mug" half] ++ [mkPrediction "coffee" 0.25%float])
              mug)
     = 1400%float.
Proof. split; vm_compute; reflexivity. Qed.

Lemma appended_match_never_lowers_score_witness :
  ngeb (score (calculateSimilarity
                 ([mkPrediction "mug" half] ++ [mkPrediction "coffee" 0.25%float])
                 mug))
       (score (calculateSimilarity [mkPrediction "mug" half] mug)) = true
  /\ ngeb (score (calculateSimilarity
                    ([mkPrediction "mug" half]
                     ++ [mkPrediction "coffee" 0.25%float]) mug))
          (contribution 100 (entry "coffee" 0.25%float 1)) = true.
Proof.
  assert (H : forall pred : Prediction float,
            In pred [mkPrediction "mug" half] ->
            ngeb (probability pred) (lit 0) = true).
  { intros pred [<-|[]]. reflexivity. }
  assert (Hlen : 2 < String.length "coffee") by (cbn; repeat constructor).
  pose proof (appended_match_never_lowers_score [mkPrediction "mug" half]
                (mkPrediction "coffee" 0.25%float) mug "coffee" "coffee"
                H eq_refl
                (or_intror (or_introl eq_refl)) Hlen
                (or_introl eq_refl) (or_intror (or_introl eq_refl))) as W.
  cbv zeta in W. split; [exact (proj1 W) | exact (proj1 (proj2 W))].
Defined.

(** A confidence that is not a number leaves no order between the two
    scores: both are NaN. *)
Example nan_confidence_example :
  ngeb (score (calculateSimilarity
                 ([mkPrediction "mug" nan] ++ [mkPrediction "coffee" 0.25%float])
                 mug))
       (score (calculateSimilarity [mkPrediction "mug" nan] mug)) = false.
Proof. vm_compute. reflexivity. Qed.

End Binary64Examples.
